(** * node-aion-proxy-server: the WebSocket upgrade and relay engine

    A shallow embedding of the routed [WebSocketProxy] class (route and
    protocol resolution, outbound header construction, target URL building,
    the upgrade handshake with timeout and retry, the relay session) and of
    the message path of the single-target [Proxy] class, followed by the
    properties established about them.

    JavaScript strings are modelled as [string]; objects used as
    dictionaries whose enumeration order matters ([routes], [protocolMap])
    as association lists in [Object.entries] order; the header objects as
    [gmap string string]; event handlers as transitions of a state record,
    the nondeterminism of the [ws] library and of the network being carried
    by the events. *)

From Stdlib Require Import ZArith Lia Bool.
From stdpp Require Import base option list sorting strings gmap pretty.

Open Scope string_scope.
Open Scope list_scope.
Open Scope nat_scope.

(** ** JavaScript string and value primitives *)

Module Js.

(** [s.startsWith(p)] *)
Definition startsWith (s p : string) : bool := String.prefix p s.

(** [s.includes(p)] *)
Definition includes (s p : string) : bool :=
  match String.index 0 p s with
  | Some _ => true
  | None => false
  end.

(** Truthiness of a string value: only the empty string is falsy. *)
Definition truthy (s : string) : bool :=
  match s with
  | EmptyString => false
  | String _ _ => true
  end.

(** Truthiness of a value that is a string, [undefined] or [null]. *)
Definition truthyOpt (o : option string) : bool :=
  match o with
  | Some s => truthy s
  | None => false
  end.

(** How a template literal prints a string-or-null value. *)
Definition show (o : option string) : string :=
  match o with
  | Some s => s
  | None => "null"
  end.

(** [a || b] on string-or-null values. *)
Definition or (a b : option string) : option string :=
  if truthyOpt a then a else b.

(** Own-property lookup [obj[key]] in an object given by its entries. The
    keys looked up are pathnames, which no property inherited from
    [Object.prototype] is named like. *)
Fixpoint get (obj : list (string * string)) (key : string) : option string :=
  match obj with
  | [] => None
  | (k, v) :: rest => if String.eqb k key then Some v else get rest key
  end.

(** [Array.prototype.sort] is stable; with the comparator
    [([a], [b]) => b.length - a.length] an entry stays in front of every
    later entry whose key is not strictly longer. *)
Fixpoint insertByLength (e : string * string) (l : list (string * string))
  : list (string * string) :=
  match l with
  | [] => [e]
  | y :: r =>
      if (String.length (fst y) <=? String.length (fst e))%nat
      then e :: y :: r
      else y :: insertByLength e r
  end.

Fixpoint sortByLengthDesc (l : list (string * string)) : list (string * string) :=
  match l with
  | [] => []
  | e :: r => insertByLength e (sortByLengthDesc r)
  end.

(** [for (const [k, v] of entries) if (s.startsWith(k)) return v] *)
Fixpoint firstPrefix (entries : list (string * string)) (s : string)
  : option string :=
  match entries with
  | [] => None
  | (k, v) :: rest => if startsWith s k then Some v else firstPrefix rest s
  end.

End Js.

(** ** The proxy object *)

Record WebSocketProxy := {
  routes : list (string * string);
  protocolMap : list (string * string);
  defaultTarget : option string;
  connectionTimeout : Z;
  maxRetries : nat;
  retryDelay : Z
}.

(** ** Route resolver *)

(** [getTargetForPath(pathname)]: a string, or [null] as [None]. *)
Definition getTargetForPath (this : WebSocketProxy) (pathname : string)
  : option string :=
  if Js.truthyOpt (Js.get (routes this) pathname) then
    Js.get (routes this) pathname
  else
    let sortedRoutes := Js.sortByLengthDesc (routes this) in
    match Js.firstPrefix sortedRoutes pathname with
    | Some target => Some target
    | None => defaultTarget this
    end.

(** [getProtocolForPath(pathname)]: a string, or [undefined] as [None].
    The constructor makes [protocolMap] an object in every case, so the
    guards [this.protocolMap && ...] always pass. *)
Definition getProtocolForPath (this : WebSocketProxy) (pathname : string)
  : option string :=
  if Js.truthyOpt (Js.get (protocolMap this) pathname) then
    Js.get (protocolMap this) pathname
  else
    let sortedProtocols := Js.sortByLengthDesc (protocolMap this) in
    match Js.firstPrefix sortedProtocols pathname with
    | Some protocol => Some protocol
    | None =>
        if Js.includes pathname "graphql" || Js.includes pathname "subscription"
        then Some "graphql-transport-ws"
        else None
    end.

(** The [config] argument of the constructor; an absent field is [None],
    and the numeric options are integers, of either sign. *)
Record Config := {
  config_routes : option (list (string * string));
  config_protocolMap : option (list (string * string));
  config_defaultTarget : option string;
  config_connectionTimeout : option Z;
  config_maxRetries : option Z;
  config_retryDelay : option Z
}.

(** [n || d] on a number that may be absent: 0 is falsy. *)
Definition orZ (n : option Z) (d : Z) : Z :=
  match n with
  | Some v => if (v =? 0)%Z then d else v
  | None => d
  end.

(** [new WebSocketProxy(config)], as far as the engine reads the object,
    for numeric options that are integers. Apart from a line logged at
    start-up, [this.maxRetries] is only read in [retries < this.maxRetries],
    with [retries] counting up from 0: a negative value, which the
    constructor keeps like any number other than 0, never lets the
    comparison hold and is held here as 0. *)
Definition new_WebSocketProxy (config : Config) : WebSocketProxy := {|
  routes := default [] (config_routes config);
  protocolMap := default [] (config_protocolMap config);
  defaultTarget := Js.or (config_defaultTarget config) None;
  connectionTimeout := orZ (config_connectionTimeout config) 15000;
  maxRetries := Z.to_nat (orZ (config_maxRetries config) 3);
  retryDelay := orZ (config_retryDelay config) 1000
|}.

(** The configuration the repository starts the server with. *)
Definition proxyConfig : Config := {|
  config_routes := Some [
    ("/ws/graphql", "wss://api.aion.to/ws/graphql");
    ("/graphql/ws", "wss://api.aion.to/graphql/ws");
    ("/subscriptions", "wss://api.aion.to/subscriptions");
    ("/api/graphql/ws", "wss://api.aion.to/api/graphql/ws");
    ("/api/graphql", "https://api.aion.to/api/graphql");
    ("/graphql", "https://api.aion.to/graphql");
    ("/socket.io", "wss://api.aion.to/socket.io");
    ("/websocket", "wss://api.aion.to/websocket")
  ];
  config_protocolMap := Some [
    ("/ws/graphql", "graphql-transport-ws");
    ("/graphql/ws", "graphql-ws");
    ("/subscriptions", "graphql-transport-ws");
    ("/api/graphql/ws", "graphql-transport-ws")
  ];
  config_defaultTarget := Some "https://api.aion.to";
  config_connectionTimeout := Some 20000%Z;
  config_maxRetries := Some 3%Z;
  config_retryDelay := Some 1000%Z
|}.

(** [const proxy = new WebSocketProxy(proxyConfig)] *)
Definition proxy : WebSocketProxy := new_WebSocketProxy proxyConfig.

Definition longerFirst (a b : string * string) : Prop :=
  (String.length (fst b) ≤ String.length (fst a))%nat.

Definition twoRoutes : WebSocketProxy := {|
  routes := [("/api", "A"); ("/api/graphql", "B")];
  protocolMap := [];
  defaultTarget := None;
  connectionTimeout := 15000;
  maxRetries := 3;
  retryDelay := 1000
|}.

(** ** Header/protocol negotiator *)

(** The inbound upgrade request: its lower-cased header object and the
    [pathname] and [search] fields of [url.parse(request.url, true)]. *)
Record request := {
  headers : gmap string string;
  pathname : string;
  search : option string
}.

Definition headersToForward : list string :=
  [ "authorization"; "cookie"; "user-agent"; "sec-websocket-protocol";
    "sec-websocket-extensions"; "origin" ].

(** One round of the [forEach]:
    [if (request.headers[headerName]) headers[headerName] = request.headers[headerName]] *)
Definition forwardHeader (inbound : gmap string string)
    (acc : gmap string string) (headerName : string) : gmap string string :=
  if Js.truthyOpt (inbound !! headerName)
  then <[headerName := Js.show (inbound !! headerName)]> acc
  else acc.

(** [getProxyHeaders(request)] *)
Definition getProxyHeaders (this : WebSocketProxy) (req : request)
  : gmap string string :=
  let headers0 := foldl (forwardHeader (headers req)) ∅ headersToForward in
  let headers1 :=
    if negb (Js.truthyOpt (headers0 !! "sec-websocket-protocol")) then
      let protocol := getProtocolForPath this (pathname req) in
      if Js.truthyOpt protocol
      then <["sec-websocket-protocol" := Js.show protocol]> headers0
      else headers0
    else headers0 in
  <["upgrade" := "websocket"]>
    (<["connection" := "Upgrade"]>
      (<["sec-websocket-version" := "13"]> headers1)).

(** The header object handed to [new WebSocket] by [attemptConnection]:
    [getProxyHeaders] followed by the override
    [if (protocol) headers['sec-websocket-protocol'] = protocol]. *)
Definition outboundHeaders (this : WebSocketProxy) (req : request)
  : gmap string string :=
  let protocol := getProtocolForPath this (pathname req) in
  let hdrs := getProxyHeaders this req in
  if Js.truthyOpt protocol
  then <["sec-websocket-protocol" := Js.show protocol]> hdrs
  else hdrs.

(** What the allowlist copies: the inbound value when it is present and not
    the empty string. *)
Definition forwarded (req : request) (name : string) : option string :=
  if Js.truthyOpt (headers req !! name) then headers req !! name else None.

Definition graphqlWsRequest : request := {|
  headers := {[ "sec-websocket-protocol" := "graphql-ws" ]};
  pathname := "/ws/graphql";
  search := None
|}.

(** ** Target URL builder *)

(** The fields of a [url.parse] result that the builder reads; [null] is
    [None]. *)
Record Url := {
  host : option string;
  path : option string;
  url_pathname : option string
}.

Section TargetUrl.

(** Node's legacy [url.parse], taken as a total function. *)
Variable url_parse : string -> Url.

(** [buildTargetWebSocketUrl(targetUrl, queryString = '')] *)
Definition buildTargetWebSocketUrl (targetUrl queryString : string) : string :=
  let parsedTarget := url_parse targetUrl in
  if Js.startsWith targetUrl "ws://" || Js.startsWith targetUrl "wss://" then
    targetUrl +:+ queryString
  else
    let protocol :=
      if Js.startsWith targetUrl "https://" then "wss:" else "ws:" in
    let host_ := host parsedTarget in
    let path_ :=
      Js.or (Js.or (path parsedTarget) (url_pathname parsedTarget)) (Some "") in
    protocol +:+ "//" +:+ Js.show host_ +:+ Js.show path_ +:+ queryString.

(** The URL [attemptConnection] connects to:
    [buildTargetWebSocketUrl(targetUrl, parsedUrl.search || '')]. *)
Definition targetWsUrl (targetUrl : string) (req : request) : string :=
  buildTargetWebSocketUrl targetUrl (Js.show (Js.or (search req) (Some ""))).

End TargetUrl.

(** What [url.parse] returns for the default target of [proxyConfig]. *)
Definition parsedDefaultTarget : Url :=
  {| host := Some "api.aion.to"; path := Some "/"; url_pathname := Some "/" |}.

(** ** The [ws] socket states and error objects shared by both engines *)

Inductive readyState := CONNECTING | OPEN | CLOSING | CLOSED.

Definition readyState_eqb (a b : readyState) : bool :=
  match a, b with
  | CONNECTING, CONNECTING | OPEN, OPEN | CLOSING, CLOSING | CLOSED, CLOSED => true
  | _, _ => false
  end.

(** An error object: [error.code] ([undefined] is [None]) and
    [error.message]. *)
Record error := {
  code : option string;
  message : string
}.

Definition codeIs (e : error) (c : string) : bool :=
  match code e with
  | Some c' => String.eqb c' c
  | None => false
  end.

Definition crlf : string :=
  String (Ascii.ascii_of_nat 13) (String (Ascii.ascii_of_nat 10) EmptyString).

Definition statusLine (status : string) : string :=
  "HTTP/1.1 " +:+ status +:+ crlf +:+ crlf.

Definition NotFound : string := statusLine "404 Not Found".
Definition BadGateway : string := statusLine "502 Bad Gateway".
Definition GatewayTimeout : string := statusLine "504 Gateway Timeout".
Definition Unauthorized : string := statusLine "401 Unauthorized".

(** ** The arguments [ws] takes for a close *)

Module Ws.

(** The status codes [ws] takes as the first argument of
    [close(code, reason)]: 1000 to 1014 without 1004, 1005 and 1006, and
    3000 to 4999. 1005 and 1006 are what a 'close' event carries when the
    peer sent no code or the connection dropped; neither may be sent. *)
Definition isValidStatusCode (c : Z) : bool :=
  ((1000 <=? c)%Z && (c <=? 1014)%Z
   && negb (c =? 1004)%Z && negb (c =? 1005)%Z && negb (c =? 1006)%Z)
  || ((3000 <=? c)%Z && (c <=? 4999)%Z).

(** [socket.close(code, reason)] on an open socket raises, and sends
    nothing, when the code is not a valid status code (a TypeError) or the
    reason is longer than 123 bytes (a RangeError). No listener of this
    repository catches either: the exception leaves the listener, the
    listeners registered after it for the same event do not run, and the
    'uncaughtException' handler of the process, where there is one, exits. *)
Definition closeRaises (c : Z) (reason : string) : bool :=
  negb (isValidStatusCode c) || (123 <? String.length reason)%nat.

End Ws.

(** ** Upgrade handshake orchestrator *)

Module Upgrade.

(** The variables one call of [attemptConnection] closes over, with the
    state of its [connectionTimeout] timer and of its [targetWs]. *)
Record attempt := {
  isUpgraded : bool;
  connectionClosed : bool;
  clientWs : option readyState;   (* [None] is [null] *)
  timeoutArmed : bool;            (* armed and neither fired nor cleared *)
  targetState : readyState;
  targetCloseCalls : nat;
  targetErrored : bool            (* [targetWs] has emitted 'error' *)
}.

Definition newAttempt : attempt := {|
  isUpgraded := false; connectionClosed := false; clientWs := None;
  timeoutArmed := true; targetState := CONNECTING; targetCloseCalls := 0;
  targetErrored := false |}.

(** [clearTimeout(connectionTimeout)], also the state after it fired. *)
Definition clearTimeout (a : attempt) : attempt := {|
  isUpgraded := isUpgraded a; connectionClosed := connectionClosed a;
  clientWs := clientWs a; timeoutArmed := false;
  targetState := targetState a; targetCloseCalls := targetCloseCalls a;
  targetErrored := targetErrored a |}.

(** [connectionClosed = true] *)
Definition close (a : attempt) : attempt := {|
  isUpgraded := isUpgraded a; connectionClosed := true;
  clientWs := clientWs a; timeoutArmed := timeoutArmed a;
  targetState := targetState a; targetCloseCalls := targetCloseCalls a;
  targetErrored := targetErrored a |}.

(** [if (targetWs.readyState !== WebSocket.CLOSED) targetWs.close()] *)
Definition closeTarget (a : attempt) : attempt :=
  if readyState_eqb (targetState a) CLOSED then a
  else {|
    isUpgraded := isUpgraded a; connectionClosed := connectionClosed a;
    clientWs := clientWs a; timeoutArmed := timeoutArmed a;
    targetState := CLOSING; targetCloseCalls := S (targetCloseCalls a);
    targetErrored := targetErrored a |}.

(** The [handleUpgrade] callback: [clientWs = ws; isUpgraded = true]. *)
Definition upgraded (a : attempt) : attempt := {|
  isUpgraded := true; connectionClosed := connectionClosed a;
  clientWs := Some OPEN; timeoutArmed := timeoutArmed a;
  targetState := targetState a; targetCloseCalls := targetCloseCalls a;
  targetErrored := targetErrored a |}.

(** The client socket starts closing. *)
Definition clientClosing (a : attempt) : attempt := {|
  isUpgraded := isUpgraded a; connectionClosed := connectionClosed a;
  clientWs := Some CLOSING; timeoutArmed := timeoutArmed a;
  targetState := targetState a; targetCloseCalls := targetCloseCalls a;
  targetErrored := targetErrored a |}.

(** [clientWs.close(code, reason)] on an open client socket: it starts
    closing, unless [ws] refuses the arguments, in which case the call
    raises, no close frame is sent, and the socket is held as it was. *)
Definition clientClose (c : Z) (reason : string) (a : attempt) : attempt :=
  if Ws.closeRaises c reason then a else clientClosing a.

(** What the library does to [targetWs] before it emits an event. *)
Definition targetReports (rs : readyState) (errored : bool) (a : attempt)
  : attempt := {|
  isUpgraded := isUpgraded a; connectionClosed := connectionClosed a;
  clientWs := clientWs a; timeoutArmed := timeoutArmed a;
  targetState := rs; targetCloseCalls := targetCloseCalls a;
  targetErrored := errored || targetErrored a |}.

Definition clientReports (rs : readyState) (a : attempt) : attempt := {|
  isUpgraded := isUpgraded a; connectionClosed := connectionClosed a;
  clientWs := match clientWs a with Some _ => Some rs | None => None end;
  timeoutArmed := timeoutArmed a;
  targetState := targetState a; targetCloseCalls := targetCloseCalls a;
  targetErrored := targetErrored a |}.

(** One call [this.establishWebSocketProxy(clientWs, targetWs, pathname)]:
    the attempt that made it and the two sockets it passed, each by its
    state at the call ([None] is [null]). *)
Record relayCall := {
  byAttempt : nat;
  clientArg : option readyState;
  targetArg : option readyState
}.

(** One upgrade session: the variables [handleWebSocketUpgrade] closes
    over, the inbound socket and the pending retry timers. *)
Record session := {
  retries : nat;
  attempts : list attempt;
  timers : list Z;          (* pending [setTimeout(() => attemptConnection(), d)] *)
  delays : list Z;          (* every retry delay scheduled so far *)
  socketWrites : list string;
  socketDestroyed : bool;
  upgrades : nat;           (* completed [wss.handleUpgrade] callbacks *)
  relays : list relayCall;  (* the [establishWebSocketProxy] calls *)
  clientCloses : list (Z * string)
}.

Definition idle : session := {|
  retries := 0; attempts := []; timers := []; delays := [];
  socketWrites := []; socketDestroyed := false; upgrades := 0;
  relays := []; clientCloses := [] |}.

Definition setAttempts (l : list attempt) (st : session) : session := {|
  retries := retries st; attempts := l; timers := timers st;
  delays := delays st; socketWrites := socketWrites st;
  socketDestroyed := socketDestroyed st; upgrades := upgrades st;
  relays := relays st; clientCloses := clientCloses st |}.

Definition setAttempt (i : nat) (a : attempt) (st : session) : session :=
  setAttempts (<[i := a]> (attempts st)) st.

(** [socket.write(line)] *)
Definition write (line : string) (st : session) : session := {|
  retries := retries st; attempts := attempts st; timers := timers st;
  delays := delays st; socketWrites := socketWrites st ++ [line];
  socketDestroyed := socketDestroyed st; upgrades := upgrades st;
  relays := relays st; clientCloses := clientCloses st |}.

(** [socket.destroy()] *)
Definition destroy (st : session) : session := {|
  retries := retries st; attempts := attempts st; timers := timers st;
  delays := delays st; socketWrites := socketWrites st;
  socketDestroyed := true; upgrades := upgrades st;
  relays := relays st; clientCloses := clientCloses st |}.

Section Handlers.

Variable this : WebSocketProxy.

(** [retries++; setTimeout(() => attemptConnection(), this.retryDelay * retries)] *)
Definition scheduleRetry (st : session) : session :=
  let retries' := S (retries st) in
  let delay := (retryDelay this * Z.of_nat retries')%Z in
  {| retries := retries'; attempts := attempts st;
     timers := timers st ++ [delay]; delays := delays st ++ [delay];
     socketWrites := socketWrites st;
     socketDestroyed := socketDestroyed st; upgrades := upgrades st;
     relays := relays st; clientCloses := clientCloses st |}.

(** One call of [attemptConnection]. [throws] tells whether the body of
    its [try] raises (building the URL or constructing the socket)
    before any handler is registered. *)
Definition attemptConnection (throws : bool) (st : session) : session :=
  if throws then
    if (retries st <? maxRetries this)%nat then scheduleRetry st
    else destroy (write BadGateway st)
  else setAttempts (attempts st ++ [newAttempt]) st.

(** [handleWebSocketUpgrade(request, socket, head, targetUrl)] *)
Definition handleWebSocketUpgrade (throws : bool) : session :=
  attemptConnection throws idle.

(** The 'upgrade' listener installed by [setupWebSocketUpgrade]. *)
Definition onUpgrade (req : request) (throws : bool) : session :=
  let targetUrl := getTargetForPath this (pathname req) in
  if negb (Js.truthyOpt targetUrl) then destroy (write NotFound idle)
  else handleWebSocketUpgrade throws.

(** The [connectionTimeout] callback of attempt [i]. *)
Definition onConnectionTimeout (i : nat) (st : session) : session :=
  match attempts st !! i with
  | None => st
  | Some a0 =>
      if negb (timeoutArmed a0) then st
      else
        let a := clearTimeout a0 in
        if negb (isUpgraded a) && negb (connectionClosed a) then
          let a := close a in
          if (retries st <? maxRetries this)%nat then
            scheduleRetry (setAttempt i a st)
          else
            setAttempt i (closeTarget a) (destroy (write GatewayTimeout st))
        else setAttempt i a st
  end.

(** How a call of [wss.handleUpgrade(request, socket, head, callback)]
    ends: [ws] completes the client handshake and calls back, before it
    returns, with the client socket open; or it gives the handshake up (a
    socket that is no longer readable and writable, as after the peer
    ended it, or a request that [ws] refuses) and destroys the socket
    without calling back; or the call raises. *)
Inductive handleUpgrade := Completes | Aborts | Raises.

(** [targetWs.on('open', ...)] of attempt [i], with the way
    [wss.handleUpgrade] ends. On a socket that this code has destroyed
    [ws] cannot complete the handshake. The callback passes the two
    sockets, as they are then, to [establishWebSocketProxy]. *)
Definition onTargetOpen (i : nat) (outcome : handleUpgrade) (st : session)
  : session :=
  match attempts st !! i with
  | None => st
  | Some a0 =>
      let a := targetReports OPEN false a0 in
      if connectionClosed a then setAttempt i a st
      else
        let a := clearTimeout a in
        if negb (isUpgraded a) then
          match outcome with
          | Raises => setAttempt i (closeTarget (close a)) (destroy st)
          | Aborts => setAttempt i a (destroy st)
          | Completes =>
              if socketDestroyed st then setAttempt i a st
              else
                let st' := setAttempt i (upgraded a) st in
                {| retries := retries st'; attempts := attempts st';
                   timers := timers st'; delays := delays st';
                   socketWrites := socketWrites st';
                   socketDestroyed := socketDestroyed st';
                   upgrades := S (upgrades st');
                   relays := relays st' ++
                     [{| byAttempt := i; clientArg := clientWs (upgraded a);
                         targetArg := Some (targetState a) |}];
                   clientCloses := clientCloses st' |}
          end
        else setAttempt i a st
  end.

Definition isAuthenticationError (e : error) : bool :=
  Js.includes (message e) "401" || Js.includes (message e) "403".

Definition isTemporaryError (e : error) : bool :=
  codeIs e "ECONNREFUSED" || codeIs e "ENOTFOUND" || codeIs e "ETIMEDOUT"
  || Js.includes (message e) "Unexpected server response".

(** [targetWs.on('error', ...)] of attempt [i]. *)
Definition onTargetError (i : nat) (e : error) (st : session) : session :=
  match attempts st !! i with
  | None => st
  | Some a0 =>
      let a := targetReports CLOSING true a0 in
      if connectionClosed a then setAttempt i a st
      else
        let a := clearTimeout a in
        if isAuthenticationError e then
          let a := close a in
          if negb (isUpgraded a) then
            setAttempt i a (destroy (write Unauthorized st))
          else setAttempt i a st
        else if isTemporaryError e && (retries st <? maxRetries this)%nat
                && negb (isUpgraded a) then
          scheduleRetry (setAttempt i a st)
        else
          let a := close a in
          if negb (isUpgraded a) then
            setAttempt i a (destroy (write BadGateway st))
          else
            match clientWs a with
            | Some OPEN =>
                let closeCode :=
                  if codeIs e "ECONNREFUSED" then 1006%Z else 1011%Z in
                let st' :=
                  setAttempt i
                    (clientClose closeCode "Target server connection error" a)
                    st in
                {| retries := retries st'; attempts := attempts st';
                   timers := timers st'; delays := delays st';
                   socketWrites := socketWrites st';
                   socketDestroyed := socketDestroyed st';
                   upgrades := upgrades st'; relays := relays st';
                   clientCloses := clientCloses st' ++
                     [(closeCode, "Target server connection error")] |}
            | _ => setAttempt i a st
            end
  end.

(** The [socket.on('error', ...)] listener one attempt registers. *)
Definition socketErrorListener (a : attempt) : attempt :=
  if connectionClosed a then a
  else closeTarget (close (clearTimeout a)).

(** An 'error' on the inbound socket: the socket is being destroyed and
    the listeners of all attempts run in registration order. *)
Definition onSocketError (st : session) : session :=
  setAttempts (socketErrorListener <$> attempts st) (destroy st).

(** The oldest pending retry timer fires. *)
Definition onRetryTimer (throws : bool) (st : session) : session :=
  match timers st with
  | [] => st
  | _ :: rest =>
      attemptConnection throws
        {| retries := retries st; attempts := attempts st; timers := rest;
           delays := delays st; socketWrites := socketWrites st;
           socketDestroyed := socketDestroyed st; upgrades := upgrades st;
           relays := relays st; clientCloses := clientCloses st |}
  end.

(** What can happen to a session after the upgrade request arrived. *)
Inductive event :=
| TargetOpen (i : nat) (outcome : handleUpgrade)
| TargetError (i : nat) (e : error)
| TargetClosed (i : nat)
| ClientClosed (i : nat)
| ConnectionTimeout (i : nat)
| SocketError
| RetryTimer (throws : bool).

Definition step (st : session) (ev : event) : session :=
  match ev with
  | TargetOpen i t => onTargetOpen i t st
  | TargetError i e => onTargetError i e st
  | TargetClosed i =>
      setAttempts (alter (targetReports CLOSED false) i (attempts st)) st
  | ClientClosed i =>
      setAttempts (alter (clientReports CLOSED) i (attempts st)) st
  | ConnectionTimeout i => onConnectionTimeout i st
  | SocketError => onSocketError st
  | RetryTimer t => onRetryTimer t st
  end.

Definition run (st : session) (tr : list event) : session :=
  foldl step st tr.

(** The contract of the [ws] client assumed of a trace: a socket that
    has emitted 'error' emits neither 'open' nor a further 'error'. *)
Definition admissible (st : session) (ev : event) : bool :=
  match ev with
  | TargetOpen i _ | TargetError i _ =>
      match attempts st !! i with
      | Some a => negb (targetErrored a)
      | None => true
      end
  | _ => true
  end.

Fixpoint wellFormed (st : session) (tr : list event) : bool :=
  match tr with
  | [] => true
  | ev :: rest => admissible st ev && wellFormed (step st ev) rest
  end.

End Handlers.

(** *** Vocabulary of the properties *)

(** An attempt whose listeners can still act: not closed, and its socket
    has not reported an error. *)
Definition live (a : attempt) : bool :=
  negb (connectionClosed a) && negb (targetErrored a).

Fixpoint liveCount (l : list attempt) : nat :=
  match l with
  | [] => 0
  | a :: rest => (if live a then 1 else 0) + liveCount rest
  end.

(** An attempt that is over: its timer is gone and it is closed. *)
Definition closed (a : attempt) : Prop :=
  timeoutArmed a = false ∧ connectionClosed a = true.

(** An attempt that is over or has failed with a retry: its timer is gone
    and it is closed or its socket has reported an error. *)
Definition spent (a : attempt) : Prop :=
  timeoutArmed a = false ∧ (connectionClosed a = true ∨ targetErrored a = true).

(** How an attempt fails before the upgrade: its socket reports an error,
    or its [connectionTimeout] fires. *)
Inductive failure :=
| Errored (e : error)
| TimedOut.

Definition failureEvent (n : nat) (f : failure) : event :=
  match f with
  | Errored e => TargetError n e
  | TimedOut => ConnectionTimeout n
  end.

(** The failure of attempt [n] followed by the retry timer, for [count]
    attempts from [first] on. *)
Definition failing (fails : nat → failure) (first count : nat) : list event :=
  flat_map (λ n, [failureEvent n (fails n); RetryTimer false]) (seq first count).

(** The line written when the failure finds no retry left. *)
Definition failureStatus (f : failure) : string :=
  match f with
  | Errored _ => BadGateway
  | TimedOut => GatewayTimeout
  end.

Definition linearBackoff (this : WebSocketProxy) (first count : nat) : list Z :=
  (λ n, (retryDelay this * Z.of_nat n)%Z) <$> seq first count.

Definition noRoutes : WebSocketProxy := {|
  routes := []; protocolMap := []; defaultTarget := None;
  connectionTimeout := 15000; maxRetries := 3; retryDelay := 1000 |}.

Definition requestFor (path_ : string) : request :=
  {| headers := ∅; pathname := path_; search := None |}.

Definition rejected401 : error :=
  {| code := None; message := "Unexpected server response: 401" |}.

(** An error the code retries: not taken for an authentication failure,
    and of the connection class. *)
Definition retryable (e : error) : Prop :=
  isAuthenticationError e = false ∧ isTemporaryError e = true.

Definition retryableFailure (f : failure) : Prop :=
  match f with
  | Errored e => retryable e
  | TimedOut => True
  end.

Definition refused : error :=
  {| code := Some "ECONNREFUSED";
     message := "connect ECONNREFUSED 127.0.0.1:8443" |}.


Definition twoRetries : WebSocketProxy := {|
  routes := []; protocolMap := [];
  defaultTarget := Some "ws://127.0.0.1:8443";
  connectionTimeout := 15000; maxRetries := 2; retryDelay := 1000 |}.


(** What holds in every state of a session whose events respect the [ws]
    contract: at most one attempt is live or waiting on a retry timer;
    only live attempts have a timer armed; there is at most one upgrade,
    with one relay session for it; and after the upgrade no retry is
    pending and the live attempt is the upgraded one. *)
Definition invariant (st : session) : Prop :=
  liveCount (attempts st) + length (timers st) ≤ 1
  ∧ Forall (λ a, timeoutArmed a = true → live a = true) (attempts st)
  ∧ upgrades st ≤ 1
  ∧ length (relays st) = upgrades st
  ∧ (upgrades st = 1 →
       timers st = []
       ∧ Forall (λ a, live a = true → isUpgraded a = true) (attempts st)).

(** A reset connection: an error the code neither takes for an
    authentication failure nor counts among the temporary ones. *)
Definition hangUp : error :=
  {| code := Some "ECONNRESET"; message := "socket hang up" |}.

(** What holds in every state of a session, whatever the events: no more
    retries than [maxRetries], scheduled with linear backoff, and one
    attempt, made or scheduled, for the request and for each retry. *)
Definition withinBudget (this : WebSocketProxy) (st : session) : Prop :=
  retries st ≤ maxRetries this
  ∧ delays st = linearBackoff this 1 (retries st)
  ∧ length (attempts st) + length (timers st) ≤ S (retries st).

(** A session that has answered the request with a status line: the
    socket is destroyed, no attempt is live, no retry is pending and there
    was no upgrade. *)
Definition answered (st : session) : Prop :=
  length (socketWrites st) = 1
  ∧ socketDestroyed st = true
  ∧ liveCount (attempts st) = 0
  ∧ timers st = []
  ∧ upgrades st = 0.

End Upgrade.

(** ** Buffers and their text conversion *)

Definition Buffer := list Byte.byte.

Module Utf8.

(** [Buffer.prototype.toString()] decodes UTF-8 and replaces every
    ill-formed sequence by U+FFFD; sending the resulting string puts its
    UTF-8 encoding on the wire. The decoder is the one of the Encoding
    standard, which Node follows. *)
Record decoder := {
  codePoint : Z;
  bytesNeeded : nat;
  lower : Z;
  upper : Z
}.

Definition start : decoder :=
  {| codePoint := 0; bytesNeeded := 0; lower := 0x80; upper := 0xBF |}.

Definition REPLACEMENT : Z := 0xFFFD.

(** A byte read while no sequence is in progress. *)
Definition lead (b : Z) : list Z * decoder :=
  if (b <=? 0x7F)%Z then ([b], start)
  else if (0xC2 <=? b)%Z && (b <=? 0xDF)%Z then
    ([], {| codePoint := Z.land b 0x1F; bytesNeeded := 1;
            lower := 0x80; upper := 0xBF |})
  else if (0xE0 <=? b)%Z && (b <=? 0xEF)%Z then
    ([], {| codePoint := Z.land b 0xF; bytesNeeded := 2;
            lower := if (b =? 0xE0)%Z then 0xA0 else 0x80;
            upper := if (b =? 0xED)%Z then 0x9F else 0xBF |})
  else if (0xF0 <=? b)%Z && (b <=? 0xF4)%Z then
    ([], {| codePoint := Z.land b 0x7; bytesNeeded := 3;
            lower := if (b =? 0xF0)%Z then 0x90 else 0x80;
            upper := if (b =? 0xF4)%Z then 0x8F else 0xBF |})
  else ([REPLACEMENT], start).

Definition feed (d : decoder) (b : Z) : list Z * decoder :=
  match bytesNeeded d with
  | O => lead b
  | S n =>
      if (lower d <=? b)%Z && (b <=? upper d)%Z then
        let cp := Z.lor (Z.shiftl (codePoint d) 6) (Z.land b 0x3F) in
        match n with
        | O => ([cp], start)
        | S _ => ([], {| codePoint := cp; bytesNeeded := n;
                         lower := 0x80; upper := 0xBF |})
        end
      else
        let (out, d') := lead b in (REPLACEMENT :: out, d')
  end.

Fixpoint decodeFrom (d : decoder) (bs : list Z) : list Z :=
  match bs with
  | [] => match bytesNeeded d with O => [] | S _ => [REPLACEMENT] end
  | b :: rest => let (out, d') := feed d b in out ++ decodeFrom d' rest
  end.

Definition encodeCodePoint (c : Z) : list Z :=
  if (c <=? 0x7F)%Z then [c]
  else if (c <=? 0x7FF)%Z then
    [Z.lor 0xC0 (Z.shiftr c 6); Z.lor 0x80 (Z.land c 0x3F)]
  else if (c <=? 0xFFFF)%Z then
    [Z.lor 0xE0 (Z.shiftr c 12);
     Z.lor 0x80 (Z.land (Z.shiftr c 6) 0x3F);
     Z.lor 0x80 (Z.land c 0x3F)]
  else
    [Z.lor 0xF0 (Z.shiftr c 18);
     Z.lor 0x80 (Z.land (Z.shiftr c 12) 0x3F);
     Z.lor 0x80 (Z.land (Z.shiftr c 6) 0x3F);
     Z.lor 0x80 (Z.land c 0x3F)].

Definition byteOfZ (z : Z) : Byte.byte :=
  match Byte.of_N (Z.to_N z) with
  | Some b => b
  | None => Byte.x00
  end.

Definition ZOfByte (b : Byte.byte) : Z := Z.of_N (Byte.to_N b).

(** The payload of the text frame sent by [to.send(data.toString())]. *)
Definition toString (data : Buffer) : Buffer :=
  byteOfZ <$> (decodeFrom start (ZOfByte <$> data) ≫= encodeCodePoint).

(** A buffer of bytes below 0x80 only. *)
Definition isAscii (data : Buffer) : bool :=
  forallb (λ b, (ZOfByte b <=? 0x7F)%Z) data.

(** A Unicode scalar value: a code point that is not a surrogate. *)
Definition isScalar (c : Z) : bool :=
  (0 <=? c)%Z && (c <=? 0x10FFFF)%Z
  && negb ((0xD800 <=? c)%Z && (c <=? 0xDFFF)%Z).

(** The UTF-8 encoding of a text, given by its scalar values. *)
Definition encode (text : list Z) : Buffer :=
  byteOfZ <$> (text ≫= encodeCodePoint).

End Utf8.

(** ** Relay session *)

Module Relay.

Inductive side := Client | Target.

Definition other (s : side) : side :=
  match s with Client => Target | Target => Client end.

(** One of the two [ws] sockets, with what the session did to it. *)
Record peer := {
  state : readyState;
  sent : list Buffer;
  closeCalls : list (Z * string);
  pings : nat
}.

Definition send (data : Buffer) (p : peer) : peer := {|
  state := state p; sent := sent p ++ [data];
  closeCalls := closeCalls p; pings := pings p |}.

(** [p.close(code, reason)] on an open socket: it starts closing, unless
    [ws] refuses the arguments, in which case the call raises, no close
    frame is sent, and the socket is held as it was; the theorems below
    assert nothing of the state of a socket after a refused call.
    [closeCalls] holds every call, refused or not. *)
Definition closeWith (c : Z) (reason : string) (p : peer) : peer := {|
  state := if Ws.closeRaises c reason then state p else CLOSING;
  sent := sent p;
  closeCalls := closeCalls p ++ [(c, reason)]; pings := pings p |}.

(** A [close] call that [ws] accepted: it did not raise. *)
Definition accepted (call : Z * string) : bool :=
  negb (Ws.closeRaises call.1 call.2).

Definition ping (p : peer) : peer := {|
  state := state p; sent := sent p;
  closeCalls := closeCalls p; pings := S (pings p) |}.

Definition reports (rs : readyState) (p : peer) : peer := {|
  state := rs; sent := sent p;
  closeCalls := closeCalls p; pings := pings p |}.

Definition isOpen (p : peer) : bool := readyState_eqb (state p) OPEN.

(** The [reason] argument of a 'close' event: a string up to [ws] 7, a
    Buffer from [ws] 8 on. *)
Inductive closeReason :=
| undefined
| text (s : string)
| bytes (s : string).

(** [reason ? reason.toString() : 'no reason']: an object is truthy, a
    string only when it is not empty. *)
Definition reasonStr (reason : closeReason) : string :=
  match reason with
  | undefined => "no reason"
  | text s => if Js.truthy s then s else "no reason"
  | bytes s => s
  end.

(** [code || 1000] *)
Definition codeOr1000 (c : Z) : Z := if (c =? 0)%Z then 1000%Z else c.

(** The argument of [cleanup]. *)
Inductive cause :=
| closedBy (s : side) (c : Z) (reason : string)
| errorOn (s : side) (msg : string)
| sendError (msg : string).

Inductive logEntry :=
| LogCleanup (why : cause) (duration : Z) (toTarget fromTarget : nat)
| LogCannotForward (from : side) (destination : readyState)
| LogForwarded (from : side) (data : Buffer)
| LogForwardError (from : side) (msg : string)
| LogClosed (s : side) (c : Z) (reason : string)
| LogCloseCodeHint (c : Z)
| LogError (s : side) (msg : string)
| LogPingError (s : side)
| LogEstablished.

Definition isCleanup (l : logEntry) : bool :=
  match l with LogCleanup _ _ _ _ => true | _ => false end.

(** The variables [establishWebSocketProxy] closes over. *)
Record relay := {
  isProxyActive : bool;
  clientToTarget : nat;
  targetToClient : nat;
  startTime : Z;
  client : peer;
  target : peer;
  pingInterval : bool;      (* set and not yet cleared *)
  log : list logEntry
}.

Definition peerOf (s : side) (r : relay) : peer :=
  match s with Client => client r | Target => target r end.

Definition setPeer (s : side) (p : peer) (r : relay) : relay :=
  match s with
  | Client => {|
      isProxyActive := isProxyActive r; clientToTarget := clientToTarget r;
      targetToClient := targetToClient r; startTime := startTime r;
      client := p; target := target r; pingInterval := pingInterval r;
      log := log r |}
  | Target => {|
      isProxyActive := isProxyActive r; clientToTarget := clientToTarget r;
      targetToClient := targetToClient r; startTime := startTime r;
      client := client r; target := p; pingInterval := pingInterval r;
      log := log r |}
  end.

Definition addLog (l : logEntry) (r : relay) : relay := {|
  isProxyActive := isProxyActive r; clientToTarget := clientToTarget r;
  targetToClient := targetToClient r; startTime := startTime r;
  client := client r; target := target r; pingInterval := pingInterval r;
  log := log r ++ [l] |}.

(** [messageCount[direction === 'client→target' ? 'clientToTarget' : 'targetToClient']++] *)
Definition count (from : side) (r : relay) : relay := {|
  isProxyActive := isProxyActive r;
  clientToTarget :=
    match from with Client => S (clientToTarget r) | Target => clientToTarget r end;
  targetToClient :=
    match from with Client => targetToClient r | Target => S (targetToClient r) end;
  startTime := startTime r; client := client r; target := target r;
  pingInterval := pingInterval r; log := log r |}.

Definition deactivate (r : relay) : relay := {|
  isProxyActive := false; clientToTarget := clientToTarget r;
  targetToClient := targetToClient r; startTime := startTime r;
  client := client r; target := target r; pingInterval := pingInterval r;
  log := log r |}.

Definition clearInterval (r : relay) : relay := {|
  isProxyActive := isProxyActive r; clientToTarget := clientToTarget r;
  targetToClient := targetToClient r; startTime := startTime r;
  client := client r; target := target r; pingInterval := false;
  log := log r |}.

Definition freshPeer (rs : readyState) : peer :=
  {| state := rs; sent := []; closeCalls := []; pings := 0 |}.

(** [establishWebSocketProxy(clientWs, targetWs, pathname)] called at time
    [now] with sockets in the given states ([None] is a null socket);
    [None] is the early return that sets nothing up. *)
Definition establishWebSocketProxy (now : Z)
    (clientWs targetWs : option readyState) : option relay :=
  match clientWs, targetWs with
  | Some c, Some t =>
      if readyState_eqb c CLOSED || readyState_eqb t CLOSED then None
      else Some {|
        isProxyActive := true; clientToTarget := 0; targetToClient := 0;
        startTime := now; client := freshPeer c; target := freshPeer t;
        pingInterval := true; log := [LogEstablished] |}
  | _, _ => None
  end.

(** [cleanup(reason)] at time [now] *)
Definition cleanup (now : Z) (why : cause) (r : relay) : relay :=
  if isProxyActive r then
    deactivate
      (addLog (LogCleanup why (now - startTime r)
                 (clientToTarget r) (targetToClient r)) r)
  else r.

(** [if (p && p.readyState === WebSocket.OPEN) p.close(code, reason)] *)
Definition closeIfOpen (s : side) (c : Z) (reason : string) (r : relay)
  : relay :=
  if isOpen (peerOf s r) then setPeer s (closeWith c reason (peerOf s r)) r
  else r.

Section ForwardMessage.

(** What is handed to [to.send]: the routed proxy passes [data] itself,
    the single-target proxy [data.toString()]. *)
Variable outgoing : Buffer -> Buffer.

(** [forwardMessage(from, to, data, direction)], where [to] is the
    other side and [thrown] is the error [to.send] raises, if any. *)
Definition forwardMessageWith (now : Z) (from : side) (data : Buffer)
    (thrown : option error) (r : relay) : relay :=
  if negb (isProxyActive r) then r
  else
    let to := other from in
    if negb (isOpen (peerOf to r)) then
      addLog (LogCannotForward from (state (peerOf to r))) r
    else
      match thrown with
      | None =>
          addLog (LogForwarded from data)
            (count from (setPeer to (send (outgoing data) (peerOf to r)) r))
      | Some e =>
          let r := addLog (LogForwardError from (message e)) r in
          if codeIs e "EPIPE" || Js.includes (message e) "not connected" then
            closeIfOpen from 1006 "Connection lost"
              (cleanup now (sendError (message e)) r)
          else r
      end.

End ForwardMessage.

(** [WebSocketProxy]: [to.send(data)] *)
Definition forwardMessage := forwardMessageWith (fun data => data).

(** The 'close' listeners. *)
Definition onClose (now : Z) (s : side) (c : Z) (reason : closeReason)
    (r : relay) : relay :=
  let reason_ := reasonStr reason in
  let r := addLog (LogClosed s c reason_) r in
  let r :=
    match s with
    | Target =>
        if (c =? 1011)%Z || (c =? 1002)%Z || (c =? 1003)%Z
        then addLog (LogCloseCodeHint c) r else r
    | Client => r
    end in
  let r := cleanup now (closedBy s c reason_) r in
  closeIfOpen (other s) (codeOr1000 c) reason_ r.

(** The 'error' listeners. *)
Definition onError (now : Z) (s : side) (e : error) (r : relay) : relay :=
  let r := addLog (LogError s (message e)) r in
  let r := cleanup now (errorOn s (message e)) r in
  match s with
  | Client => closeIfOpen Target 1011 "Client connection error" r
  | Target =>
      let closeCode :=
        if codeIs e "ECONNRESET" then 1006%Z
        else if codeIs e "ETIMEDOUT" then 1001%Z
        else 1011%Z in
      closeIfOpen Client closeCode ("Target error: " +:+ message e) r
  end.

(** [if (p && p.readyState === WebSocket.OPEN) try { p.ping() } catch ...] *)
Definition pingIfOpen (s : side) (throws : bool) (r : relay) : relay :=
  if isOpen (peerOf s r) then
    let r := setPeer s (ping (peerOf s r)) r in
    if throws then addLog (LogPingError s) r else r
  else r.

(** The [setInterval] callback. A cleared interval does not fire. *)
Definition onPingInterval (targetThrows clientThrows : bool) (r : relay)
  : relay :=
  if negb (pingInterval r) then r
  else if negb (isProxyActive r) then clearInterval r
  else pingIfOpen Client clientThrows (pingIfOpen Target targetThrows r).

Inductive event :=
| Message (from : side) (data : Buffer) (thrown : option error)
| Close (s : side) (c : Z) (reason : closeReason)
| Error (s : side) (e : error)
| PingInterval (targetThrows clientThrows : bool)
| Closing (s : side).

Definition closing (p : peer) : peer :=
  reports (if readyState_eqb (state p) CLOSED then CLOSED else CLOSING) p.

(** One event at time [now]. Before 'close' is emitted the socket is
    CLOSED, before 'error' it is at least CLOSING; [Closing] is a socket
    entering its closing handshake, which runs no listener. *)
Definition step (r : relay) (ev : Z * event) : relay :=
  let (now, e) := ev in
  match e with
  | Message from data thrown => forwardMessage now from data thrown r
  | Close s c reason =>
      onClose now s c reason (setPeer s (reports CLOSED (peerOf s r)) r)
  | Error s e => onError now s e (setPeer s (closing (peerOf s r)) r)
  | PingInterval t c => onPingInterval t c r
  | Closing s => setPeer s (closing (peerOf s r)) r
  end.

Definition run (r : relay) (tr : list (Z * event)) : relay := foldl step r tr.

(** *** Vocabulary of the properties *)

(** The states a session goes through: from its construction on, any
    sequence of events. *)
Definition reachable (r : relay) : Prop :=
  ∃ now clientWs targetWs r0 tr,
    establishWebSocketProxy now clientWs targetWs = Some r0 ∧ r = run r0 tr.

Definition cleanups (r : relay) : nat := length (filter (λ l, isCleanup l = true) (log r)).

(** The payloads of the messages received from one side, in order. *)
Fixpoint received (from : side) (tr : list (Z * event)) : list Buffer :=
  match tr with
  | [] => []
  | (_, Message from' data _) :: rest =>
      match from, from' with
      | Client, Client | Target, Target => data :: received from rest
      | _, _ => received from rest
      end
  | _ :: rest => received from rest
  end.

(** A trace of messages only, each handed over by [send] without error. *)
Definition onlyMessages (tr : list (Z * event)) : bool :=
  forallb (λ ev, match snd ev with Message _ _ None => true | _ => false end) tr.

Definition established : relay :=
  {| isProxyActive := true; clientToTarget := 0; targetToClient := 0;
     startTime := 0; client := freshPeer OPEN; target := freshPeer OPEN;
     pingInterval := true; log := [LogEstablished] |}.

(** Invariants of every state of a session. *)
Definition invariant (r : relay) : Prop :=
  (isProxyActive r = true → pingInterval r = true)
  ∧ cleanups r = (if isProxyActive r then 0 else 1).

Definition m1 : Buffer := [Byte.x6d; Byte.x31].
Definition m2 : Buffer := [Byte.xff; Byte.x00].
Definition m3 : Buffer := [Byte.x6d; Byte.x33].

(** [ws] has accepted at most one [close] call on the socket, and none
    while the socket is still open. *)
Definition closedOnce (p : peer) : Prop :=
  length (filter (λ call, accepted call = true) (closeCalls p)) ≤ 1
  ∧ (isOpen p = true → Forall (λ call, accepted call = false) (closeCalls p)).

(** The counters are the numbers of payloads handed to [send], and a
    cleanup entry of the log, which only an inactive session has, shows
    the counters as they are. *)
Definition accounted (r : relay) : Prop :=
  clientToTarget r = length (sent (target r))
  ∧ targetToClient r = length (sent (client r))
  ∧ ∀ why duration toTarget fromTarget,
      LogCleanup why duration toTarget fromTarget ∈ log r →
      isProxyActive r = false
      ∧ toTarget = clientToTarget r ∧ fromTarget = targetToClient r.

(** The send errors that [forwardMessage] takes for a lost connection. *)
Definition connectionLost (e : error) : bool :=
  codeIs e "EPIPE" || Js.includes (message e) "not connected".

Definition brokenPipe : error :=
  {| code := Some "EPIPE"; message := "write EPIPE" |}.

Definition connectionReset : error :=
  {| code := Some "ECONNRESET"; message := "read ECONNRESET" |}.

End Relay.

(** ** An upgraded session: the listeners of both engines *)

Module Established.


(** A [close] the orchestrator called on the client socket, as the relay
    session sees it on the same socket. *)
Definition clientClosed (r : Relay.relay) (call : Z * string) : Relay.relay :=
  Relay.setPeer Relay.Client
    (Relay.closeWith call.1 call.2 (Relay.client r)) r.

(** An 'error' of the outbound socket of attempt [i] after it upgraded the
    client. The socket has two 'error' listeners, which run in the order
    they were registered: the one of [attemptConnection], then the one of
    [establishWebSocketProxy]; what the first does to the client socket
    the second finds done, and when a [close] call of the first raises,
    the second does not run. *)
Definition onTargetError (this : WebSocketProxy) (now : Z) (i : nat)
    (e : error) (st : Upgrade.session) (r : Relay.relay)
  : Upgrade.session * Relay.relay :=
  let st' := Upgrade.onTargetError this i e st in
  let calls :=
    drop (length (Upgrade.clientCloses st)) (Upgrade.clientCloses st') in
  let r :=
    Relay.setPeer Relay.Target (Relay.closing (Relay.target r)) r in
  let r := foldl clientClosed r calls in
  if forallb Relay.accepted calls
  then (st', Relay.onError now Relay.Target e r)
  else (st', r).

End Established.

(** ** Configuration loader *)

Module ConfigLoader.

(** The values a loaded configuration holds. Numbers are the integers of
    a magnitude up to 2^53, which a double represents exactly and a
    template literal prints with all their digits; [Obj] is any object,
    array or date, with the text a template literal prints for it. *)
Inductive value :=
| Null
| Bool (b : bool)
| Num (n : Z)
| Str (s : string)
| Obj (printed : string).

Definition truthy (v : value) : bool :=
  match v with
  | Null => false
  | Bool b => b
  | Num n => negb (n =? 0)%Z
  | Str s => Js.truthy s
  | Obj _ => true
  end.

(** How a template literal prints a value. *)
Definition show (v : value) : string :=
  match v with
  | Null => "null"
  | Bool true => "true"
  | Bool false => "false"
  | Num n => pretty n
  | Str s => s
  | Obj printed => printed
  end.

(** [c[key]] read as a condition, in a configuration object; a property
    it does not have reads as [undefined]. *)
Definition truthyAt (c : gmap string value) (key : string) : bool :=
  match c !! key with
  | Some v => truthy v
  | None => false
  end.

Definition showAt (c : gmap string value) (key : string) : string :=
  match c !! key with
  | Some v => show v
  | None => "undefined"
  end.

Definition defaults : gmap string value :=
  {[ "port" := Num 8080; "domain" := Null; "secure" := Bool true;
     "connectionTimeout" := Num 15000 ]}.

(** [buildTargetUrls(config)] *)
Definition buildTargetUrls (c : gmap string value) : gmap string value :=
  if negb (truthyAt c "domain") then
    <["wsTarget" := Null]> (<["httpTarget" := Null]> c)
  else
    let httpProtocol := if truthyAt c "secure" then "https" else "http" in
    let wsProtocol := if truthyAt c "secure" then "wss" else "ws" in
    <["wsTarget" := Str (wsProtocol +:+ "://" +:+ showAt c "domain")]>
      (<["httpTarget" := Str (httpProtocol +:+ "://" +:+ showAt c "domain")]> c).

(** What [loadConfig] finds at [configPath]: no file; a file that cannot
    be read or parsed (the [catch] branch); or a document, given by the own
    enumerable properties of what [yaml.load] returns, which are what the
    object spread copies (none for an empty document or a scalar). *)
Inductive file :=
| Missing
| Unreadable
| Loaded (document : gmap string value).

(** [loadConfig(configPath)]; in [{ ...defaults, ...config }] the
    properties of the document win. *)
Definition loadConfig (f : file) : gmap string value :=
  match f with
  | Missing => buildTargetUrls defaults
  | Unreadable => buildTargetUrls defaults
  | Loaded document => buildTargetUrls (document ∪ defaults)
  end.

(** *** Vocabulary of the properties *)

Definition targetKeys : list string := ["httpTarget"; "wsTarget"].

Definition aionDomain : gmap string value :=
  {[ "domain" := Str "api.aion.to"; "wsTarget" := Str "ws://elsewhere" ]}.

End ConfigLoader.

(** ** The message path of the single-target [Proxy] class *)

Module Proxy.

(** [Proxy.establishWebSocketProxy]'s [forwardMessage]:
    [to.send(data.toString())], otherwise as in [WebSocketProxy]. *)
Definition forwardMessage := Relay.forwardMessageWith Utf8.toString.

(** *** The upgrade path of the single-target [Proxy] class *)

(** The proxy object, as far as the upgrade path reads it; a [wsTarget]
    of [None] is [null]. *)
Record t := {
  wsTarget : option string;
  connectionTimeout : Z;
  maxRetries : nat;
  retryDelay : Z
}.

(** [config.x || d] where the option is a number or is not given; [None]
    is a configuration that holds another truthy value there. *)
Definition numberOr (v : option ConfigLoader.value) (d : Z) : option Z :=
  match v with
  | Some (ConfigLoader.Num n) => Some (if (n =? 0)%Z then d else n)
  | Some other => if ConfigLoader.truthy other then None else Some d
  | None => Some d
  end.

(** [config.wsTarget] where it is a string or null, as [loadConfig]
    leaves it. *)
Definition targetOf (v : option ConfigLoader.value)
  : option (option string) :=
  match v with
  | Some (ConfigLoader.Str s) => Some (Some s)
  | Some ConfigLoader.Null => Some None
  | _ => None
  end.

(** [new Proxy(config)] for a configuration as [loadConfig] returns it,
    with numbers for the numeric options it holds; [None] otherwise.
    [retries < this.maxRetries] never holds for a negative [maxRetries],
    which is read as 0. *)
Definition new_Proxy (c : gmap string ConfigLoader.value) : option t :=
  target ← targetOf (c !! "wsTarget");
  timeout ← numberOr (c !! "connectionTimeout") 15000;
  retries ← numberOr (c !! "maxRetries") 3;
  delay ← numberOr (c !! "retryDelay") 1000;
  Some {| wsTarget := target; connectionTimeout := timeout;
          maxRetries := Z.to_nat retries; retryDelay := delay |}.

(** [handleWebSocketUpgrade] of this class has the attempt, timeout,
    'open', 'error' and socket 'error' code of [WebSocketProxy] word for
    word; what that code reads of the object is collected here. *)
Definition engine (this : t) : WebSocketProxy :=
  Build_WebSocketProxy [] [] (wsTarget this)
    (connectionTimeout this) (maxRetries this) (retryDelay this).

(** The 'upgrade' listener installed by [setupWebSocketUpgrade]. *)
Definition onUpgrade (this : t) (throws : bool) : Upgrade.session :=
  if negb (Js.truthyOpt (wsTarget this))
  then Upgrade.destroy (Upgrade.write BadGateway Upgrade.idle)
  else Upgrade.handleWebSocketUpgrade (engine this) throws.

(** [buildTargetWebSocketUrl(pathname, queryString = '')] *)
Definition buildTargetWebSocketUrl (this : t) (pathname queryString : string)
  : string :=
  Js.show (wsTarget this) +:+ pathname +:+ queryString.

(** The URL an attempt connects to:
    [buildTargetWebSocketUrl(parsedUrl.pathname, parsedUrl.search || '')]. *)
Definition targetWsUrl (this : t) (req : request) : string :=
  buildTargetWebSocketUrl this (pathname req)
    (Js.show (Js.or (search req) (Some ""))).

(** [getProxyHeaders(request)] *)
Definition getProxyHeaders (req : request) : gmap string string :=
  let headers0 := foldl (forwardHeader (headers req)) ∅ headersToForward in
  <["upgrade" := "websocket"]>
    (<["connection" := "Upgrade"]>
      (<["sec-websocket-version" := "13"]> headers0)).

(** The subprotocol argument of [new WebSocket]: the client's, if any. *)
Definition clientProtocol (req : request) : option string :=
  forwarded req "sec-websocket-protocol".

Definition tokenRequest : request :=
  {| headers := ∅; pathname := "/ws/graphql"; search := Some "?token=t" |}.

End Proxy.

(** ** The proxy class without retries *)

(** The second [Proxy] class of the repository: one outbound attempt per
    upgrade request and a relay with a single message counter. *)
Module BasicProxy.

Record t := {
  wsTarget : option string;
  connectionTimeout : Z
}.

Definition forwardHeaders : list string :=
  [ "authorization"; "cookie"; "user-agent"; "sec-websocket-protocol";
    "origin" ].

(** [getProxyHeaders(request)] *)
Definition getProxyHeaders (req : request) : gmap string string :=
  foldl (forwardHeader (headers req)) ∅ forwardHeaders.

(** [`${this.wsTarget}${parsedUrl.pathname || ''}${parsedUrl.search || ''}`] *)
Definition targetWsUrl (this : t) (req : request) : string :=
  Js.show (wsTarget this)
  +:+ Js.show (Js.or (Some (pathname req)) (Some ""))
  +:+ Js.show (Js.or (search req) (Some "")).

(** One upgrade request: the outbound socket with its timer and the
    inbound socket. [listening] tells whether the body of the [try]
    reached the end, registering the listeners. *)
Record handshake := {
  listening : bool;
  targetState : readyState;
  timeoutArmed : bool;
  terminateCalls : nat;
  targetCloseCalls : nat;
  socketWrites : list string;
  socketDestroyed : bool;
  proxies : nat            (* [establishProxy] calls *)
}.

Definition refused : handshake := {|
  listening := false; targetState := CLOSED; timeoutArmed := false;
  terminateCalls := 0; targetCloseCalls := 0;
  socketWrites := [BadGateway]; socketDestroyed := true; proxies := 0 |}.

(** [handleWebSocketUpgrade(request, socket, head)]; [throws] tells
    whether the body of the [try] raises, which it can only do before the
    timer is set; the [catch] then finds the socket not destroyed. *)
Definition handleWebSocketUpgrade (throws : bool) : handshake :=
  if throws then refused
  else {|
    listening := true; targetState := CONNECTING; timeoutArmed := true;
    terminateCalls := 0; targetCloseCalls := 0;
    socketWrites := []; socketDestroyed := false; proxies := 0 |}.

(** The 'upgrade' listener installed by [setupWebSocketUpgrade]. *)
Definition onUpgrade (this : t) (throws : bool) : handshake :=
  if negb (Js.truthyOpt (wsTarget this)) then refused
  else handleWebSocketUpgrade throws.

Definition clearTimeout (h : handshake) : handshake := {|
  listening := listening h; targetState := targetState h;
  timeoutArmed := false;
  terminateCalls := terminateCalls h; targetCloseCalls := targetCloseCalls h;
  socketWrites := socketWrites h; socketDestroyed := socketDestroyed h;
  proxies := proxies h |}.

Definition targetReports (rs : readyState) (h : handshake) : handshake := {|
  listening := listening h; targetState := rs;
  timeoutArmed := timeoutArmed h;
  terminateCalls := terminateCalls h; targetCloseCalls := targetCloseCalls h;
  socketWrites := socketWrites h; socketDestroyed := socketDestroyed h;
  proxies := proxies h |}.

(** [socket.write(line); socket.destroy()] *)
Definition answer (line : string) (h : handshake) : handshake := {|
  listening := listening h; targetState := targetState h;
  timeoutArmed := timeoutArmed h;
  terminateCalls := terminateCalls h; targetCloseCalls := targetCloseCalls h;
  socketWrites := socketWrites h ++ [line]; socketDestroyed := true;
  proxies := proxies h |}.

(** The [timeout] callback. *)
Definition onTimeout (h : handshake) : handshake :=
  if negb (timeoutArmed h) then h
  else
    let h := clearTimeout h in
    if readyState_eqb (targetState h) CONNECTING then
      answer GatewayTimeout
        {| listening := listening h; targetState := CLOSING;
           timeoutArmed := timeoutArmed h;
           terminateCalls := S (terminateCalls h);
           targetCloseCalls := targetCloseCalls h;
           socketWrites := socketWrites h;
           socketDestroyed := socketDestroyed h; proxies := proxies h |}
    else h.

(** [targetWs.on('open', ...)]: [wss.handleUpgrade] calls back unless the
    inbound socket is destroyed. An exception of [handleUpgrade], which
    nothing catches here, is not modelled. *)
Definition onTargetOpen (h : handshake) : handshake :=
  let h := clearTimeout (targetReports OPEN h) in
  if socketDestroyed h then h
  else {|
    listening := listening h; targetState := targetState h;
    timeoutArmed := timeoutArmed h;
    terminateCalls := terminateCalls h;
    targetCloseCalls := targetCloseCalls h;
    socketWrites := socketWrites h; socketDestroyed := socketDestroyed h;
    proxies := S (proxies h) |}.

(** [targetWs.on('error', ...)] *)
Definition onTargetError (e : error) (h : handshake) : handshake :=
  let h :=
    clearTimeout
      (targetReports
         (if readyState_eqb (targetState h) CLOSED then CLOSED else CLOSING) h) in
  if negb (socketDestroyed h) then
    answer
      (if Js.includes (message e) "401" || Js.includes (message e) "403"
       then Unauthorized else BadGateway) h
  else h.

(** [socket.on('error', ...)]: the socket is being destroyed. *)
Definition onSocketError (h : handshake) : handshake :=
  let h := clearTimeout h in
  let h := {|
    listening := listening h; targetState := targetState h;
    timeoutArmed := timeoutArmed h;
    terminateCalls := terminateCalls h;
    targetCloseCalls := targetCloseCalls h;
    socketWrites := socketWrites h; socketDestroyed := true;
    proxies := proxies h |} in
  if readyState_eqb (targetState h) CLOSED then h
  else {|
    listening := listening h; targetState := CLOSING;
    timeoutArmed := timeoutArmed h;
    terminateCalls := terminateCalls h;
    targetCloseCalls := S (targetCloseCalls h);
    socketWrites := socketWrites h; socketDestroyed := socketDestroyed h;
    proxies := proxies h |}.

Inductive event :=
| TargetOpen
| TargetError (e : error)
| TargetClosed
| Timeout
| SocketError.

(** A request whose [try] body raised has no listener and no timer. *)
Definition step (h : handshake) (ev : event) : handshake :=
  if negb (listening h) then h
  else
    match ev with
    | TargetOpen => onTargetOpen h
    | TargetError e => onTargetError e h
    | TargetClosed => targetReports CLOSED h
    | Timeout => onTimeout h
    | SocketError => onSocketError h
    end.

Definition run (h : handshake) (tr : list event) : handshake :=
  foldl step h tr.

(** *** The relay of this class *)

(** The arguments of a [close] call: none, or the code and the reason of
    the 'close' event as they came. *)
Inductive closeCall :=
| closeNoArgs
| closeArgs (c : Z) (reason : Relay.closeReason).

Record socket := {
  state : readyState;
  sent : list Buffer;
  closeCalls : list closeCall;
  pings : nat
}.

Definition isOpen (p : socket) : bool := readyState_eqb (state p) OPEN.

Definition send (data : Buffer) (p : socket) : socket := {|
  state := state p; sent := sent p ++ [data];
  closeCalls := closeCalls p; pings := pings p |}.

(** The bytes of a reason handed to [close], none for [undefined]. *)
Definition reasonBytes (reason : Relay.closeReason) : string :=
  match reason with
  | Relay.undefined => ""
  | Relay.text s => s
  | Relay.bytes s => s
  end.

(** Whether [ws] refuses the call and raises; [close()] it never does. *)
Definition raises (call : closeCall) : bool :=
  match call with
  | closeNoArgs => false
  | closeArgs c reason => Ws.closeRaises c (reasonBytes reason)
  end.

(** A [close] call on an open socket: it starts closing, unless the call
    raises, in which case no close frame is sent and the socket is held as
    it was. [closeCalls] holds every call, refused or not. *)
Definition closeWith (call : closeCall) (p : socket) : socket := {|
  state := if raises call then state p else CLOSING; sent := sent p;
  closeCalls := closeCalls p ++ [call]; pings := pings p |}.

Definition ping (p : socket) : socket := {|
  state := state p; sent := sent p;
  closeCalls := closeCalls p; pings := S (pings p) |}.

Definition reports (rs : readyState) (p : socket) : socket := {|
  state := rs; sent := sent p;
  closeCalls := closeCalls p; pings := pings p |}.

(** The variables [establishProxy] closes over; [closedLog] holds the
    message counts that [cleanup] logged. *)
Record link := {
  isActive : bool;
  messageCount : nat;
  client : socket;
  target : socket;
  keepAlive : bool;
  closedLog : list nat
}.

Definition peerOf (s : Relay.side) (l : link) : socket :=
  match s with Relay.Client => client l | Relay.Target => target l end.

Definition setPeer (s : Relay.side) (p : socket) (l : link) : link :=
  match s with
  | Relay.Client => {|
      isActive := isActive l; messageCount := messageCount l;
      client := p; target := target l; keepAlive := keepAlive l;
      closedLog := closedLog l |}
  | Relay.Target => {|
      isActive := isActive l; messageCount := messageCount l;
      client := client l; target := p; keepAlive := keepAlive l;
      closedLog := closedLog l |}
  end.

(** [establishProxy(clientWs, targetWs, pathname)], called from the
    [handleUpgrade] callback with both sockets open. *)
Definition establishProxy : link := {|
  isActive := true; messageCount := 0;
  client := {| state := OPEN; sent := []; closeCalls := []; pings := 0 |};
  target := {| state := OPEN; sent := []; closeCalls := []; pings := 0 |};
  keepAlive := true; closedLog := [] |}.

Definition cleanup (l : link) : link :=
  if isActive l then {|
    isActive := false; messageCount := messageCount l;
    client := client l; target := target l; keepAlive := keepAlive l;
    closedLog := closedLog l ++ [messageCount l] |}
  else l.

(** The 'message' listeners:
    [if (isActive && to.readyState === OPEN) { to.send(data.toString()); messageCount++ }] *)
Definition onMessage (from : Relay.side) (data : Buffer) (l : link) : link :=
  let to := Relay.other from in
  if isActive l && isOpen (peerOf to l) then
    let l := setPeer to (send (Utf8.toString data) (peerOf to l)) l in
    {| isActive := isActive l; messageCount := S (messageCount l);
       client := client l; target := target l; keepAlive := keepAlive l;
       closedLog := closedLog l |}
  else l.

Definition closeIfOpen (s : Relay.side) (call : closeCall) (l : link) : link :=
  if isOpen (peerOf s l) then setPeer s (closeWith call (peerOf s l)) l
  else l.

(** The 'close' listeners: [cleanup(); if (other open) other.close(code, reason)] *)
Definition onClose (s : Relay.side) (c : Z) (reason : Relay.closeReason)
    (l : link) : link :=
  closeIfOpen (Relay.other s) (closeArgs c reason) (cleanup l).

(** The 'error' listeners: [cleanup(); if (other open) other.close()] *)
Definition onError (s : Relay.side) (l : link) : link :=
  closeIfOpen (Relay.other s) closeNoArgs (cleanup l).

Definition pingIfOpen (s : Relay.side) (l : link) : link :=
  if isOpen (peerOf s l) then setPeer s (ping (peerOf s l)) l else l.

(** The [setInterval] callback. *)
Definition onKeepAlive (l : link) : link :=
  if negb (keepAlive l) then l
  else if negb (isActive l) then {|
    isActive := isActive l; messageCount := messageCount l;
    client := client l; target := target l; keepAlive := false;
    closedLog := closedLog l |}
  else pingIfOpen Relay.Client (pingIfOpen Relay.Target l).

Inductive relayEvent :=
| Message (from : Relay.side) (data : Buffer)
| Close (s : Relay.side) (c : Z) (reason : Relay.closeReason)
| Error (s : Relay.side)
| KeepAlive
| Closing (s : Relay.side).

Definition closing (p : socket) : socket :=
  reports (if readyState_eqb (state p) CLOSED then CLOSED else CLOSING) p.

(** Before 'close' is emitted the socket is CLOSED, before 'error' it is
    at least CLOSING; [Closing] is a socket entering its closing
    handshake. *)
Definition relayStep (l : link) (ev : relayEvent) : link :=
  match ev with
  | Message from data => onMessage from data l
  | Close s c reason =>
      onClose s c reason (setPeer s (reports CLOSED (peerOf s l)) l)
  | Error s => onError s (setPeer s (closing (peerOf s l)) l)
  | KeepAlive => onKeepAlive l
  | Closing s => setPeer s (closing (peerOf s l)) l
  end.

Definition relayRun (l : link) (tr : list relayEvent) : link :=
  foldl relayStep l tr.

(** *** Vocabulary of the properties *)

(** What holds in every state of a handshake: a line was written only
    with the socket destroyed and the timer gone, and one line at most. *)
Definition invariant (h : handshake) : Prop :=
  length (socketWrites h) ≤ 1
  ∧ (socketWrites h ≠ [] → socketDestroyed h = true ∧ timeoutArmed h = false).

(** A trace in which the outbound socket only opens or closes: no
    error, no timeout, no error of the inbound socket. *)
Definition quiet (tr : list event) : bool :=
  forallb (λ ev, match ev with TargetOpen | TargetClosed => true | _ => false end)
    tr.

Fixpoint opens (tr : list event) : nat :=
  match tr with
  | [] => 0
  | TargetOpen :: rest => S (opens rest)
  | _ :: rest => opens rest
  end.

(** What holds in every state of a link: the counter counts the payloads
    sent, and [cleanup] has logged once if the link is inactive, the
    count as it is. *)
Definition linkInvariant (l : link) : Prop :=
  messageCount l = length (sent (client l)) + length (sent (target l))
  ∧ length (closedLog l) = (if isActive l then 0 else 1)
  ∧ (∀ n, n ∈ closedLog l → n = messageCount l).

(** At most one [close] call on the socket did not raise, and none while
    the socket is still open. *)
Definition closedOnce (p : socket) : Prop :=
  length (filter (λ call, raises call = false) (closeCalls p)) ≤ 1
  ∧ (isOpen p = true → Forall (λ call, raises call = true) (closeCalls p)).

End BasicProxy.

(** ** The token-gated relay ([simple-ws-proxy.js]) *)

Module SimpleWsProxy.

(** [parsed.query.token]: absent, given once, or given several times,
    which makes it an array. *)
Inductive queryValue :=
| absent
| single (s : string)
| repeated (l : list string).

Definition truthy (q : queryValue) : bool :=
  match q with
  | absent => false
  | single s => Js.truthy s
  | repeated _ => true
  end.

Fixpoint join (l : list string) : string :=
  match l with
  | [] => ""
  | [s] => s
  | s :: rest => s +:+ "," +:+ join rest
  end.

(** How a template literal prints the token. *)
Definition show (q : queryValue) : string :=
  match q with
  | absent => "undefined"
  | single s => s
  | repeated l => join l
  end.

(** What is handed to [send]: a string, or the data of a message. *)
Inductive frame :=
| Text (s : string)
| Data (b : Buffer).

Definition quote : string := String (Ascii.ascii_of_nat 34) EmptyString.

(** [JSON.stringify({ type: 'connection_init' })] *)
Definition connectionInit : string :=
  "{" +:+ quote +:+ "type" +:+ quote +:+ ":"
  +:+ quote +:+ "connection_init" +:+ quote +:+ "}".

Record targetSocket := {
  url : string;
  protocol : string;
  targetState : readyState;
  targetSent : list frame;
  targetCloseCalls : nat
}.

Record connection := {
  clientState : readyState;
  clientSent : list Buffer;
  clientCloseCalls : list (option (Z * string));   (* [None] is [close()] *)
  target : option targetSocket                     (* [None]: none was made *)
}.

(** The 'connection' listener, for a client socket that is open. *)
Definition onConnection (token : queryValue) : connection :=
  if negb (truthy token) then
    {| clientState := CLOSING; clientSent := [];
       clientCloseCalls := [Some (4001%Z, "No token provided")];
       target := None |}
  else
    {| clientState := OPEN; clientSent := []; clientCloseCalls := [];
       target := Some {|
         url := "wss://api.aion.to/ws/graphql?token=" +:+ show token;
         protocol := "graphql-transport-ws";
         targetState := CONNECTING; targetSent := [];
         targetCloseCalls := 0 |} |}.

Definition setTarget (t : targetSocket) (c : connection) : connection := {|
  clientState := clientState c; clientSent := clientSent c;
  clientCloseCalls := clientCloseCalls c; target := Some t |}.

Definition targetReports (rs : readyState) (t : targetSocket) : targetSocket := {|
  url := url t; protocol := protocol t; targetState := rs;
  targetSent := targetSent t; targetCloseCalls := targetCloseCalls t |}.

Definition targetSend (f : frame) (t : targetSocket) : targetSocket := {|
  url := url t; protocol := protocol t; targetState := targetState t;
  targetSent := targetSent t ++ [f]; targetCloseCalls := targetCloseCalls t |}.

Definition clientReports (rs : readyState) (c : connection) : connection := {|
  clientState := rs; clientSent := clientSent c;
  clientCloseCalls := clientCloseCalls c; target := target c |}.

Definition closingState (rs : readyState) : readyState :=
  if readyState_eqb rs CLOSED then CLOSED else CLOSING.

Inductive event :=
| TargetOpen
| ClientMessage (data : Buffer)
| TargetMessage (data : Buffer)
| ClientClose
| TargetClose
| TargetError
| ClientClosing
| TargetClosing.

(** One event. Without a token the listener returned before registering
    anything, so only the state of the client socket changes. The client
    socket has no 'error' listener; its errors are not modelled. *)
Definition step (c : connection) (ev : event) : connection :=
  match target c with
  | None =>
      match ev with
      | ClientClose => clientReports CLOSED c
      | ClientClosing => clientReports (closingState (clientState c)) c
      | _ => c
      end
  | Some t =>
      match ev with
      | TargetOpen =>
          setTarget (targetSend (Text connectionInit) (targetReports OPEN t)) c
      | ClientMessage data =>
          if readyState_eqb (targetState t) OPEN
          then setTarget (targetSend (Data data) t) c
          else c
      | TargetMessage data =>
          if readyState_eqb (clientState c) OPEN then
            {| clientState := clientState c;
               clientSent := clientSent c ++ [data];
               clientCloseCalls := clientCloseCalls c; target := target c |}
          else c
      | ClientClose =>
          let c := clientReports CLOSED c in
          if readyState_eqb (targetState t) OPEN then
            setTarget
              {| url := url t; protocol := protocol t; targetState := CLOSING;
                 targetSent := targetSent t;
                 targetCloseCalls := S (targetCloseCalls t) |} c
          else c
      | TargetClose =>
          let c := setTarget (targetReports CLOSED t) c in
          if readyState_eqb (clientState c) OPEN then
            {| clientState := CLOSING; clientSent := clientSent c;
               clientCloseCalls := clientCloseCalls c ++ [None];
               target := target c |}
          else c
      | TargetError =>
          setTarget (targetReports (closingState (targetState t)) t) c
      | ClientClosing => clientReports (closingState (clientState c)) c
      | TargetClosing =>
          setTarget (targetReports (closingState (targetState t)) t) c
      end
  end.

Definition run (c : connection) (tr : list event) : connection :=
  foldl step c tr.

(** *** Vocabulary of the properties *)

(** The payloads of the client messages of a trace, in order. *)
Fixpoint fromClient (tr : list event) : list frame :=
  match tr with
  | [] => []
  | ClientMessage data :: rest => Data data :: fromClient rest
  | _ :: rest => fromClient rest
  end.

Definition onlyClientMessages (tr : list event) : bool :=
  forallb (λ ev, match ev with ClientMessage _ => true | _ => false end) tr.

(** What the target socket of a connection has been sent is nothing, or
    starts with the connection_init message; and it is open only after
    that message. *)
Definition initFirst (c : connection) : Prop :=
  match target c with
  | None => True
  | Some t =>
      (targetState t = OPEN ∨ targetSent t ≠ [] →
         ∃ rest, targetSent t = Text connectionInit :: rest)
      ∧ (targetState t = CONNECTING → targetSent t = [])
  end.

End SimpleWsProxy.

(** * Properties *)

(** ** Strings *)

Lemma startsWith_substring s p :
  Js.startsWith s p = true ↔ String.substring 0 (String.length p) s = p.
Proof. unfold Js.startsWith. apply String.prefix_correct. Qed.

Lemma substring_full s : String.substring 0 (String.length s) s = s.
Proof. induction s as [|c s IH]; simpl; [done | by rewrite IH]. Qed.

Lemma startsWith_refl s : Js.startsWith s s = true.
Proof. apply startsWith_substring, substring_full. Qed.

Lemma substring_length_le n s :
  (String.length (String.substring 0 n s) ≤ String.length s)%nat.
Proof.
  revert n. induction s as [|c s IH]; intros [|n]; simpl; try lia.
  specialize (IH n). lia.
Qed.

Lemma startsWith_length s p :
  Js.startsWith s p = true → (String.length p ≤ String.length s)%nat.
Proof.
  intros H%startsWith_substring.
  rewrite <- H at 1. apply substring_length_le.
Qed.

(** Two prefixes of one string that have the same length are equal. *)
Lemma startsWith_same_length s p q :
  Js.startsWith s p = true → Js.startsWith s q = true →
  String.length p = String.length q → p = q.
Proof.
  intros Hp%startsWith_substring Hq%startsWith_substring Hlen.
  rewrite <- Hp, <- Hq. by rewrite Hlen.
Qed.

(** ** Objects as entry lists *)

Lemma get_Some_elem_of obj k v : Js.get obj k = Some v → (k, v) ∈ obj.
Proof.
  induction obj as [|[k' v'] obj IH]; simpl; [done|].
  destruct (String.eqb k' k) eqn:E.
  - apply String.eqb_eq in E as ->. intros [= ->]. left.
  - intros H. right. auto.
Qed.

(** ** The sort *)

Lemma insertByLength_perm e l : Js.insertByLength e l ≡ₚ e :: l.
Proof.
  induction l as [|y r IH]; simpl; [done|].
  case_match; [done|]. rewrite IH. apply Permutation_swap.
Qed.

Lemma sortByLengthDesc_perm l : Js.sortByLengthDesc l ≡ₚ l.
Proof.
  induction l as [|e r IH]; simpl; [done|].
  by rewrite insertByLength_perm, IH.
Qed.

Lemma insertByLength_sorted e l :
  StronglySorted longerFirst l → StronglySorted longerFirst (Js.insertByLength e l).
Proof.
  induction l as [|y r IH]; simpl; intros Hs.
  - repeat constructor.
  - apply StronglySorted_cons in Hs as [Hy Hr].
    destruct (String.length (fst y) <=? String.length (fst e))%nat eqn:E.
    + apply Nat.leb_le in E.
      apply StronglySorted_cons. split.
      * constructor; [exact E|].
        eapply Forall_impl; [exact Hy|]. unfold longerFirst. intros; lia.
      * by apply StronglySorted_cons.
    + apply Nat.leb_gt in E.
      apply StronglySorted_cons. split; [|by apply IH].
      rewrite insertByLength_perm. constructor; [|done].
      unfold longerFirst. lia.
Qed.

Lemma sortByLengthDesc_sorted l :
  StronglySorted longerFirst (Js.sortByLengthDesc l).
Proof.
  induction l as [|e r IH]; simpl; [constructor|].
  by apply insertByLength_sorted.
Qed.

(** ** The prefix scan *)

Lemma firstPrefix_None entries s :
  (∀ k v, (k, v) ∈ entries → Js.startsWith s k = false) →
  Js.firstPrefix entries s = None.
Proof.
  induction entries as [|[k v] rest IH]; simpl; intros H; [done|].
  rewrite (H k v) by left. apply IH. intros k' v' Hin. apply (H k' v'). by right.
Qed.

(** On entries with pairwise distinct keys, sorted by decreasing key
    length, the scan returns the value of the longest key that is a prefix. *)
Lemma firstPrefix_longest entries s k v :
  StronglySorted longerFirst entries →
  NoDup entries.*1 →
  (k, v) ∈ entries →
  Js.startsWith s k = true →
  (∀ k' v', (k', v') ∈ entries → Js.startsWith s k' = true →
            (String.length k' ≤ String.length k)%nat) →
  Js.firstPrefix entries s = Some v.
Proof.
  induction entries as [|[k0 v0] rest IH]; simpl; intros Hs Hnd Hin Hk Hmax.
  - by apply elem_of_nil in Hin.
  - apply StronglySorted_cons in Hs as [Hhd Hs].
    apply NoDup_cons in Hnd as [Hfresh Hnd].
    apply elem_of_cons in Hin as [[= <- <-] | Hin].
    + by rewrite Hk.
    + destruct (Js.startsWith s k0) eqn:E.
      * exfalso. apply Hfresh.
        assert (k0 = k) as ->.
        { apply (startsWith_same_length s); [done..|].
          apply Nat.le_antisymm.
          - apply (Hmax k0 v0); [left | done].
          - rewrite Forall_forall in Hhd. apply (Hhd _ Hin). }
        apply list_elem_of_fmap. by exists (k, v).
      * apply IH; try done.
        intros k' v' Hin'. apply (Hmax k' v'). by right.
Qed.

Lemma firstPrefix_sorted_longest obj s k v :
  NoDup obj.*1 →
  (k, v) ∈ obj →
  Js.startsWith s k = true →
  (∀ k' v', (k', v') ∈ obj → Js.startsWith s k' = true →
            (String.length k' ≤ String.length k)%nat) →
  Js.firstPrefix (Js.sortByLengthDesc obj) s = Some v.
Proof.
  intros Hnd Hin Hk Hmax.
  apply (firstPrefix_longest _ s k v).
  - apply sortByLengthDesc_sorted.
  - by rewrite sortByLengthDesc_perm.
  - by rewrite sortByLengthDesc_perm.
  - done.
  - intros k' v'. rewrite sortByLengthDesc_perm. apply Hmax.
Qed.

Lemma firstPrefix_sorted_None obj s :
  (∀ k v, (k, v) ∈ obj → Js.startsWith s k = false) →
  Js.firstPrefix (Js.sortByLengthDesc obj) s = None.
Proof.
  intros H. apply firstPrefix_None.
  intros k v. rewrite sortByLengthDesc_perm. apply H.
Qed.

(** ** Route resolver *)

Lemma NoDup_keys_functional (obj : list (string * string)) k v v' :
  NoDup obj.*1 → (k, v) ∈ obj → (k, v') ∈ obj → v = v'.
Proof.
  induction obj as [|[k0 v0] rest IH]; simpl; intros Hnd H1 H2.
  - by apply elem_of_nil in H1.
  - apply NoDup_cons in Hnd as [Hfresh Hnd].
    assert (∀ w, (k0, w) ∈ rest → False) as Hno.
    { intros w Hw. apply Hfresh, list_elem_of_fmap. by exists (k0, w). }
    apply elem_of_cons in H1 as [E1 | H1];
      apply elem_of_cons in H2 as [E2 | H2].
    + congruence.
    + injection E1 as -> ->. destruct (Hno _ H2).
    + injection E2 as -> ->. destruct (Hno _ H1).
    + by apply IH.
Qed.

(** C4. On a route table with distinct keys, [getTargetForPath] returns the
    entry whose key is the pathname when there is one; the target of the
    longest key that is a literal prefix of the pathname when some key is
    one; the default target when no key is a prefix; and with the routes
    {"/api":"A", "/api/graphql":"B"} the path "/api/graphql/x" resolves to
    "B". *)
Theorem getTargetForPath_longest_prefix (this : WebSocketProxy) (pathname : string) :
  NoDup (routes this).*1 →
  (∀ target, (pathname, target) ∈ routes this →
     getTargetForPath this pathname = Some target)
  ∧ (∀ route target,
       (route, target) ∈ routes this →
       Js.startsWith pathname route = true →
       (∀ route' target', (route', target') ∈ routes this →
          Js.startsWith pathname route' = true →
          (String.length route' ≤ String.length route)%nat) →
       getTargetForPath this pathname = Some target)
  ∧ ((∀ route target, (route, target) ∈ routes this →
        Js.startsWith pathname route = false) →
     getTargetForPath this pathname = defaultTarget this)
  ∧ getTargetForPath twoRoutes "/api/graphql/x" = Some "B".
Proof.
  intros Hnd.
  assert (∀ route target,
       (route, target) ∈ routes this →
       Js.startsWith pathname route = true →
       (∀ route' target', (route', target') ∈ routes this →
          Js.startsWith pathname route' = true →
          (String.length route' ≤ String.length route)%nat) →
       getTargetForPath this pathname = Some target) as Hlongest.
  { intros route target Hin Hpre Hmax. unfold getTargetForPath.
    destruct (Js.truthyOpt (Js.get (routes this) pathname)) eqn:E.
    - destruct (Js.get (routes this) pathname) as [t|] eqn:G; [|done].
      apply get_Some_elem_of in G.
      assert (route = pathname) as ->.
      { apply (startsWith_same_length pathname);
          [done | apply startsWith_refl |].
        apply Nat.le_antisymm; [by apply startsWith_length|].
        apply (Hmax pathname t); [done | apply startsWith_refl]. }
      f_equal. by apply (NoDup_keys_functional (routes this) pathname).
    - by rewrite (firstPrefix_sorted_longest _ pathname route target). }
  split; [|split; [exact Hlongest | split]].
  - intros target Hin. apply (Hlongest pathname target Hin).
    + apply startsWith_refl.
    + intros route' target' _ Hpre. by apply startsWith_length.
  - intros Hnone. unfold getTargetForPath.
    destruct (Js.get (routes this) pathname) as [t|] eqn:G.
    + apply get_Some_elem_of in G.
      pose proof (Hnone _ _ G) as C. by rewrite startsWith_refl in C.
    + simpl. by rewrite firstPrefix_sorted_None.
  - reflexivity.
Qed.

Lemma getTargetForPath_longest_prefix_witness :
  getTargetForPath twoRoutes "/api/graphql/x" = Some "B"
  ∧ getTargetForPath twoRoutes "/api" = Some "A".
Proof.
  assert (NoDup (routes twoRoutes).*1) as Hnd.
  { simpl. apply NoDup_cons. split; [|apply NoDup_singleton].
    rewrite list_elem_of_singleton. discriminate. }
  destruct (getTargetForPath_longest_prefix twoRoutes "/api/graphql/x" Hnd)
    as (_ & Hlongest & _ & _).
  destruct (getTargetForPath_longest_prefix twoRoutes "/api" Hnd)
    as (Hexact & _ & _ & _).
  split.
  - apply (Hlongest "/api/graphql" "B").
    + simpl. right. left.
    + reflexivity.
    + intros route' target' Hin _. simpl in Hin.
      apply elem_of_cons in Hin as [[= -> ->] | Hin]; [simpl; lia|].
      apply list_elem_of_singleton in Hin as [= -> ->]. simpl. lia.
  - apply Hexact. simpl. left.
Defined.

(** The protocol resolver follows the same order, with the substring
    heuristic in the place of the default. *)
Lemma getProtocolForPath_longest_prefix (this : WebSocketProxy) (pathname : string) :
  NoDup (protocolMap this).*1 →
  (∀ route protocol,
     (route, protocol) ∈ protocolMap this →
     Js.startsWith pathname route = true →
     (∀ route' protocol', (route', protocol') ∈ protocolMap this →
        Js.startsWith pathname route' = true →
        (String.length route' ≤ String.length route)%nat) →
     getProtocolForPath this pathname = Some protocol)
  ∧ ((∀ route protocol, (route, protocol) ∈ protocolMap this →
        Js.startsWith pathname route = false) →
     getProtocolForPath this pathname =
       if Js.includes pathname "graphql" || Js.includes pathname "subscription"
       then Some "graphql-transport-ws" else None).
Proof.
  intros Hnd. split.
  - intros route protocol Hin Hpre Hmax. unfold getProtocolForPath.
    destruct (Js.truthyOpt (Js.get (protocolMap this) pathname)) eqn:E.
    + destruct (Js.get (protocolMap this) pathname) as [t|] eqn:G; [|done].
      apply get_Some_elem_of in G.
      assert (route = pathname) as ->.
      { apply (startsWith_same_length pathname);
          [done | apply startsWith_refl |].
        apply Nat.le_antisymm; [by apply startsWith_length|].
        apply (Hmax pathname t); [done | apply startsWith_refl]. }
      f_equal. by apply (NoDup_keys_functional (protocolMap this) pathname).
    + by rewrite (firstPrefix_sorted_longest _ pathname route protocol).
  - intros Hnone. unfold getProtocolForPath.
    destruct (Js.get (protocolMap this) pathname) as [t|] eqn:G.
    + apply get_Some_elem_of in G.
      pose proof (Hnone _ _ G) as C. by rewrite startsWith_refl in C.
    + simpl. by rewrite firstPrefix_sorted_None.
Qed.

(** ** Header/protocol negotiator *)

Lemma truthyOpt_show o : Js.truthyOpt o = true → Some (Js.show o) = o.
Proof. by destruct o. Qed.

Lemma forwardHeader_lookup inbound acc name k :
  forwardHeader inbound acc name !! k =
    if bool_decide (k = name) && Js.truthyOpt (inbound !! k)
    then inbound !! k else acc !! k.
Proof.
  unfold forwardHeader. case_bool_decide as E; simpl.
  - subst k. destruct (Js.truthyOpt (inbound !! name)) eqn:T; [|done].
    by rewrite lookup_insert_eq, truthyOpt_show.
  - destruct (Js.truthyOpt (inbound !! name)); [|done].
    by rewrite lookup_insert_ne.
Qed.

Lemma forwardHeader_foldl_lookup inbound names acc k :
  foldl (forwardHeader inbound) acc names !! k =
    if bool_decide (k ∈ names) && Js.truthyOpt (inbound !! k)
    then inbound !! k else acc !! k.
Proof.
  revert acc. induction names as [|n names IH]; intros acc; simpl.
  - done.
  - rewrite IH, forwardHeader_lookup.
    destruct (Js.truthyOpt (inbound !! k)); rewrite ?andb_true_r, ?andb_false_r;
      [|done].
    repeat case_bool_decide; try done; set_solver.
Qed.

Lemma getProxyHeaders_lookup this req k :
  getProxyHeaders this req !! k =
    if bool_decide (k = "upgrade") then Some "websocket"
    else if bool_decide (k = "connection") then Some "Upgrade"
    else if bool_decide (k = "sec-websocket-version") then Some "13"
    else if bool_decide (k = "sec-websocket-protocol") then
      if Js.truthyOpt (headers req !! k) then headers req !! k
      else if Js.truthyOpt (getProtocolForPath this (pathname req))
           then getProtocolForPath this (pathname req) else None
    else if bool_decide (k ∈ headersToForward) then forwarded req k
    else None.
Proof.
  unfold getProxyHeaders.
  set (h0 := foldl (forwardHeader (headers req)) ∅ headersToForward).
  assert (∀ k', h0 !! k' = if bool_decide (k' ∈ headersToForward)
                           then forwarded req k' else None) as Hh0.
  { intros k'. unfold h0. rewrite forwardHeader_foldl_lookup, lookup_empty.
    unfold forwarded. case_bool_decide; simpl; [|done].
    by destruct (Js.truthyOpt (headers req !! k')). }
  case_bool_decide as E1; [subst; by rewrite lookup_insert_eq|].
  rewrite lookup_insert_ne by done.
  case_bool_decide as E2; [subst; by rewrite lookup_insert_eq|].
  rewrite lookup_insert_ne by done.
  case_bool_decide as E3; [subst; by rewrite lookup_insert_eq|].
  rewrite lookup_insert_ne by done.
  assert (h0 !! "sec-websocket-protocol" = forwarded req "sec-websocket-protocol")
    as Hp by (rewrite Hh0; done).
  assert (Js.truthyOpt (forwarded req "sec-websocket-protocol")
          = Js.truthyOpt (headers req !! "sec-websocket-protocol")) as Ht.
  { unfold forwarded.
    by destruct (Js.truthyOpt (headers req !! "sec-websocket-protocol")) eqn:T. }
  rewrite Hp, Ht.
  case_bool_decide as E4.
  - subst k.
    destruct (Js.truthyOpt (headers req !! "sec-websocket-protocol")) eqn:T; simpl.
    + rewrite Hp. unfold forwarded. by rewrite T.
    + destruct (Js.truthyOpt (getProtocolForPath this (pathname req))) eqn:P.
      * by rewrite lookup_insert_eq, truthyOpt_show.
      * rewrite Hp. unfold forwarded. by rewrite T.
  - destruct (negb _); [destruct (Js.truthyOpt (getProtocolForPath _ _))|];
      rewrite ?lookup_insert_ne by done; apply Hh0.
Qed.

Lemma outboundHeaders_lookup this req k :
  outboundHeaders this req !! k =
    if bool_decide (k = "upgrade") then Some "websocket"
    else if bool_decide (k = "connection") then Some "Upgrade"
    else if bool_decide (k = "sec-websocket-version") then Some "13"
    else if bool_decide (k = "sec-websocket-protocol") then
      if Js.truthyOpt (getProtocolForPath this (pathname req))
      then getProtocolForPath this (pathname req)
      else forwarded req k
    else if bool_decide (k ∈ headersToForward) then forwarded req k
    else None.
Proof.
  unfold outboundHeaders.
  destruct (Js.truthyOpt (getProtocolForPath this (pathname req))) eqn:P.
  - destruct (decide (k = "sec-websocket-protocol")) as [->|Hne].
    + by rewrite lookup_insert_eq, truthyOpt_show.
    + rewrite lookup_insert_ne by done.
      rewrite getProxyHeaders_lookup.
      by rewrite (bool_decide_eq_false_2 (k = "sec-websocket-protocol")).
  - rewrite getProxyHeaders_lookup, P. unfold forwarded.
    by repeat case_bool_decide.
Qed.

(** C8, as stated, fails: a request to /ws/graphql that offers the
    subprotocol graphql-ws leaves with the route's graphql-transport-ws in
    its place; the inbound value is not copied and the resolved subprotocol
    is set although the request carries one. *)
Lemma outboundHeaders_replaces_inbound_subprotocol :
  headers graphqlWsRequest !! "sec-websocket-protocol" = Some "graphql-ws"
  ∧ outboundHeaders proxy graphqlWsRequest !! "sec-websocket-protocol"
    = Some "graphql-transport-ws"
  ∧ ¬ (∀ this req,
         is_Some (headers req !! "sec-websocket-protocol") →
         outboundHeaders this req !! "sec-websocket-protocol"
         = headers req !! "sec-websocket-protocol").
Proof.
  assert (headers graphqlWsRequest !! "sec-websocket-protocol" = Some "graphql-ws")
    as Hin by (vm_compute; reflexivity).
  assert (outboundHeaders proxy graphqlWsRequest !! "sec-websocket-protocol"
          = Some "graphql-transport-ws") as Hout by (vm_compute; reflexivity).
  split; [exact Hin | split; [exact Hout|]].
  intros H. specialize (H proxy graphqlWsRequest).
  rewrite Hin, Hout in H. discriminate H. by eexists.
Qed.

(** C8, amended. The outbound header object holds: each of authorization,
    cookie, user-agent, sec-websocket-extensions and origin exactly when the
    request carries it with a non-empty value, copied verbatim;
    sec-websocket-protocol set to the resolved subprotocol whenever the
    resolver yields a non-empty one, replacing any inbound value, and to the
    inbound value otherwise; sec-websocket-version, connection and upgrade
    set to '13', 'Upgrade' and 'websocket'; and no other key. *)
Theorem outboundHeaders_allowlist (this : WebSocketProxy) (req : request) :
  let out := outboundHeaders this req in
  let protocol := getProtocolForPath this (pathname req) in
  Forall (λ name, out !! name = forwarded req name)
    ["authorization"; "cookie"; "user-agent"; "sec-websocket-extensions"; "origin"]
  ∧ out !! "sec-websocket-protocol" =
      (if Js.truthyOpt protocol then protocol
       else forwarded req "sec-websocket-protocol")
  ∧ out !! "sec-websocket-version" = Some "13"
  ∧ out !! "connection" = Some "Upgrade"
  ∧ out !! "upgrade" = Some "websocket"
  ∧ dom out ⊆ list_to_set
      (headersToForward ++ ["sec-websocket-version"; "connection"; "upgrade"]).
Proof.
  intros out protocol. subst out protocol.
  repeat split.
  - repeat constructor; rewrite outboundHeaders_lookup; reflexivity.
  - rewrite outboundHeaders_lookup; reflexivity.
  - rewrite outboundHeaders_lookup; reflexivity.
  - rewrite outboundHeaders_lookup; reflexivity.
  - rewrite outboundHeaders_lookup; reflexivity.
  - intros k [v Hk]%elem_of_dom. rewrite outboundHeaders_lookup in Hk.
    rewrite elem_of_list_to_set, elem_of_app.
    repeat case_bool_decide; subst; try done;
      first [ left; assumption
            | left; apply (bool_decide_unpack _); reflexivity
            | right; apply (bool_decide_unpack _); reflexivity ].
Qed.

(** ** Target URL builder *)

Lemma startsWith_https_not_ws targetUrl :
  Js.startsWith targetUrl "https://" = true →
  Js.startsWith targetUrl "ws://" || Js.startsWith targetUrl "wss://" = false.
Proof.
  intros H%startsWith_substring.
  apply orb_false_iff; split; apply not_true_is_false;
    intros E%startsWith_substring;
    destruct targetUrl as [|c rest]; simpl in H, E;
    try discriminate; injection H as -> _; discriminate.
Qed.

(** C10. For a target that begins with ws:// or wss://,
    [buildTargetWebSocketUrl] returns the target followed by the query
    string, and the URL an attempt connects to is the target followed by the
    request's query string whatever the request's pathname; for a target
    that begins with https:// the result is wss: and for any other target
    ws:, followed by //, the host and the path of the parsed target and the
    query string. *)
Theorem buildTargetWebSocketUrl_scheme
    (url_parse : string → Url) (targetUrl queryString : string) :
  (Js.startsWith targetUrl "ws://" || Js.startsWith targetUrl "wss://" = true →
     buildTargetWebSocketUrl url_parse targetUrl queryString
       = targetUrl +:+ queryString
     ∧ ∀ req, targetWsUrl url_parse targetUrl req
              = targetUrl +:+ Js.show (Js.or (search req) (Some "")))
  ∧ (Js.startsWith targetUrl "https://" = true →
       buildTargetWebSocketUrl url_parse targetUrl queryString
       = "wss:" +:+ "//" +:+ Js.show (host (url_parse targetUrl))
         +:+ Js.show (Js.or (Js.or (path (url_parse targetUrl))
                                  (url_pathname (url_parse targetUrl))) (Some ""))
         +:+ queryString)
  ∧ (Js.startsWith targetUrl "ws://" || Js.startsWith targetUrl "wss://" = false →
     Js.startsWith targetUrl "https://" = false →
       buildTargetWebSocketUrl url_parse targetUrl queryString
       = "ws:" +:+ "//" +:+ Js.show (host (url_parse targetUrl))
         +:+ Js.show (Js.or (Js.or (path (url_parse targetUrl))
                                  (url_pathname (url_parse targetUrl))) (Some ""))
         +:+ queryString).
Proof.
  unfold targetWsUrl, buildTargetWebSocketUrl. split; [|split].
  - intros H. split; [by rewrite H | intros req; by rewrite H].
  - intros Hs. by rewrite (startsWith_https_not_ws _ Hs), Hs.
  - by intros -> ->.
Qed.

Lemma buildTargetWebSocketUrl_scheme_witness :
  buildTargetWebSocketUrl (λ _, parsedDefaultTarget)
    "wss://api.aion.to/ws/graphql" "?token=t" = "wss://api.aion.to/ws/graphql?token=t"
  ∧ buildTargetWebSocketUrl (λ _, parsedDefaultTarget)
      "https://api.aion.to" "?token=t" = "wss://api.aion.to/?token=t"
  ∧ buildTargetWebSocketUrl (λ _, parsedDefaultTarget)
      "http://api.aion.to" "?token=t" = "ws://api.aion.to/?token=t".
Proof.
  split; [|split].
  - apply (buildTargetWebSocketUrl_scheme (λ _, parsedDefaultTarget)
             "wss://api.aion.to/ws/graphql" "?token=t"). reflexivity.
  - apply (buildTargetWebSocketUrl_scheme (λ _, parsedDefaultTarget)
             "https://api.aion.to" "?token=t"). reflexivity.
  - apply (buildTargetWebSocketUrl_scheme (λ _, parsedDefaultTarget)
             "http://api.aion.to" "?token=t"); reflexivity.
Defined.

(** ** Relay session *)

Module RelayFacts.
Import Relay.

Ltac unfold_relay :=
  unfold step, forwardMessage, forwardMessageWith, onClose, onError,
    onPingInterval, pingIfOpen, closeIfOpen, cleanup, isOpen, closing in *.

Ltac negb_hyps :=
  repeat match goal with
         | H : negb _ = true |- _ => apply negb_true_iff in H
         | H : negb _ = false |- _ => apply negb_false_iff in H
         end.

(** Case analysis along the branches of the handlers. *)
Ltac crush_relay :=
  repeat match goal with s : side |- _ => destruct s end;
  unfold_relay; simpl in *;
  repeat (first
    [ match goal with
      | H : ?x = true |- context [?x] => rewrite H
      | H : ?x = false |- context [?x] => rewrite H
      end
    | match goal with
      | |- context [match ?x with _ => _ end] => destruct x eqn:?
      end ]; simpl in *; negb_hyps; try congruence);
  try done.

Ltac count_cleanups :=
  unfold cleanups in *; simpl;
  rewrite ?filter_app, ?length_app; simpl;
  repeat match goal with H : isProxyActive _ = _ |- _ => rewrite H in * end;
  intros; auto; try lia; try congruence;
  try match goal with
      | H : ?P → _, H' : ?P |- _ => specialize (H H'); congruence
      end.

Lemma reachable_step r ev : reachable r → reachable (step r ev).
Proof.
  intros (now & c & t & r0 & tr & H & ->).
  exists now, c, t, r0, (tr ++ [ev]). split; [done|].
  unfold run. by rewrite foldl_app.
Qed.

Lemma step_stays_inactive r ev :
  isProxyActive r = false → isProxyActive (step r ev) = false.
Proof. destruct ev as [now []]; intros H; crush_relay. Qed.

Lemma run_stays_inactive r tr :
  isProxyActive r = false → isProxyActive (run r tr) = false.
Proof.
  revert r. induction tr as [|ev tr IH]; intros r H; [done|].
  apply IH. by apply step_stays_inactive.
Qed.

Lemma session_step_invariant r ev : invariant r → invariant (step r ev).
Proof.
  intros [Hping Hcount]. destruct ev as [now []]; split.
  all: crush_relay; count_cleanups.
Qed.

Lemma session_run_invariant r tr : invariant r → invariant (run r tr).
Proof.
  revert r. induction tr as [|ev tr IH]; intros r H; [done|].
  apply IH. by apply session_step_invariant.
Qed.

Lemma establishWebSocketProxy_invariant now c t r0 :
  establishWebSocketProxy now c t = Some r0 → invariant r0.
Proof.
  unfold establishWebSocketProxy. destruct c as [c|], t as [t|]; try done.
  case_match; [done|]. intros [= <-]. by split.
Qed.

Lemma reachable_invariant r : reachable r → invariant r.
Proof.
  intros (now & c & t & r0 & tr & H & ->).
  eapply session_run_invariant, establishWebSocketProxy_invariant, H.
Qed.

Lemma step_inactive_pings r ev s :
  isProxyActive r = false → pings (peerOf s (step r ev)) = pings (peerOf s r).
Proof. destruct ev as [now []], s; intros H; crush_relay. Qed.

Lemma run_inactive_pings r tr s :
  isProxyActive r = false → pings (peerOf s (run r tr)) = pings (peerOf s r).
Proof.
  revert r. induction tr as [|ev tr IH]; intros r H; [done|].
  simpl. rewrite IH by (by apply step_stays_inactive).
  by apply step_inactive_pings.
Qed.

(** C9. In every state of a relay session: while the session is active,
    a tick of the interval calls [ping] once on each side that is open and
    on no other, whatever messages were or were not exchanged; once the
    session is inactive, no event whatsoever adds a ping on either side,
    and the first tick clears the interval. *)
Theorem keepalive_while_active (r : relay) :
  reachable r →
  (isProxyActive r = true →
     ∀ now targetThrows clientThrows s,
       pings (peerOf s (step r (now, PingInterval targetThrows clientThrows)))
       = pings (peerOf s r) + (if isOpen (peerOf s r) then 1 else 0))
  ∧ (isProxyActive r = false →
       (∀ tr s, pings (peerOf s (run r tr)) = pings (peerOf s r))
       ∧ ∀ now targetThrows clientThrows,
           pingInterval (step r (now, PingInterval targetThrows clientThrows))
           = false).
Proof.
  intros [Hping _]%reachable_invariant. split.
  - intros Hact now t c s. specialize (Hping Hact).
    destruct s; crush_relay; lia.
  - intros Hact. split.
    + intros tr s. by apply run_inactive_pings.
    + intros now t c. crush_relay.
Qed.

Lemma keepalive_while_active_witness :
  pings (target (step established (25000%Z, PingInterval false false))) = 1
  ∧ pings (client
      (run (step established (10%Z, Close Client 1000 (text "bye")))
           [(25000%Z, PingInterval false false);
            (50000%Z, PingInterval false false)])) = 0.
Proof.
  split.
  - assert (reachable established) as Hr
      by (exists 0%Z, (Some OPEN), (Some OPEN), established, []; done).
    apply (proj1 (keepalive_while_active established Hr) eq_refl
             25000%Z false false Target).
  - assert (reachable (step established (10%Z, Close Client 1000 (text "bye"))))
      as Hr by (exists 0%Z, (Some OPEN), (Some OPEN), established,
                  [(10%Z, Close Client 1000 (text "bye"))]; done).
    apply (proj1 (proj2 (keepalive_while_active _ Hr) eq_refl) _ Client).
Defined.

Lemma run_cleanups_once r tr :
  invariant r → isProxyActive r = false → cleanups (run r tr) = 1.
Proof.
  intros Hinv Hact.
  destruct (session_run_invariant r tr Hinv) as [_ ->].
  by rewrite run_stays_inactive.
Qed.

(** *** What the listeners do to the two sockets *)

Lemma cleanup_client now why r : client (cleanup now why r) = client r.
Proof. unfold cleanup. by destruct (isProxyActive r). Qed.

Lemma cleanup_target now why r : target (cleanup now why r) = target r.
Proof. unfold cleanup. by destruct (isProxyActive r). Qed.

Lemma closeIfOpen_same s c reason r :
  peerOf s (closeIfOpen s c reason r)
  = if isOpen (peerOf s r) then closeWith c reason (peerOf s r) else peerOf s r.
Proof. unfold closeIfOpen. destruct (isOpen (peerOf s r)), s; reflexivity. Qed.

Lemma closeIfOpen_other s c reason r :
  peerOf (other s) (closeIfOpen s c reason r) = peerOf (other s) r.
Proof. unfold closeIfOpen. destruct (isOpen (peerOf s r)), s; reflexivity. Qed.

(** The 'error' listener of side [s]: one [close] call on the other side
    if it is open, nothing on its own side. *)
Lemma onError_peers now s e r :
  peerOf (other s) (onError now s e r)
  = (if isOpen (peerOf (other s) r)
     then closeWith
            (match s with
             | Client => 1011%Z
             | Target =>
                 if codeIs e "ECONNRESET" then 1006%Z
                 else if codeIs e "ETIMEDOUT" then 1001%Z else 1011%Z
             end)
            (match s with
             | Client => "Client connection error"
             | Target => "Target error: " +:+ message e
             end)
            (peerOf (other s) r)
     else peerOf (other s) r)
  ∧ peerOf s (onError now s e r) = peerOf s r.
Proof.
  unfold onError. destruct s; simpl other.
  - rewrite (closeIfOpen_same Target), (closeIfOpen_other Target). simpl.
    by rewrite !cleanup_target, !cleanup_client.
  - rewrite (closeIfOpen_same Client), (closeIfOpen_other Client). simpl.
    by rewrite !cleanup_target, !cleanup_client.
Qed.

(** The 'close' listener of side [s]. *)
Lemma onClose_peers now s c reason r :
  peerOf (other s) (onClose now s c reason r)
  = (if isOpen (peerOf (other s) r)
     then closeWith (codeOr1000 c) (reasonStr reason) (peerOf (other s) r)
     else peerOf (other s) r)
  ∧ peerOf s (onClose now s c reason r) = peerOf s r.
Proof.
  unfold onClose. destruct s; simpl other.
  - rewrite (closeIfOpen_same Target), (closeIfOpen_other Target). simpl.
    by rewrite !cleanup_target, !cleanup_client.
  - rewrite (closeIfOpen_same Client), (closeIfOpen_other Client). simpl.
    rewrite !cleanup_target, !cleanup_client.
    by destruct ((c =? 1011)%Z || (c =? 1002)%Z || (c =? 1003)%Z).
Qed.

Lemma onError_inactive now s e r : isProxyActive (onError now s e r) = false.
Proof. destruct s; crush_relay. Qed.

Lemma setPeer_same s p r : peerOf s (setPeer s p r) = p.
Proof. by destruct s. Qed.

Lemma setPeer_other s p r : peerOf (other s) (setPeer s p r) = peerOf (other s) r.
Proof. by destruct s. Qed.

Lemma isOpen_closing p : isOpen (closing p) = false.
Proof. unfold closing, isOpen. simpl. by destruct (readyState_eqb (state p) CLOSED). Qed.

(** C5, at the failing input. A client that closes without a status
    code makes [ws] emit 'close' with the code 1005 and an empty reason.
    The 'close' listener of an active session whose target is open then
    calls [targetWs.close(1005, '')], [code || 1000] keeping 1005; [ws]
    refuses 1005 as a close code, the call raises, and the target is not
    closed with the code and the reason of the client: no close frame
    goes out, while the session is already inactive. A dropped client
    connection, code 1006, and the empty string reason of older [ws]
    versions end the same way. A client that closes with 1000 and 'bye'
    has the target closed with 1000 and 'bye'. *)
Lemma close_without_status_code_not_propagated :
  Ws.closeRaises 1005 "" = true
  ∧ closeCalls (target (step established (10%Z, Close Client 1005 (bytes ""))))
    = [(1005%Z, "")]
  ∧ isProxyActive (step established (10%Z, Close Client 1005 (bytes "")))
    = false
  ∧ Ws.closeRaises 1006 "" = true
  ∧ closeCalls (target (step established (10%Z, Close Client 1006 (bytes ""))))
    = [(1006%Z, "")]
  ∧ Ws.closeRaises 1005 "no reason" = true
  ∧ closeCalls (target (step established (10%Z, Close Client 1005 (text ""))))
    = [(1005%Z, "no reason")]
  ∧ closeCalls (target (step established (10%Z, Close Client 1000 (bytes "bye"))))
    = [(1000%Z, "bye")]
  ∧ state (target (step established (10%Z, Close Client 1000 (bytes "bye"))))
    = CLOSING.
Proof. repeat split. Qed.

(** What one delivered message changes, for either way of handing the
    payload to [send]. *)
Lemma forwardMessageWith_delivered outgoing now from data r :
  isProxyActive r = true →
  isOpen (peerOf (other from) r) = true →
  let r' := forwardMessageWith outgoing now from data None r in
  sent (peerOf (other from) r') = sent (peerOf (other from) r) ++ [outgoing data]
  ∧ sent (peerOf from r') = sent (peerOf from r)
  ∧ clientToTarget r'
    = clientToTarget r + (match from with Client => 1 | Target => 0 end)
  ∧ targetToClient r'
    = targetToClient r + (match from with Client => 0 | Target => 1 end)
  ∧ closeCalls (client r') = closeCalls (client r)
  ∧ closeCalls (target r') = closeCalls (target r)
  ∧ state (client r') = state (client r)
  ∧ state (target r') = state (target r)
  ∧ isProxyActive r' = true.
Proof.
  intros Hact Hopen r'. subst r'.
  destruct from; crush_relay; repeat split; lia.
Qed.

Lemma forwardMessageWith_dropped outgoing now from data thrown r :
  isProxyActive r = true →
  isOpen (peerOf (other from) r) = false →
  forwardMessageWith outgoing now from data thrown r
  = addLog (LogCannotForward from (state (peerOf (other from) r))) r.
Proof. intros Hact Hclosed. destruct from; crush_relay. Qed.

Lemma run_onlyMessages r tr :
  onlyMessages tr = true →
  isProxyActive r = true →
  isOpen (client r) = true → isOpen (target r) = true →
  sent (target (run r tr)) = sent (target r) ++ received Client tr
  ∧ sent (client (run r tr)) = sent (client r) ++ received Target tr
  ∧ clientToTarget (run r tr) = clientToTarget r + length (received Client tr)
  ∧ targetToClient (run r tr) = targetToClient r + length (received Target tr).
Proof.
  revert r. induction tr as [|[now ev] tr IH]; intros r Htr Hact Hc Ht.
  - simpl. by rewrite !app_nil_r, !Nat.add_0_r.
  - simpl in Htr. apply andb_true_iff in Htr as [Hev Htr].
    destruct ev as [from data [e|] | | | |]; try done.
    assert (isOpen (peerOf (other from) r) = true) as Hopen
      by (by destruct from).
    destruct (forwardMessageWith_delivered (λ d, d) now from data r Hact Hopen)
      as (Hs1 & Hs2 & Hc1 & Hc2 & _ & _ & Hsc & Hst & Hact').
    change (run r ((now, Message from data None) :: tr))
      with (run (forwardMessage now from data None r) tr).
    unfold forwardMessage.
    destruct (IH _ Htr Hact') as (I1 & I2 & I3 & I4).
    { unfold isOpen in *. by rewrite Hsc. }
    { unfold isOpen in *. by rewrite Hst. }
    rewrite I1, I2, I3, I4. clear IH I1 I2 I3 I4.
    destruct from; simpl in *; rewrite ?Hs1, ?Hs2, ?Hc1, ?Hc2, <- ?app_assoc;
      simpl; repeat split; lia.
Qed.

(** C6, as stated, fails: the single-target [Proxy] hands
    [data.toString()] to [send], so the one-byte binary payload FF reaches
    the other side as the three bytes EF BF BD. *)
Lemma Proxy_forwardMessage_not_verbatim :
  sent (target (Proxy.forwardMessage 0 Client [Byte.xff] None established))
  = [[Byte.xef; Byte.xbf; Byte.xbd]]
  ∧ ¬ (∀ now from data r,
         isProxyActive r = true →
         isOpen (peerOf (other from) r) = true →
         sent (peerOf (other from) (Proxy.forwardMessage now from data None r))
         = sent (peerOf (other from) r) ++ [data]).
Proof.
  split; [reflexivity|].
  intros H.
  specialize (H 0%Z Client [Byte.xff] established eq_refl eq_refl).
  discriminate H.
Qed.

(** C6, amended. In an active relay session, a message received on one
    side while the other side is open, and which [send] accepts, is handed
    on by the routed [WebSocketProxy] byte for byte and by the
    single-target [Proxy] as the text [data.toString()]; nothing is sent
    back, no side is closed and only the counter of that direction goes
    up, by one. Messages alone, in any interleaving of the two directions,
    reach each side of the routed proxy in the order received from the
    other, and the counters count them. If the other side is not open the
    message is dropped: in both proxies the only effect is one warning in
    the log. *)
Theorem forwardMessage_verbatim (r : relay) :
  isProxyActive r = true →
  (∀ now from data,
     isOpen (peerOf (other from) r) = true →
     let r' := forwardMessage now from data None r in
     sent (peerOf (other from) r') = sent (peerOf (other from) r) ++ [data]
     ∧ sent (peerOf from r') = sent (peerOf from r)
     ∧ clientToTarget r'
       = clientToTarget r + (match from with Client => 1 | Target => 0 end)
     ∧ targetToClient r'
       = targetToClient r + (match from with Client => 0 | Target => 1 end)
     ∧ closeCalls (client r') = closeCalls (client r)
     ∧ closeCalls (target r') = closeCalls (target r))
  ∧ (∀ now from data,
       isOpen (peerOf (other from) r) = true →
       let r' := Proxy.forwardMessage now from data None r in
       sent (peerOf (other from) r')
         = sent (peerOf (other from) r) ++ [Utf8.toString data]
       ∧ sent (peerOf from r') = sent (peerOf from r)
       ∧ clientToTarget r'
         = clientToTarget r + (match from with Client => 1 | Target => 0 end)
       ∧ targetToClient r'
         = targetToClient r + (match from with Client => 0 | Target => 1 end)
       ∧ closeCalls (client r') = closeCalls (client r)
       ∧ closeCalls (target r') = closeCalls (target r))
  ∧ (∀ tr,
       onlyMessages tr = true →
       isOpen (client r) = true → isOpen (target r) = true →
       sent (target (run r tr)) = sent (target r) ++ received Client tr
       ∧ sent (client (run r tr)) = sent (client r) ++ received Target tr
       ∧ clientToTarget (run r tr)
         = clientToTarget r + length (received Client tr)
       ∧ targetToClient (run r tr)
         = targetToClient r + length (received Target tr))
  ∧ (∀ now from data thrown,
       isOpen (peerOf (other from) r) = false →
       forwardMessage now from data thrown r
         = addLog (LogCannotForward from (state (peerOf (other from) r))) r
       ∧ Proxy.forwardMessage now from data thrown r
         = addLog (LogCannotForward from (state (peerOf (other from) r))) r).
Proof.
  intros Hact. split; [|split; [|split]].
  - intros now from data Hopen.
    destruct (forwardMessageWith_delivered (λ d, d) now from data r Hact Hopen)
      as (? & ? & ? & ? & ? & ? & _). by repeat split.
  - intros now from data Hopen.
    destruct (forwardMessageWith_delivered Utf8.toString now from data r Hact Hopen)
      as (? & ? & ? & ? & ? & ? & _). by repeat split.
  - intros tr Htr Hc Ht. by apply run_onlyMessages.
  - intros now from data thrown Hclosed.
    split; by apply forwardMessageWith_dropped.
Qed.

Lemma forwardMessage_verbatim_witness :
  sent (target (run established
          [(1%Z, Message Client m1 None); (2%Z, Message Target m3 None);
           (3%Z, Message Client m2 None); (4%Z, Message Client m3 None)]))
    = [m1; m2; m3]
  ∧ forwardMessage 5 Client m1 None (step established (4%Z, Closing Target))
    = addLog (LogCannotForward Client CLOSING)
        (step established (4%Z, Closing Target)).
Proof.
  destruct (forwardMessage_verbatim established eq_refl)
    as (_ & _ & Hfifo & _).
  destruct (forwardMessage_verbatim
              (step established (4%Z, Closing Target)) eq_refl)
    as (_ & _ & _ & Hdrop).
  split.
  - apply (Hfifo
      [(1%Z, Message Client m1 None); (2%Z, Message Target m3 None);
       (3%Z, Message Client m2 None); (4%Z, Message Client m3 None)]);
      reflexivity.
  - apply (Hdrop 5%Z Client m1 None). reflexivity.
Defined.

End RelayFacts.

(** ** Upgrade handshake orchestrator *)

Module UpgradeFacts.
Import Upgrade.

Ltac unfold_upgrade :=
  unfold step, onTargetOpen, onTargetError, onConnectionTimeout,
    onSocketError, onRetryTimer, attemptConnection, scheduleRetry,
    setAttempt, setAttempts, write, destroy in *.

Ltac crush_upgrade :=
  unfold_upgrade; simpl in *;
  repeat (first
    [ progress subst
    | match goal with
      | |- context [match ?x with _ => _ end] => destruct x eqn:?
      end ]; simpl in *); try done.

(** *** What is written to the inbound socket *)

(** An event makes the session write at most one line, and only one of the
    three failure statuses. *)
Lemma step_writes this st ev :
  ∃ extra, socketWrites (step this st ev) = socketWrites st ++ extra
           ∧ extra ⊆ [BadGateway; GatewayTimeout; Unauthorized]
           ∧ length extra ≤ 1.
Proof.
  destruct ev; crush_upgrade;
    first [ exists []; rewrite app_nil_r;
            split; [reflexivity | split; [set_solver | simpl; lia]]
          | eexists [_];
            split; [reflexivity | split; [set_solver | simpl; lia]] ].
Qed.

Lemma run_writes this st tr :
  ∃ extra, socketWrites (run this st tr) = socketWrites st ++ extra
           ∧ extra ⊆ [BadGateway; GatewayTimeout; Unauthorized].
Proof.
  revert st. induction tr as [|ev tr IH]; intros st; simpl.
  - exists []. rewrite app_nil_r. split; [done | set_solver].
  - destruct (IH (step this st ev)) as (x2 & -> & H2).
    destruct (step_writes this st ev) as (x1 & -> & H1 & _).
    exists (x1 ++ x2). rewrite app_assoc. split; [done | set_solver].
Qed.

(** Which event writes which line: 401 is written on an outbound error
    taken for an authentication failure; 502 on any other outbound error
    that is not retried, and when an attempt cannot be started with no retry
    left; 504 on a connect timeout with no retry left. *)
Lemma step_cause this st ev line :
  socketWrites (step this st ev) = socketWrites st ++ [line] →
  match ev with
  | TargetError _ e =>
      if isAuthenticationError e then line = Unauthorized
      else line = BadGateway
           ∧ (isTemporaryError e = false ∨ maxRetries this ≤ retries st)
  | ConnectionTimeout _ => line = GatewayTimeout ∧ maxRetries this ≤ retries st
  | RetryTimer throws =>
      line = BadGateway ∧ throws = true ∧ maxRetries this ≤ retries st
  | _ => False
  end.
Proof.
  assert (∀ l : list string, l = l ++ [line] → False) as Hsame.
  { intros l H. apply (f_equal length) in H. rewrite length_app in H.
    simpl in H. lia. }
  assert (∀ (l : list string) x, l ++ [x] = l ++ [line] → x = line) as Hone.
  { intros l x H. apply app_inv_head in H. by injection H. }
  destruct ev as [i t|i e|i|i|i| |t]; simpl.
  - unfold onTargetOpen. crush_upgrade; intros H; by apply Hsame in H.
  - unfold onTargetError.
    destruct (attempts st !! i) as [a|]; [|intros H; by apply Hsame in H].
    simpl. destruct (connectionClosed a); simpl;
      [intros H; by apply Hsame in H|].
    destruct (isAuthenticationError e); simpl.
    { destruct (isUpgraded a); simpl; intros H;
        [by apply Hsame in H | by apply Hone in H]. }
    destruct (isTemporaryError e) eqn:Htemp; simpl.
    + destruct (retries st <? maxRetries this) eqn:Hlt; simpl.
      * destruct (isUpgraded a); simpl;
          [destruct (clientWs a) as [[]|]|]; simpl; intros H;
          by apply Hsame in H.
      * apply Nat.ltb_ge in Hlt.
        destruct (isUpgraded a); simpl;
          [destruct (clientWs a) as [[]|]|]; simpl; intros H;
          first [ by apply Hsame in H | apply Hone in H; auto ].
    + destruct (isUpgraded a); simpl;
        [destruct (clientWs a) as [[]|]|]; simpl; intros H;
        first [ by apply Hsame in H | apply Hone in H; auto ].
  - intros H. by apply Hsame in H.
  - intros H. by apply Hsame in H.
  - unfold onConnectionTimeout.
    destruct (attempts st !! i) as [a|]; [|intros H; by apply Hsame in H].
    destruct (timeoutArmed a); simpl; [|intros H; by apply Hsame in H].
    destruct (negb (isUpgraded a) && negb (connectionClosed a)); simpl;
      [|intros H; by apply Hsame in H].
    destruct (retries st <? maxRetries this) eqn:Hlt; simpl; intros H.
    + by apply Hsame in H.
    + apply Nat.ltb_ge in Hlt. apply Hone in H. auto.
  - intros H. by apply Hsame in H.
  - unfold onRetryTimer, attemptConnection.
    destruct (timers st); [intros H; by apply Hsame in H|].
    destruct t; simpl; [|intros H; by apply Hsame in H].
    destruct (retries st <? maxRetries this) eqn:Hlt; simpl; intros H.
    + by apply Hsame in H.
    + apply Nat.ltb_ge in Hlt. apply Hone in H. auto.
Qed.

(** A session that was refused for want of a target stays as it is. *)
Lemma run_refused this tr :
  run this (destroy (write NotFound idle)) tr = destroy (write NotFound idle).
Proof.
  induction tr as [|ev tr IH]; [done|]. simpl.
  replace (step this (destroy (write NotFound idle)) ev)
    with (destroy (write NotFound idle)); [exact IH|].
  destruct ev as [i ?|i ?|i|i| i | |?]; try destruct i; reflexivity.
Qed.

(** C7, as stated, fails: with no route and no default target the
    upgrade request is answered with 404 Not Found, which is none of 502,
    504 and 401. *)
Lemma unresolved_route_writes_404 :
  getTargetForPath noRoutes "/chat" = None
  ∧ socketWrites (onUpgrade noRoutes (requestFor "/chat") false)
    = [statusLine "404 Not Found"]
  ∧ socketDestroyed (onUpgrade noRoutes (requestFor "/chat") false) = true
  ∧ ¬ (∀ this req throws tr line,
         line ∈ socketWrites (run this (onUpgrade this req throws) tr) →
         line ∈ [BadGateway; GatewayTimeout; Unauthorized]).
Proof.
  repeat split.
  intros H.
  specialize (H noRoutes (requestFor "/chat") false [] NotFound).
  assert (NotFound ∈ [BadGateway; GatewayTimeout; Unauthorized]) as Hin
    by (apply H; simpl; left).
  apply (bool_decide_pack _) in Hin. vm_compute in Hin. done.
Qed.

(** C7, amended. Whatever happens to an upgrade session, every status
    line written to the inbound socket is one of 404, 502, 504 and 401.
    When the resolver finds no target the session writes 404 Not Found,
    destroys the socket, makes no connection attempt and does nothing
    more; when it finds one, only 502, 504 and 401 are ever written: 401 by
    an outbound error taken for an authentication failure, 502 by another
    outbound error that is not of the connection class or finds no retry
    left and by a failure to start an attempt with no retry left, 504 by a
    connect timeout with no retry left. *)
Theorem failure_status_lines (this : WebSocketProxy) (req : request)
    (throws : bool) (tr : list event) :
  let st := run this (onUpgrade this req throws) tr in
  Forall (λ line, line ∈ [NotFound; BadGateway; GatewayTimeout; Unauthorized])
    (socketWrites st)
  ∧ (Js.truthyOpt (getTargetForPath this (pathname req)) = false →
       socketWrites st = [NotFound] ∧ socketDestroyed st = true
       ∧ attempts st = [])
  ∧ (Js.truthyOpt (getTargetForPath this (pathname req)) = true →
       Forall (λ line, line ∈ [BadGateway; GatewayTimeout; Unauthorized])
         (socketWrites st))
  ∧ ∀ st0 ev line,
      socketWrites (step this st0 ev) = socketWrites st0 ++ [line] →
      match ev with
      | TargetError _ e =>
          if isAuthenticationError e then line = Unauthorized
          else line = BadGateway
               ∧ (isTemporaryError e = false ∨ maxRetries this ≤ retries st0)
      | ConnectionTimeout _ =>
          line = GatewayTimeout ∧ maxRetries this ≤ retries st0
      | RetryTimer throws =>
          line = BadGateway ∧ throws = true ∧ maxRetries this ≤ retries st0
      | _ => False
      end.
Proof.
  intros st.
  assert (Js.truthyOpt (getTargetForPath this (pathname req)) = false →
          st = destroy (write NotFound idle)) as Hrefused.
  { intros Hno. subst st. unfold onUpgrade. rewrite Hno. apply run_refused. }
  assert (Js.truthyOpt (getTargetForPath this (pathname req)) = true →
       Forall (λ line, line ∈ [BadGateway; GatewayTimeout; Unauthorized])
         (socketWrites st)) as Hresolved.
  { intros Hyes. subst st. unfold onUpgrade. rewrite Hyes. simpl.
    destruct (run_writes this (handleWebSocketUpgrade this throws) tr)
      as (extra & -> & Hextra).
    apply Forall_app. split.
    - unfold handleWebSocketUpgrade.
      crush_upgrade; repeat constructor; set_solver.
    - apply Forall_forall. intros x Hx. by apply Hextra. }
  split; [|split; [|split; [exact Hresolved | apply step_cause]]].
  - destruct (Js.truthyOpt (getTargetForPath this (pathname req))) eqn:E.
    + eapply Forall_impl; [by apply Hresolved|]. set_solver.
    + rewrite Hrefused by done. simpl. repeat constructor; set_solver.
  - intros Hno. by rewrite Hrefused.
Qed.

Lemma failure_status_lines_witness :
  socketWrites (run noRoutes (onUpgrade noRoutes (requestFor "/chat") false)
                  [SocketError; RetryTimer false]) = [NotFound]
  ∧ Forall (λ line, line ∈ [BadGateway; GatewayTimeout; Unauthorized])
      (socketWrites
         (run proxy (onUpgrade proxy (requestFor "/chat") false)
            [TargetError 0 {| code := None; message := "socket hang up" |}])).
Proof.
  split.
  - apply (failure_status_lines noRoutes (requestFor "/chat") false
             [SocketError; RetryTimer false]). reflexivity.
  - apply (failure_status_lines proxy (requestFor "/chat") false
             [TargetError 0 {| code := None; message := "socket hang up" |}]).
    reflexivity.
Defined.

(** *** Sessions in which nothing can happen any more *)

Lemma closed_targetReports rs e a : closed a → closed (targetReports rs e a).
Proof. by intros []. Qed.

Lemma closed_clientReports rs a : closed a → closed (clientReports rs a).
Proof. by intros []. Qed.

Lemma closed_socketErrorListener a : closed a → closed (socketErrorListener a).
Proof. intros [? Hc]. unfold socketErrorListener. by rewrite Hc. Qed.

(** Once the retry timers are gone and every attempt is closed, no event
    adds an attempt, a retry or a line on the socket. *)
Lemma step_closed this st ev :
  timers st = [] → Forall closed (attempts st) →
  timers (step this st ev) = []
  ∧ Forall closed (attempts (step this st ev))
  ∧ length (attempts (step this st ev)) = length (attempts st)
  ∧ socketWrites (step this st ev) = socketWrites st
  ∧ delays (step this st ev) = delays st
  ∧ upgrades (step this st ev) = upgrades st
  ∧ (socketDestroyed st = true → socketDestroyed (step this st ev) = true).
Proof.
  intros Htimers Hall.
  destruct ev as [i t|i e|i|i|i| |t]; simpl.
  - unfold onTargetOpen. destruct (attempts st !! i) as [a|] eqn:L; [|done].
    pose proof (Forall_lookup_1 _ _ _ _ Hall L) as Ha.
    destruct Ha as [Ht Hc]. simpl. rewrite Hc. simpl.
    rewrite length_insert. repeat split; try done.
    apply Forall_insert; [done|]. by split.
  - unfold onTargetError. destruct (attempts st !! i) as [a|] eqn:L; [|done].
    pose proof (Forall_lookup_1 _ _ _ _ Hall L) as Ha.
    destruct Ha as [Ht Hc]. simpl. rewrite Hc. simpl.
    rewrite length_insert. repeat split; try done.
    apply Forall_insert; [done|]. by split.
  - rewrite length_alter. repeat split; try done.
    apply Forall_alter; [done|]. intros a _ Ha.
    by apply closed_targetReports.
  - rewrite length_alter. repeat split; try done.
    apply Forall_alter; [done|]. intros a _ Ha.
    by apply closed_clientReports.
  - unfold onConnectionTimeout.
    destruct (attempts st !! i) as [a|] eqn:L; [|done].
    pose proof (Forall_lookup_1 _ _ _ _ Hall L) as Ha.
    destruct Ha as [Ht Hc]. by rewrite Ht.
  - rewrite length_fmap. repeat split; try done.
    apply Forall_fmap. eapply Forall_impl; [exact Hall|].
    intros a Ha. by apply closed_socketErrorListener.
  - unfold onRetryTimer. by rewrite Htimers.
Qed.

Lemma run_closed this st tr :
  timers st = [] → Forall closed (attempts st) →
  length (attempts (run this st tr)) = length (attempts st)
  ∧ socketWrites (run this st tr) = socketWrites st
  ∧ delays (run this st tr) = delays st
  ∧ upgrades (run this st tr) = upgrades st
  ∧ (socketDestroyed st = true → socketDestroyed (run this st tr) = true).
Proof.
  revert st. induction tr as [|ev tr IH]; intros st Htimers Hall; [done|].
  destruct (step_closed this st ev Htimers Hall)
    as (H1 & H2 & H3 & H4 & H5 & H6 & H7).
  destruct (IH _ H1 H2) as (I3 & I4 & I5 & I6 & I7).
  change (run this st (ev :: tr)) with (run this (step this st ev) tr).
  rewrite I3, I4, I5, I6, H3, H4, H5, H6. repeat split; auto.
Qed.

(** *** Authentication failures *)

(** C2. When the first attempt of a session fails with an error whose
    message carries 401 or 403, then, whatever [maxRetries] is and
    whatever events follow, the session has made that one attempt only,
    has scheduled no retry, has written 401 Unauthorized and nothing else
    to the inbound socket, and has destroyed it. *)
Theorem authentication_error_is_fatal (this : WebSocketProxy) (e : error)
    (rest : list event) :
  isAuthenticationError e = true →
  let st := run this (handleWebSocketUpgrade this false)
              (TargetError 0 e :: rest) in
  length (attempts st) = 1
  ∧ delays st = []
  ∧ socketWrites st = [Unauthorized]
  ∧ socketDestroyed st = true
  ∧ upgrades st = 0.
Proof.
  intros Hauth st. subst st. simpl.
  unfold handleWebSocketUpgrade, onTargetError. simpl. rewrite Hauth. simpl.
  match goal with |- context [run this ?s rest] => set (st1 := s) end.
  destruct (run_closed this st1 rest) as (H1 & H2 & H3 & H4 & H5).
  - done.
  - repeat constructor.
  - rewrite H1, H2, H3, H4, H5 by done. done.
Qed.

Lemma authentication_error_is_fatal_witness :
  length (attempts
    (run proxy (handleWebSocketUpgrade proxy false)
       [TargetError 0 rejected401; RetryTimer false; ConnectionTimeout 0;
        TargetError 0 rejected401])) = 1
  ∧ socketWrites
    (run proxy (handleWebSocketUpgrade proxy false)
       [TargetError 0 rejected401; RetryTimer false; ConnectionTimeout 0;
        TargetError 0 rejected401]) = [Unauthorized].
Proof.
  destruct (authentication_error_is_fatal proxy rejected401
              [RetryTimer false; ConnectionTimeout 0; TargetError 0 rejected401]
              eq_refl) as (H1 & _ & H3 & _).
  split; [exact H1 | exact H3].
Defined.

(** *** Retries *)

Lemma closed_spent a : closed a → spent a.
Proof. intros [? ?]. split; auto. Qed.

Lemma spent_targetReports rs e a : spent a → spent (targetReports rs e a).
Proof.
  intros [? [?|He]]; split; simpl; auto.
  right. rewrite He. apply orb_true_r.
Qed.

Lemma spent_clientReports rs a : spent a → spent (clientReports rs a).
Proof. by intros []. Qed.

Lemma spent_socketErrorListener a : spent a → spent (socketErrorListener a).
Proof.
  intros Ha. unfold socketErrorListener, closeTarget.
  destruct (connectionClosed a) eqn:Hc; [done|].
  simpl. destruct (readyState_eqb (targetState a) CLOSED); split; simpl; auto.
Qed.

(** Once the retry timers are gone and every attempt is closed or has
    failed, no event the [ws] contract admits adds an attempt, a retry or
    a line on the socket. *)
Lemma step_spent this st ev :
  timers st = [] → Forall spent (attempts st) → admissible st ev = true →
  timers (step this st ev) = []
  ∧ Forall spent (attempts (step this st ev))
  ∧ length (attempts (step this st ev)) = length (attempts st)
  ∧ socketWrites (step this st ev) = socketWrites st
  ∧ delays (step this st ev) = delays st
  ∧ upgrades (step this st ev) = upgrades st
  ∧ (socketDestroyed st = true → socketDestroyed (step this st ev) = true).
Proof.
  intros Htimers Hall Hadm.
  destruct ev as [i t|i e|i|i|i| |t]; simpl in *.
  - unfold onTargetOpen. destruct (attempts st !! i) as [a|] eqn:L; [|done].
    pose proof (Forall_lookup_1 _ _ _ _ Hall L) as Ha.
    apply negb_true_iff in Hadm.
    destruct Ha as [Ht [Hc|He]]; [|congruence]. simpl. rewrite Hc. simpl.
    rewrite length_insert. repeat split; try done.
    apply Forall_insert; [done|]. split; auto.
  - unfold onTargetError. destruct (attempts st !! i) as [a|] eqn:L; [|done].
    pose proof (Forall_lookup_1 _ _ _ _ Hall L) as Ha.
    apply negb_true_iff in Hadm.
    destruct Ha as [Ht [Hc|He]]; [|congruence]. simpl. rewrite Hc. simpl.
    rewrite length_insert. repeat split; try done.
    apply Forall_insert; [done|]. split; auto.
  - rewrite length_alter. repeat split; try done.
    apply Forall_alter; [done|]. intros a _ Ha.
    by apply spent_targetReports.
  - rewrite length_alter. repeat split; try done.
    apply Forall_alter; [done|]. intros a _ Ha.
    by apply spent_clientReports.
  - unfold onConnectionTimeout.
    destruct (attempts st !! i) as [a|] eqn:L; [|done].
    pose proof (Forall_lookup_1 _ _ _ _ Hall L) as Ha.
    destruct Ha as [Ht Hc]. by rewrite Ht.
  - rewrite length_fmap. repeat split; try done.
    apply Forall_fmap. eapply Forall_impl; [exact Hall|].
    intros a Ha. by apply spent_socketErrorListener.
  - unfold onRetryTimer. by rewrite Htimers.
Qed.

Lemma run_spent this st tr :
  timers st = [] → Forall spent (attempts st) → wellFormed this st tr = true →
  length (attempts (run this st tr)) = length (attempts st)
  ∧ socketWrites (run this st tr) = socketWrites st
  ∧ delays (run this st tr) = delays st
  ∧ upgrades (run this st tr) = upgrades st
  ∧ (socketDestroyed st = true → socketDestroyed (run this st tr) = true).
Proof.
  revert st. induction tr as [|ev tr IH]; intros st Htimers Hall Hwf; [done|].
  simpl in Hwf. apply andb_true_iff in Hwf as [Hadm Hwf].
  destruct (step_spent this st ev Htimers Hall Hadm)
    as (H1 & H2 & H3 & H4 & H5 & H6 & H7).
  destruct (IH _ H1 H2 Hwf) as (I3 & I4 & I5 & I6 & I7).
  change (run this st (ev :: tr)) with (run this (step this st ev) tr).
  rewrite I3, I4, I5, I6, H3, H4, H5, H6. repeat split; auto.
Qed.

(** From a state whose last attempt [n] is pending, [k] retries away from
    the cap: the run in which attempt [n] and every later one fails. *)
Lemma failing_S fails n k :
  failing fails n (S k)
  = failureEvent n (fails n) :: RetryTimer false :: failing fails (S n) k.
Proof. reflexivity. Qed.

Lemma run_cons this st ev tr :
  run this st (ev :: tr) = run this (step this st ev) tr.
Proof. reflexivity. Qed.

(** The two outcomes of a retryable failure of a pending attempt: with a
    retry left the attempt is given up and a retry scheduled; with none the
    attempt is closed, the status line written and the socket destroyed. *)
Lemma failure_retry this n f st a :
  retryableFailure f →
  attempts st !! n = Some a →
  connectionClosed a = false → isUpgraded a = false →
  timeoutArmed a = true →
  retries st < maxRetries this →
  ∃ a', step this st (failureEvent n f)
        = scheduleRetry this (setAttempt n a' st)
        ∧ spent a'.
Proof.
  intros Hf Hlook Hopen Hnotup Harmed Hlt. destruct f as [e|]; simpl.
  - destruct Hf as [Hauth Htemp].
    exists (clearTimeout (targetReports CLOSING true a)). split.
    + unfold onTargetError. rewrite Hlook. simpl.
      rewrite Hopen, Hauth, Htemp, Hnotup.
      by rewrite (proj2 (Nat.ltb_lt _ _) Hlt).
    + split; simpl; auto.
  - exists (close (clearTimeout a)). split.
    + unfold onConnectionTimeout. rewrite Hlook, Harmed. simpl.
      rewrite Hopen, Hnotup. simpl.
      by rewrite (proj2 (Nat.ltb_lt _ _) Hlt).
    + split; simpl; auto.
Qed.

Lemma failure_exhausted this n f st a :
  retryableFailure f →
  attempts st !! n = Some a →
  connectionClosed a = false → isUpgraded a = false →
  timeoutArmed a = true →
  maxRetries this ≤ retries st →
  ∃ a', step this st (failureEvent n f)
        = setAttempt n a' (destroy (write (failureStatus f) st))
        ∧ spent a'.
Proof.
  intros Hf Hlook Hopen Hnotup Harmed Hge. destruct f as [e|]; simpl.
  - destruct Hf as [Hauth Htemp].
    exists (close (clearTimeout (targetReports CLOSING true a))). split.
    + unfold onTargetError. rewrite Hlook. simpl.
      rewrite Hopen, Hauth, Htemp, Hnotup.
      by rewrite (proj2 (Nat.ltb_ge _ _) Hge).
    + split; simpl; auto.
  - exists (closeTarget (close (clearTimeout a))). split.
    + unfold onConnectionTimeout. rewrite Hlook, Harmed. simpl.
      rewrite Hopen, Hnotup. simpl.
      by rewrite (proj2 (Nat.ltb_ge _ _) Hge).
    + unfold closeTarget.
      destruct (readyState_eqb _ _); split; simpl; auto.
Qed.

(** From a state whose last attempt [n] is pending, [k] retries away from
    the cap: the run in which attempt [n] and every later one fails, by an
    error or by a timeout. *)
Lemma run_failing this fails k :
  (∀ n, retryableFailure (fails n)) →
  ∀ st n a,
    retries st + k = maxRetries this →
    timers st = [] →
    length (attempts st) = S n →
    attempts st !! n = Some a →
    connectionClosed a = false → isUpgraded a = false →
    timeoutArmed a = true →
    (∀ j b, j < n → attempts st !! j = Some b → spent b) →
    let st' := run this st (failing fails n (S k)) in
    length (attempts st') = S n + k
    ∧ delays st' = delays st ++ linearBackoff this (S (retries st)) k
    ∧ socketWrites st' = socketWrites st ++ [failureStatus (fails (n + k))]
    ∧ socketDestroyed st' = true
    ∧ timers st' = []
    ∧ Forall spent (attempts st').
Proof.
  intros Hfails. induction k as [|k IH];
    intros st n a Hk Htimers Hlen Hlook Hopen Hnotup Harmed Hbefore st';
    subst st'; rewrite failing_S; do 2 rewrite run_cons.
  - destruct (failure_exhausted this n (fails n) st a) as (a' & -> & Ha');
      try done; try lia.
    simpl step. unfold onRetryTimer, setAttempt. simpl. rewrite Htimers. simpl.
    rewrite length_insert, app_nil_r, Nat.add_0_r.
    repeat split; try done; try lia.
    apply Forall_lookup. intros j b Hj.
    destruct (decide (j = n)) as [->|Hne].
    + rewrite list_lookup_insert_eq in Hj by lia. by injection Hj as <-.
    + rewrite list_lookup_insert_ne in Hj by done.
      apply (Hbefore j b); [|done].
      apply lookup_lt_Some in Hj. lia.
  - destruct (failure_retry this n (fails n) st a) as (a' & -> & Ha');
      try done; try lia.
    remember (failing fails (S n) (S k)) as tail eqn:Htail.
    simpl step.
    unfold onRetryTimer, scheduleRetry, setAttempt, attemptConnection.
    simpl. rewrite Htimers. simpl. subst tail.
    match goal with |- context [run this ?s (failing fails (S n) (S k))] =>
      set (st1 := s) end.
    destruct (IH st1 (S n) newAttempt) as (I1 & I2 & I3 & I4 & I5 & I6).
    + simpl. lia.
    + done.
    + simpl. rewrite length_app, length_insert. simpl. lia.
    + simpl. rewrite lookup_app_r by (rewrite length_insert; lia).
      rewrite length_insert, Hlen, Nat.sub_diag. done.
    + done.
    + done.
    + done.
    + intros j b Hj. simpl.
      rewrite lookup_app_l by (rewrite length_insert; lia).
      destruct (decide (j = n)) as [->|Hne].
      * rewrite list_lookup_insert_eq by lia. by intros [= <-].
      * rewrite list_lookup_insert_ne by done.
        apply Hbefore. lia.
    + rewrite I1, I2, I3. simpl.
      replace (n + S k) with (S (n + k)) by lia.
      repeat split; try done; try lia.
      unfold linearBackoff. simpl. by rewrite <- app_assoc.
Qed.





(** *** At most one upgrade *)

Lemma liveCount_app l1 l2 : liveCount (l1 ++ l2) = liveCount l1 + liveCount l2.
Proof. induction l1 as [|a l1 IH]; simpl; [done|]. rewrite IH. lia. Qed.

Lemma liveCount_insert l i a a' :
  l !! i = Some a →
  liveCount (<[i:=a']> l) + (if live a then 1 else 0)
  = liveCount l + (if live a' then 1 else 0).
Proof.
  revert i. induction l as [|b l IH]; intros [|i] H; simpl in *; try done.
  - injection H as ->. lia.
  - specialize (IH i H). lia.
Qed.

Lemma liveCount_alter f l i :
  (∀ a, live (f a) = live a) → liveCount (alter f i l) = liveCount l.
Proof.
  intros Hf. revert i. induction l as [|b l IH]; intros [|i]; simpl; try done.
  - by rewrite Hf.
  - f_equal. apply IH.
Qed.

Lemma liveCount_lookup l i a :
  l !! i = Some a → (if live a then 1 else 0) ≤ liveCount l.
Proof.
  revert i. induction l as [|b l IH]; intros [|i] H; simpl in *; try done.
  - injection H as ->. lia.
  - specialize (IH i H). lia.
Qed.

Lemma liveCount_lookup2 l i j a b :
  i ≠ j → l !! i = Some a → l !! j = Some b →
  (if live a then 1 else 0) + (if live b then 1 else 0) ≤ liveCount l.
Proof.
  revert i j. induction l as [|c l IH]; intros [|i] [|j] Hne Hi Hj;
    simpl in *; try done.
  - injection Hi as ->. pose proof (liveCount_lookup l j b Hj). lia.
  - injection Hj as ->. pose proof (liveCount_lookup l i a Hi). lia.
  - assert (i ≠ j) as Hne' by lia. specialize (IH i j Hne' Hi Hj). lia.
Qed.

(** With at most one live attempt, a live one is the only one. *)
Lemma live_unique l i j a b :
  liveCount l ≤ 1 → l !! i = Some a → l !! j = Some b →
  live a = true → live b = true → i = j.
Proof.
  intros Hle Hi Hj Ha Hb. destruct (decide (i = j)) as [|Hne]; [done|].
  pose proof (liveCount_lookup2 l i j a b Hne Hi Hj) as H.
  rewrite Ha, Hb in H. lia.
Qed.

Lemma liveCount_socketError l : liveCount (socketErrorListener <$> l) = 0.
Proof.
  induction l as [|a l IH]; csimpl; [done|]. rewrite IH.
  unfold socketErrorListener, closeTarget, live.
  destruct (connectionClosed a) eqn:E; simpl; [by rewrite E|].
  by destruct (readyState_eqb (targetState a) CLOSED).
Qed.

Lemma invariant_start this throws : invariant (handleWebSocketUpgrade this throws).
Proof.
  unfold handleWebSocketUpgrade, attemptConnection, invariant.
  destruct throws; [destruct (retries idle <? maxRetries this)|]; simpl;
    repeat split; try done; try lia; repeat constructor.
Qed.

(** Replacing attempt [i] by one that is not newly live, not newly armed
    and no less upgraded. *)
Lemma invariant_setAttempt st i a a' :
  invariant st → attempts st !! i = Some a →
  (live a' = true → live a = true) →
  (timeoutArmed a' = true → live a' = true) →
  (isUpgraded a = true → isUpgraded a' = true) →
  invariant (setAttempt i a' st).
Proof.
  intros (Hcount & Harmed & Hle & Hrel & Hup) Hi Hlive Harm Hupg.
  pose proof (liveCount_insert _ _ _ a' Hi) as Hins.
  unfold invariant, setAttempt. simpl. repeat split; try done.
  - destruct (live a') eqn:E; [rewrite Hlive in Hins by done|];
      destruct (live a); lia.
  - by apply Forall_insert.
  - by apply Hup.
  - apply Forall_insert; [by apply Hup|].
    intros Ha'. apply Hupg.
    destruct (Hup H) as [_ Hall].
    apply (Forall_lookup_1 _ _ _ _ Hall Hi). by apply Hlive.
Qed.

(** A live attempt that is not upgraded rules the upgrade out. *)
Lemma invariant_not_upgraded st i a :
  invariant st → attempts st !! i = Some a →
  live a = true → isUpgraded a = false →
  upgrades st = 0 ∧ timers st = [] ∧ liveCount (attempts st) = 1.
Proof.
  intros (Hcount & Harmed & Hle & Hrel & Hup) Hi Hlive Hnot.
  pose proof (liveCount_lookup _ _ _ Hi) as Hone. rewrite Hlive in Hone.
  assert (upgrades st ≠ 1) as Hne.
  { intros H1. destruct (Hup H1) as [_ Hall].
    pose proof (Forall_lookup_1 _ _ _ _ Hall Hi Hlive). congruence. }
  repeat split; try lia.
  destruct (timers st); simpl in *; [done | lia].
Qed.

Lemma invariant_scheduleRetry this st i a a' :
  invariant st → attempts st !! i = Some a →
  live a = true → isUpgraded a = false →
  live a' = false → timeoutArmed a' = false →
  invariant (scheduleRetry this (setAttempt i a' st)).
Proof.
  intros Hinv Hi Hlive Hnot Hdead Hunarmed.
  destruct (invariant_not_upgraded st i a Hinv Hi Hlive Hnot)
    as (Hup0 & Htimers & Hone).
  destruct Hinv as (Hcount & Harmed & Hle & Hrel & Hup).
  pose proof (liveCount_insert _ _ _ a' Hi) as Hins.
  rewrite Hlive, Hdead in Hins.
  unfold invariant, scheduleRetry, setAttempt. simpl.
  rewrite Htimers. simpl. repeat split; try done; try lia.
  apply Forall_insert; [done|]. congruence.
Qed.

Lemma invariant_upgraded st i a a' call :
  invariant st → attempts st !! i = Some a →
  live a = true → isUpgraded a = false →
  live a' = true → isUpgraded a' = true → timeoutArmed a' = false →
  invariant
    {| retries := retries st; attempts := <[i:=a']> (attempts st);
       timers := timers st; delays := delays st;
       socketWrites := socketWrites st;
       socketDestroyed := socketDestroyed st;
       upgrades := S (upgrades st); relays := relays st ++ [call];
       clientCloses := clientCloses st |}.
Proof.
  intros Hinv Hi Hlive Hnot Hlive' Hupg Hunarmed.
  destruct (invariant_not_upgraded st i a Hinv Hi Hlive Hnot)
    as (Hup0 & Htimers & Hone).
  destruct Hinv as (Hcount & Harmed & Hle & Hrel & Hup).
  pose proof (liveCount_insert _ _ _ a' Hi) as Hins.
  rewrite Hlive, Hlive' in Hins.
  unfold invariant. simpl. rewrite Htimers, length_app. simpl.
  repeat split; try done; try lia.
  - apply Forall_insert; [done|]. congruence.
  - apply Forall_lookup. intros j b Hj Hb.
    destruct (decide (j = i)) as [->|Hne].
    + rewrite list_lookup_insert_eq in Hj by (by eapply lookup_lt_Some).
      by injection Hj as <-.
    + rewrite list_lookup_insert_ne in Hj by done.
      destruct Hne. eapply (live_unique (attempts st)); eauto. lia.
Qed.

Lemma invariant_armed st i a :
  invariant st → attempts st !! i = Some a →
  timeoutArmed a = true → live a = true.
Proof.
  intros (_ & Harmed & _) Hi. apply (Forall_lookup_1 _ _ _ _ Harmed Hi).
Qed.

Ltac live_facts :=
  unfold live, closeTarget in *; simpl in *;
  repeat match goal with
         | H : negb _ = true |- _ => apply negb_true_iff in H
         | H : negb _ = false |- _ => apply negb_false_iff in H
         | H : ?x = true |- context [?x] => rewrite H
         | H : ?x = false |- context [?x] => rewrite H
         | |- context [readyState_eqb ?x ?y] => destruct (readyState_eqb x y)
         end;
  simpl in *; intros; try done; try congruence;
  try match goal with
      | H : ?P → _, H' : ?P |- _ => specialize (H H')
      end;
  repeat match goal with
         | H : ?x = true, H' : context [?x] |- _ => rewrite H in H'
         | H : ?x = false, H' : context [?x] |- _ => rewrite H in H'
         end;
  simpl in *; try done; try congruence.

Lemma onTargetOpen_invariant st i t :
  invariant st → admissible st (TargetOpen i t) = true →
  invariant (onTargetOpen i t st).
Proof.
  intros Hinv Hadm. unfold onTargetOpen. simpl in Hadm.
  destruct (attempts st !! i) as [a|] eqn:Hi; [|done].
  pose proof (invariant_armed st i a Hinv Hi) as Harm.
  simpl. destruct (connectionClosed a) eqn:Hc; simpl.
  { apply (invariant_setAttempt st i a); try done; live_facts. }
  destruct (isUpgraded a) eqn:Hu; simpl.
  { apply (invariant_setAttempt st i a); try done; live_facts. }
  destruct t.
  - destruct (socketDestroyed st) eqn:Hd.
    { apply (invariant_setAttempt st i a); try done; live_facts. }
    apply (invariant_upgraded st i a); try done; live_facts.
  - apply (invariant_setAttempt (destroy st) i a); try done; live_facts.
  - apply (invariant_setAttempt (destroy st) i a); try done; live_facts.
Qed.

Lemma onTargetError_invariant this st i e :
  invariant st → admissible st (TargetError i e) = true →
  invariant (onTargetError this i e st).
Proof.
  intros Hinv Hadm. unfold onTargetError. simpl in Hadm.
  destruct (attempts st !! i) as [a|] eqn:Hi; [|done].
  pose proof (invariant_armed st i a Hinv Hi) as Harm.
  simpl. destruct (connectionClosed a) eqn:Hc; simpl.
  { apply (invariant_setAttempt st i a); try done; live_facts. }
  destruct (isAuthenticationError e); simpl.
  { destruct (isUpgraded a) eqn:Hu; simpl.
    - apply (invariant_setAttempt st i a); try done; live_facts.
    - apply (invariant_setAttempt (destroy (write Unauthorized st)) i a);
        try done; live_facts. }
  destruct (isTemporaryError e && (retries st <? maxRetries this)
            && negb (isUpgraded a)) eqn:Hretry; simpl.
  { apply andb_true_iff in Hretry as [_ Hu].
    apply (invariant_scheduleRetry this st i a); try done; live_facts. }
  destruct (isUpgraded a) eqn:Hu; simpl.
  - destruct (clientWs a) as [[]|] eqn:Hws; simpl;
      apply (invariant_setAttempt st i a); try done;
      unfold clientClose; try destruct (Ws.closeRaises _ _); live_facts.
  - apply (invariant_setAttempt (destroy (write BadGateway st)) i a);
      try done; live_facts.
Qed.

Lemma onConnectionTimeout_invariant this st i :
  invariant st → invariant (onConnectionTimeout this i st).
Proof.
  intros Hinv. unfold onConnectionTimeout.
  destruct (attempts st !! i) as [a|] eqn:Hi; [|done].
  pose proof (invariant_armed st i a Hinv Hi) as Harm.
  destruct (timeoutArmed a) eqn:Ht; simpl; [|done].
  specialize (Harm eq_refl).
  destruct (negb (isUpgraded a) && negb (connectionClosed a)) eqn:Hgo; simpl.
  - apply andb_true_iff in Hgo as [Hu Hc].
    destruct (retries st <? maxRetries this).
    + apply (invariant_scheduleRetry this st i a); try done; live_facts.
    + apply (invariant_setAttempt (destroy (write GatewayTimeout st)) i a);
        try done; live_facts.
  - apply (invariant_setAttempt st i a); try done; live_facts.
Qed.

(** A change of the attempts that leaves their flags alone. *)
Lemma invariant_alter st f i :
  (∀ a, live (f a) = live a) →
  (∀ a, timeoutArmed (f a) = timeoutArmed a) →
  (∀ a, isUpgraded (f a) = isUpgraded a) →
  invariant st → invariant (setAttempts (alter f i (attempts st)) st).
Proof.
  intros Hlive Harm Hupg (Hcount & Harmed & Hle & Hrel & Hup).
  unfold invariant. simpl. rewrite liveCount_alter by done.
  repeat split; try done.
  - apply Forall_alter; [done|]. intros a _ Ha. by rewrite Hlive, Harm.
  - by apply Hup.
  - apply Forall_alter; [by apply Hup|]. intros a _ Ha.
    by rewrite Hlive, Hupg.
Qed.

Lemma onSocketError_invariant st : invariant st → invariant (onSocketError st).
Proof.
  intros (Hcount & Harmed & Hle & Hrel & Hup).
  unfold invariant, onSocketError. simpl. rewrite liveCount_socketError.
  assert (∀ a, live (socketErrorListener a) = false) as Hdead.
  { intros a. unfold socketErrorListener, closeTarget, live.
    destruct (connectionClosed a) eqn:E; simpl; [by rewrite E|].
    by destruct (readyState_eqb (targetState a) CLOSED). }
  repeat split; try done; try lia.
  - apply Forall_fmap, Forall_forall. intros a Ha. simpl.
    rewrite Forall_forall in Harmed. specialize (Harmed a Ha).
    unfold socketErrorListener, closeTarget.
    destruct (connectionClosed a) eqn:E; simpl.
    + intros Ht. specialize (Harmed Ht). unfold live in Harmed.
      by rewrite E in Harmed.
    + by destruct (readyState_eqb (targetState a) CLOSED).
  - by apply Hup.
  - apply Forall_fmap, Forall_forall. intros a Ha. simpl.
    by rewrite Hdead.
Qed.

Lemma onRetryTimer_invariant this st t :
  invariant st → invariant (onRetryTimer this t st).
Proof.
  intros Hinv. pose proof Hinv as (Hcount & Harmed & Hle & Hrel & Hup).
  unfold onRetryTimer.
  destruct (timers st) as [|d rest] eqn:Htimers; [exact Hinv|].
  simpl in Hcount.
  assert (liveCount (attempts st) = 0 ∧ rest = []) as [Hzero ->]
    by (destruct rest; simpl in *; split; try done; lia).
  assert (upgrades st = 0) as Hup0.
  { destruct (decide (upgrades st = 1)) as [H1|]; [|lia].
    by destruct (Hup H1). }
  unfold attemptConnection, scheduleRetry, invariant. simpl.
  destruct t; [destruct (retries st <? maxRetries this)|]; simpl;
    rewrite ?liveCount_app, ?Hzero; simpl;
    repeat split; try done; try lia.
  apply Forall_app. split; [done|]. by repeat constructor.
Qed.

Lemma step_invariant this st ev :
  invariant st → admissible st ev = true → invariant (step this st ev).
Proof.
  intros Hinv Hadm. destruct ev as [i t|i e|i|i|i| |t]; simpl.
  - by apply onTargetOpen_invariant.
  - by apply onTargetError_invariant.
  - by apply invariant_alter.
  - by apply invariant_alter.
  - by apply onConnectionTimeout_invariant.
  - by apply onSocketError_invariant.
  - by apply onRetryTimer_invariant.
Qed.

Lemma run_invariant this st tr :
  invariant st → wellFormed this st tr = true → invariant (run this st tr).
Proof.
  revert st. induction tr as [|ev tr IH]; intros st Hinv Hwf; [done|].
  simpl in Hwf. apply andb_true_iff in Hwf as [Hadm Hwf].
  rewrite run_cons. apply IH; [|done]. by apply step_invariant.
Qed.






End UpgradeFacts.

(** ** Relay session: errors, teardown and accounting *)

Module RelayTeardown.
Import Relay RelayFacts.

(** X1. In every state of a relay session, when one side reports an
    error, the session's own 'error' listener calls [close] on the other
    side, if it is open: with 1011 and 'Client connection error' when the
    client failed, and, when the target failed, with 1006 for ECONNRESET,
    1001 for ETIMEDOUT and 1011 for any other error and the reason 'Target
    error: ' followed by the error message. [ws] accepts the call for a
    client error, and the target starts closing; it refuses 1006 and a
    reason longer than 123 bytes, so for ECONNRESET and for such a message
    the call raises instead of closing the client, and otherwise the
    client starts closing. A side that is not open and the failing side
    get no call; nothing is sent to either side; the session is inactive
    afterwards; if it was active, its duration and counters are logged
    with the cause; and whatever events follow, that log entry stays the
    only one. (On the outbound socket this listener runs after the
    orchestrator's.) *)
Theorem error_propagation (r : relay) (now : Z) (s : side) (e : error) :
  reachable r →
  let r' := step r (now, Error s e) in
  let closeCode :=
    match s with
    | Client => 1011%Z
    | Target =>
        if codeIs e "ECONNRESET" then 1006%Z
        else if codeIs e "ETIMEDOUT" then 1001%Z else 1011%Z
    end in
  let reason :=
    match s with
    | Client => "Client connection error"
    | Target => "Target error: " +:+ message e
    end in
  let refused :=
    match s with
    | Client => false
    | Target => codeIs e "ECONNRESET" || (123 <? String.length reason)%nat
    end in
  Ws.closeRaises closeCode reason = refused
  ∧ closeCalls (peerOf (other s) r')
    = (if isOpen (peerOf (other s) r)
       then closeCalls (peerOf (other s) r) ++ [(closeCode, reason)]
       else closeCalls (peerOf (other s) r))
  ∧ (isOpen (peerOf (other s) r) && refused = false →
       state (peerOf (other s) r')
       = (if isOpen (peerOf (other s) r) then CLOSING
          else state (peerOf (other s) r)))
  ∧ closeCalls (peerOf s r') = closeCalls (peerOf s r)
  ∧ sent (client r') = sent (client r)
  ∧ sent (target r') = sent (target r)
  ∧ isProxyActive r' = false
  ∧ (isProxyActive r = true →
       LogCleanup (errorOn s (message e)) (now - startTime r)
         (clientToTarget r) (targetToClient r) ∈ log r')
  ∧ (∀ tr, cleanups (run r' tr) = 1).
Proof.
  intros Hr r' closeCode reason refused.
  assert (isProxyActive r' = false) as Hinactive
    by (subst r'; destruct s; crush_relay).
  assert (Ws.closeRaises closeCode reason = refused) as Hrefused.
  { subst closeCode reason refused. destruct s; [reflexivity|].
    unfold Ws.closeRaises.
    destruct (codeIs e "ECONNRESET"); [done|].
    by destruct (codeIs e "ETIMEDOUT"). }
  destruct (onError_peers now s e (setPeer s (closing (peerOf s r)) r))
    as [Hother Hself].
  fold closeCode reason in Hother.
  rewrite setPeer_other in Hother. rewrite setPeer_same in Hself.
  change (onError now s e (setPeer s (closing (peerOf s r)) r)) with r'
    in Hother, Hself.
  split; [exact Hrefused|].
  repeat split.
  - rewrite Hother. by destruct (isOpen (peerOf (other s) r)).
  - intros Hcase. rewrite Hother.
    destruct (isOpen (peerOf (other s) r)); [|done].
    simpl in *. by rewrite Hrefused, Hcase.
  - by rewrite Hself.
  - subst r'. destruct s; crush_relay.
  - subst r'. destruct s; crush_relay.
  - exact Hinactive.
  - intros Hact. subst r'. clear Hinactive Hother Hself.
    destruct s; crush_relay;
      rewrite ?elem_of_app, ?list_elem_of_singleton; auto.
  - intros tr. apply run_cleanups_once; [|done].
    by apply reachable_invariant, reachable_step.
Qed.

Lemma error_propagation_witness :
  closeCalls (client (step established (10%Z, Error Target connectionReset)))
    = [(1006%Z, "Target error: read ECONNRESET")]
  ∧ Ws.closeRaises 1006 "Target error: read ECONNRESET" = true
  ∧ state (target
      (step established
         (10%Z, Error Client {| code := None; message := "socket hang up" |})))
    = CLOSING.
Proof.
  assert (reachable established) as Hr
    by (exists 0%Z, (Some OPEN), (Some OPEN), established, []; done).
  destruct (error_propagation established 10%Z Target connectionReset Hr)
    as (Hraises & Hclose & _).
  destruct (error_propagation established 10%Z Client
              {| code := None; message := "socket hang up" |} Hr)
    as (_ & _ & Hstate & _).
  split; [exact Hclose | split; [exact Hraises | exact (Hstate eq_refl)]].
Defined.

Ltac use_hyps :=
  repeat match goal with
         | H : ?P → _, H' : ?P |- _ => specialize (H H')
         | H : ?a = ?a → _ |- _ => specialize (H eq_refl)
         end.

(** What one event does to one socket: it leaves the [close] calls as
    they are and does not open the socket, or it is one [close] call on
    the socket, which was open. *)
Lemma step_peer r ev s :
  (closeCalls (peerOf s (step r ev)) = closeCalls (peerOf s r)
   ∧ (isOpen (peerOf s (step r ev)) = true → isOpen (peerOf s r) = true))
  ∨ (isOpen (peerOf s r) = true
     ∧ ∃ c reason, peerOf s (step r ev) = closeWith c reason (peerOf s r)).
Proof.
  destruct ev as [now []]; destruct s; crush_relay;
    first [ by left | right; split; [done|]; by eexists _, _ | idtac ].
  all: try (left; split; [done|]; simpl; by destruct (state _)).
Qed.

Lemma refused_filter l :
  Forall (λ call, accepted call = false) l →
  filter (λ call, accepted call = true) l = [].
Proof.
  induction 1 as [|x l Hx _ IH]; [done|].
  rewrite filter_cons_False by congruence. exact IH.
Qed.

Lemma closeWith_closedOnce c reason p :
  closedOnce p → isOpen p = true → closedOnce (closeWith c reason p).
Proof.
  intros [Hone Hopen] Hp. specialize (Hopen Hp).
  unfold closedOnce, closeWith, isOpen. simpl.
  rewrite filter_app, length_app, (refused_filter _ Hopen), Forall_app.
  destruct (Ws.closeRaises c reason) eqn:E.
  - rewrite filter_cons_False by (unfold accepted; simpl; rewrite E; done).
    split; [simpl; lia|]. intros _. split; [done|].
    repeat constructor. unfold accepted. simpl. by rewrite E.
  - rewrite filter_cons_True by (unfold accepted; simpl; rewrite E; done).
    split; [simpl; lia | done].
Qed.

Lemma step_closedOnce r ev s :
  closedOnce (peerOf s r) → closedOnce (peerOf s (step r ev)).
Proof.
  intros Hp.
  destruct (step_peer r ev s) as [[Hcalls Hopen]|(Hopen & c & reason & ->)].
  - destruct Hp as [Hone Hnone]. unfold closedOnce. rewrite Hcalls.
    split; [done|]. intros H. apply Hnone, Hopen, H.
  - by apply closeWith_closedOnce.
Qed.

Lemma establishWebSocketProxy_closedOnce now c t r0 s :
  establishWebSocketProxy now c t = Some r0 → closedOnce (peerOf s r0).
Proof.
  unfold establishWebSocketProxy. destruct c as [c|], t as [t|]; try done.
  case_match; [done|]. intros [= <-]. unfold closedOnce.
  destruct s; simpl; split; by try constructor.
Qed.

Lemma reachable_closedOnce r s : reachable r → closedOnce (peerOf s r).
Proof.
  intros (now & c & t & r0 & tr & H & ->).
  apply (establishWebSocketProxy_closedOnce _ _ _ _ s) in H.
  revert r0 H. induction tr as [|ev tr IH]; intros r0 Hs; [done|].
  simpl. by apply IH, step_closedOnce.
Qed.

(** X2. In every state of a relay session and for either side: [ws] has
    accepted at most one [close] call of the session on that socket, a
    refused call, which raises, not being one; it has accepted none while
    the socket is still open; and an event makes the session call [close]
    only on a socket that is open. *)
Theorem close_accepted_at_most_once (r : relay) (s : side) :
  reachable r →
  length (filter (λ call, accepted call = true) (closeCalls (peerOf s r))) ≤ 1
  ∧ (isOpen (peerOf s r) = true →
       Forall (λ call, accepted call = false) (closeCalls (peerOf s r)))
  ∧ ∀ ev, closeCalls (peerOf s (step r ev)) ≠ closeCalls (peerOf s r) →
          isOpen (peerOf s r) = true.
Proof.
  intros [Hone Hnone]%(reachable_closedOnce r s).
  split; [done | split; [done|]].
  intros ev Hne.
  destruct (step_peer r ev s) as [[Hcalls _]|[Hopen _]]; [by destruct Hne | done].
Qed.

Lemma close_accepted_at_most_once_witness :
  length (filter (λ call, accepted call = true)
    (closeCalls (target
      (run established
         [(10%Z, Close Client 1000 (text "bye"));
          (11%Z, Error Client connectionReset);
          (12%Z, Close Client 1006 undefined)])))) ≤ 1.
Proof.
  assert (reachable (run established
       [(10%Z, Close Client 1000 (text "bye"));
        (11%Z, Error Client connectionReset);
        (12%Z, Close Client 1006 undefined)])) as Hr
    by (exists 0%Z, (Some OPEN), (Some OPEN), established,
          [(10%Z, Close Client 1000 (text "bye"));
           (11%Z, Error Client connectionReset);
           (12%Z, Close Client 1006 undefined)]; done).
  apply (close_accepted_at_most_once _ Target Hr).
Defined.

Lemma step_accounted r ev : accounted r → accounted (step r ev).
Proof.
  unfold accounted. intros (Hc & Ht & Hlog).
  destruct ev as [now []]; crush_relay.
  all: rewrite ?length_app; simpl; repeat split; try lia.
  all: match goal with
       | H : LogCleanup _ _ _ _ ∈ _ |- _ =>
           rewrite ?elem_of_app, ?list_elem_of_singleton in H
       end;
    repeat match goal with H : _ ∨ _ |- _ => destruct H end;
    try discriminate;
    try match goal with
        | H : LogCleanup _ _ _ _ = LogCleanup _ _ _ _ |- _ =>
            injection H as ? ? ? ?; congruence
        end;
    try match goal with
        | H : _ ∈ log _ |- _ =>
            destruct (Hlog _ _ _ _ H) as (? & ? & ?); congruence
        end.
Qed.

Lemma establishWebSocketProxy_accounted now c t r0 :
  establishWebSocketProxy now c t = Some r0 → accounted r0.
Proof.
  unfold establishWebSocketProxy. destruct c as [c|], t as [t|]; try done.
  case_match; [done|]. intros [= <-]. unfold accounted. simpl.
  repeat split; try done.
  all: match goal with
       | H : _ ∈ [LogEstablished] |- _ =>
           apply list_elem_of_singleton in H; discriminate
       end.
Qed.

Lemma reachable_accounted r : reachable r → accounted r.
Proof.
  intros (now & c & t & r0 & tr & H & ->).
  apply establishWebSocketProxy_accounted in H.
  revert r0 H. induction tr as [|ev tr IH]; intros r0 H; [done|].
  simpl. by apply IH, step_accounted.
Qed.

Lemma step_inactive_sent r ev s :
  isProxyActive r = false → sent (peerOf s (step r ev)) = sent (peerOf s r).
Proof. destruct ev as [now []], s; intros H; crush_relay. Qed.

Lemma run_inactive_sent r tr s :
  isProxyActive r = false → sent (peerOf s (run r tr)) = sent (peerOf s r).
Proof.
  revert r. induction tr as [|ev tr IH]; intros r H; [done|].
  simpl. rewrite IH by (by apply step_stays_inactive).
  by apply step_inactive_sent.
Qed.

(** X3. In every state of a relay session the two direction counters are
    the numbers of payloads handed to [send] on the target and on the
    client; a cleanup entry in the log, which only an inactive session
    has, shows these totals; and once the session is inactive no event
    whatsoever hands a payload to either side. *)
Theorem counters_count_sent (r : relay) :
  reachable r →
  clientToTarget r = length (sent (target r))
  ∧ targetToClient r = length (sent (client r))
  ∧ (∀ why duration toTarget fromTarget,
       LogCleanup why duration toTarget fromTarget ∈ log r →
       isProxyActive r = false
       ∧ toTarget = length (sent (target r))
       ∧ fromTarget = length (sent (client r)))
  ∧ (isProxyActive r = false →
       ∀ tr s, sent (peerOf s (run r tr)) = sent (peerOf s r)).
Proof.
  intros (Hc & Ht & Hlog)%reachable_accounted.
  repeat split; try done.
  - by destruct (Hlog _ _ _ _ H).
  - destruct (Hlog _ _ _ _ H) as (_ & -> & _). done.
  - destruct (Hlog _ _ _ _ H) as (_ & _ & ->). done.
  - intros Hact tr s. by apply run_inactive_sent.
Qed.

Lemma counters_count_sent_witness :
  clientToTarget
    (run established
       [(1%Z, Message Client m1 None); (2%Z, Message Target m3 None);
        (3%Z, Message Client m2 (Some brokenPipe));
        (4%Z, Message Client m3 None)]) = 1
  ∧ targetToClient
    (run established
       [(1%Z, Message Client m1 None); (2%Z, Message Target m3 None);
        (3%Z, Message Client m2 (Some brokenPipe));
        (4%Z, Message Client m3 None)]) = 1.
Proof.
  assert (reachable (run established
       [(1%Z, Message Client m1 None); (2%Z, Message Target m3 None);
        (3%Z, Message Client m2 (Some brokenPipe));
        (4%Z, Message Client m3 None)])) as Hr
    by (exists 0%Z, (Some OPEN), (Some OPEN), established,
          [(1%Z, Message Client m1 None); (2%Z, Message Target m3 None);
           (3%Z, Message Client m2 (Some brokenPipe));
           (4%Z, Message Client m3 None)]; done).
  destruct (counters_count_sent _ Hr) as (Hc & Ht & _).
  split; [exact Hc | exact Ht].
Defined.

(** X4. When [send] raises while an active session forwards a message
    to an open side, in the routed and in the single-target proxy alike:
    nothing is handed on, no counter moves, and the side that refused the
    message is left as it is. If the error has the code EPIPE or a
    message containing 'not connected', the session becomes inactive,
    logs its duration and counters with the cause, and calls [close] with
    1006 and 'Connection lost' on the side the message came from, if it is
    open; [ws] refuses 1006, so the call raises out of the [catch] block
    instead of closing that side. Any other error leaves the session
    active and both sides as they are. *)
Theorem send_failure (outgoing : Buffer → Buffer) (r : relay) (now : Z)
    (from : side) (data : Buffer) (e : error) :
  isProxyActive r = true →
  isOpen (peerOf (other from) r) = true →
  let r' := forwardMessageWith outgoing now from data (Some e) r in
  peerOf (other from) r' = peerOf (other from) r
  ∧ sent (peerOf from r') = sent (peerOf from r)
  ∧ clientToTarget r' = clientToTarget r
  ∧ targetToClient r' = targetToClient r
  ∧ (connectionLost e = true →
       isProxyActive r' = false
       ∧ closeCalls (peerOf from r')
         = (if isOpen (peerOf from r)
            then closeCalls (peerOf from r) ++ [(1006%Z, "Connection lost")]
            else closeCalls (peerOf from r))
       ∧ Ws.closeRaises 1006 "Connection lost" = true
       ∧ (isOpen (peerOf from r) = false → peerOf from r' = peerOf from r)
       ∧ LogCleanup (sendError (message e)) (now - startTime r)
           (clientToTarget r) (targetToClient r) ∈ log r')
  ∧ (connectionLost e = false →
       isProxyActive r' = true ∧ peerOf from r' = peerOf from r).
Proof.
  intros Hact Hopen r'.
  assert (r' = let r1 := addLog (LogForwardError from (message e)) r in
               if connectionLost e
               then closeIfOpen from 1006 "Connection lost"
                      (cleanup now (sendError (message e)) r1)
               else r1) as ->.
  { subst r'. unfold forwardMessageWith, connectionLost.
    by rewrite Hact, Hopen. }
  simpl. destruct (connectionLost e).
  - pose proof (closeIfOpen_same from 1006 "Connection lost"
                  (cleanup now (sendError (message e))
                     (addLog (LogForwardError from (message e)) r))) as Hsame.
    pose proof (closeIfOpen_other from 1006 "Connection lost"
                  (cleanup now (sendError (message e))
                     (addLog (LogForwardError from (message e)) r))) as Hother.
    assert (∀ s, peerOf s (cleanup now (sendError (message e))
                             (addLog (LogForwardError from (message e)) r))
                 = peerOf s r) as Hpeer
      by (intros []; simpl; rewrite ?cleanup_client, ?cleanup_target; done).
    rewrite !Hpeer in Hsame, Hother.
    rewrite Hsame, Hother.
    repeat split; try done.
    + by destruct (isOpen (peerOf from r)).
    + unfold closeIfOpen, cleanup. rewrite Hpeer. simpl. rewrite Hact.
      by destruct (isOpen (peerOf from r)), from.
    + unfold closeIfOpen, cleanup. rewrite Hpeer. simpl. rewrite Hact.
      by destruct (isOpen (peerOf from r)), from.
    + unfold closeIfOpen, cleanup. rewrite Hpeer. simpl. rewrite Hact.
      by destruct (isOpen (peerOf from r)), from.
    + by destruct (isOpen (peerOf from r)).
    + by destruct (isOpen (peerOf from r)).
    + unfold closeIfOpen, cleanup. rewrite Hpeer. simpl. rewrite Hact.
      destruct (isOpen (peerOf from r)), from; simpl;
        rewrite !elem_of_app, !list_elem_of_singleton; auto.
  - repeat split; try done; by destruct from.
Qed.

Lemma send_failure_witness :
  isProxyActive (forwardMessage 3 Client m2 (Some brokenPipe) established)
    = false
  ∧ closeCalls (client (forwardMessage 3 Client m2 (Some brokenPipe) established))
    = [(1006%Z, "Connection lost")]
  ∧ Ws.closeRaises 1006 "Connection lost" = true
  ∧ target (forwardMessage 3 Client m2 (Some brokenPipe) established)
    = target established.
Proof.
  destruct (send_failure (λ data, data) established 3%Z Client m2 brokenPipe
              eq_refl eq_refl) as (Hother & _ & _ & _ & Hlost & _).
  destruct (Hlost eq_refl) as (Hinactive & Hclose & Hraises & _).
  split; [exact Hinactive | split; [exact Hclose | split; [exact Hraises|]]].
  exact Hother.
Defined.

(** X30. In every state of a relay session, when one side closes with a
    code and a reason, the session's 'close' listener calls [close] on the
    other side, if it is open, with that code, or 1000 when the code is 0,
    and with the text of that reason, or 'no reason' when the reason is
    absent or the empty string; a side that is not open and the closing
    side get no call. When [ws] accepts the arguments the other side
    starts closing; when it refuses them the call raises instead of
    closing the other side: this is so for 1005 and 1006, the codes of a
    'close' without a status code and of a dropped connection, whatever
    the reason, and it is not so for a valid code with a reason of at
    most 123 bytes, which is passed on unchanged. The session is inactive
    afterwards; if it was active, its duration and both counters are
    logged with the cause; and whatever events follow, that log entry
    stays the only one. *)
Theorem close_propagation (r : relay) (now : Z) (s : side) (c : Z)
    (reason : closeReason) :
  reachable r →
  let r' := step r (now, Close s c reason) in
  let refused := Ws.closeRaises (codeOr1000 c) (reasonStr reason) in
  closeCalls (peerOf (other s) r')
    = (if isOpen (peerOf (other s) r)
       then closeCalls (peerOf (other s) r) ++ [(codeOr1000 c, reasonStr reason)]
       else closeCalls (peerOf (other s) r))
  ∧ (isOpen (peerOf (other s) r) && refused = false →
       state (peerOf (other s) r')
       = (if isOpen (peerOf (other s) r) then CLOSING
          else state (peerOf (other s) r)))
  ∧ (c = 1005%Z ∨ c = 1006%Z → refused = true)
  ∧ (Ws.isValidStatusCode c = true →
     (String.length (reasonStr reason) ≤ 123)%nat →
     refused = false ∧ codeOr1000 c = c)
  ∧ closeCalls (peerOf s r') = closeCalls (peerOf s r)
  ∧ isProxyActive r' = false
  ∧ (isProxyActive r = true →
       LogCleanup (closedBy s c (reasonStr reason)) (now - startTime r)
         (clientToTarget r) (targetToClient r) ∈ log r')
  ∧ (∀ tr, cleanups (run r' tr) = 1)
  ∧ (∀ str, reasonStr (bytes str) = str)
  ∧ (∀ str, str ≠ "" → reasonStr (text str) = str).
Proof.
  intros Hr r' refused.
  assert (isProxyActive r' = false) as Hinactive
    by (subst r'; destruct s; crush_relay).
  destruct (onClose_peers now s c reason (setPeer s (reports CLOSED (peerOf s r)) r))
    as [Hother Hself].
  rewrite setPeer_other in Hother. rewrite setPeer_same in Hself.
  change (onClose now s c reason (setPeer s (reports CLOSED (peerOf s r)) r))
    with r' in Hother, Hself.
  repeat split.
  - rewrite Hother. by destruct (isOpen (peerOf (other s) r)).
  - rewrite Hother. destruct (isOpen (peerOf (other s) r)); [|done].
    simpl. fold refused. by destruct refused.
  - intros [->| ->]; reflexivity.
  - subst refused. unfold Ws.closeRaises, codeOr1000.
    destruct (Z.eqb_spec c 0) as [->|]; [done|].
    rewrite H. simpl. by apply Nat.ltb_ge.
  - unfold codeOr1000. destruct (Z.eqb_spec c 0) as [->|]; done.
  - by rewrite Hself.
  - exact Hinactive.
  - intros Hact. subst r'. clear Hinactive Hother Hself.
    destruct s; crush_relay;
      rewrite ?elem_of_app, ?list_elem_of_singleton; auto.
  - intros tr. apply run_cleanups_once; [|done].
    by apply reachable_invariant, reachable_step.
  - intros str Hstr. simpl. by destruct str.
Qed.

Lemma close_propagation_witness :
  closeCalls (target (step established (10%Z, Close Client 1000 (bytes "bye"))))
    = [(1000%Z, "bye")]
  ∧ state (target (step established (10%Z, Close Client 1000 (bytes "bye"))))
    = CLOSING
  ∧ cleanups
      (run (step established (10%Z, Close Client 1000 (bytes "bye")))
         [(10%Z, Error Target connectionReset)])
    = 1.
Proof.
  assert (reachable established) as Hr
    by (exists 0%Z, (Some OPEN), (Some OPEN), established, []; done).
  destruct (close_propagation established 10%Z Client 1000%Z (bytes "bye") Hr)
    as (Hclose & Hstate & _ & _ & _ & _ & _ & Honce & _).
  split; [exact Hclose | split; [exact (Hstate eq_refl) | apply Honce]].
Defined.

End RelayTeardown.

(** ** Text conversion of payloads *)

Lemma byteOfZ_ZOfByte b : Utf8.byteOfZ (Utf8.ZOfByte b) = b.
Proof.
  unfold Utf8.byteOfZ, Utf8.ZOfByte. by rewrite N2Z.id, Byte.of_to_N.
Qed.

Lemma decodeFrom_ascii data :
  Utf8.isAscii data = true →
  Utf8.decodeFrom Utf8.start (Utf8.ZOfByte <$> data) ≫= Utf8.encodeCodePoint
  = Utf8.ZOfByte <$> data.
Proof.
  induction data as [|b data IH]; [done|].
  unfold Utf8.isAscii. simpl. intros [Hb Hrest]%andb_true_iff.
  csimpl. unfold Utf8.feed, Utf8.lead. simpl. rewrite Hb. csimpl.
  unfold Utf8.encodeCodePoint at 1. rewrite Hb. simpl.
  f_equal. by apply IH.
Qed.

(** X5. A payload made of bytes below 0x80 only is its own text
    conversion: [data.toString()] sent as a text frame carries the bytes of
    [data]; so the single-target proxy hands such a payload on byte for
    byte. *)
Theorem toString_ascii (data : Buffer) :
  Utf8.isAscii data = true →
  Utf8.toString data = data
  ∧ ∀ r now from,
      Relay.isProxyActive r = true →
      Relay.isOpen (Relay.peerOf (Relay.other from) r) = true →
      Relay.sent (Relay.peerOf (Relay.other from)
                    (Proxy.forwardMessage now from data None r))
      = Relay.sent (Relay.peerOf (Relay.other from) r) ++ [data].
Proof.
  intros Hascii.
  assert (Utf8.toString data = data) as Hsame.
  { unfold Utf8.toString. rewrite decodeFrom_ascii by done.
    rewrite <- list_fmap_compose.
    rewrite <- (list_fmap_id data) at 2.
    apply list_fmap_ext. intros i b _. apply byteOfZ_ZOfByte. }
  split; [exact Hsame|].
  intros r now from Hact Hopen.
  destruct (RelayFacts.forwardMessageWith_delivered
              Utf8.toString now from data r Hact Hopen) as (Hsent & _).
  unfold Proxy.forwardMessage. by rewrite Hsent, Hsame.
Qed.

Lemma toString_ascii_witness :
  Utf8.toString Relay.m1 = Relay.m1.
Proof.
  apply (toString_ascii Relay.m1). reflexivity.
Defined.

(** *** Well-formed UTF-8 *)

Module Utf8Facts.
Import Utf8.
Local Open Scope Z_scope.

Lemma lor_shiftl_6 x l : 0 ≤ l < 64 → Z.lor (Z.shiftl x 6) l = 64 * x + l.
Proof.
  intros Hl. rewrite <- Z.add_nocarry_lor.
  - rewrite Z.shiftl_mul_pow2 by lia. lia.
  - assert (l = Z.land l (Z.ones 6)) as ->.
    { rewrite Z.land_ones by lia. symmetry. apply Z.mod_small. simpl. lia. }
    rewrite (Z.land_comm l), Z.land_assoc, Z.land_ones by lia.
    rewrite Z.shiftl_mul_pow2 by lia.
    rewrite Z.mod_mul by (simpl; lia). apply Z.land_0_l.
Qed.

Lemma below (P : Z → bool) (n : Z) :
  forallb P (seqZ 0 n) = true → ∀ z, 0 ≤ z < n → P z = true.
Proof.
  intros H z Hz. rewrite forallb_forall in H. apply H.
  apply list_elem_of_In, elem_of_seqZ. lia.
Qed.

Lemma lead2 h :
  0 ≤ h < 32 → Z.lor 0xC0 h = 192 + h ∧ Z.land (192 + h) 0x1F = h.
Proof.
  intros Hh.
  pose proof (below (λ h, (Z.lor 0xC0 h =? 192 + h)
                          && (Z.land (192 + h) 0x1F =? h)) 32 eq_refl h Hh)
    as [H1%Z.eqb_eq H2%Z.eqb_eq]%andb_true_iff.
  done.
Qed.

Lemma lead3 h :
  0 ≤ h < 16 → Z.lor 0xE0 h = 224 + h ∧ Z.land (224 + h) 0xF = h.
Proof.
  intros Hh.
  pose proof (below (λ h, (Z.lor 0xE0 h =? 224 + h)
                          && (Z.land (224 + h) 0xF =? h)) 16 eq_refl h Hh)
    as [H1%Z.eqb_eq H2%Z.eqb_eq]%andb_true_iff.
  done.
Qed.

Lemma lead4 h :
  0 ≤ h < 8 → Z.lor 0xF0 h = 240 + h ∧ Z.land (240 + h) 0x7 = h.
Proof.
  intros Hh.
  pose proof (below (λ h, (Z.lor 0xF0 h =? 240 + h)
                          && (Z.land (240 + h) 0x7 =? h)) 8 eq_refl h Hh)
    as [H1%Z.eqb_eq H2%Z.eqb_eq]%andb_true_iff.
  done.
Qed.

Lemma continuation l :
  0 ≤ l < 64 → Z.lor 0x80 l = 128 + l ∧ Z.land (128 + l) 0x3F = l.
Proof.
  intros Hl.
  pose proof (below (λ l, (Z.lor 0x80 l =? 128 + l)
                          && (Z.land (128 + l) 0x3F =? l)) 64 eq_refl l Hl)
    as [H1%Z.eqb_eq H2%Z.eqb_eq]%andb_true_iff.
  done.
Qed.

Ltac divlia := Z.div_mod_to_equations; lia.

Ltac bounds :=
  repeat match goal with
         | |- context [(?a <=? ?b)] => destruct (Z.leb_spec a b); try lia
         | |- context [(?a =? ?b)] => destruct (Z.eqb_spec a b); try lia
         end.

Ltac decode_step :=
  cbn [decodeFrom feed bytesNeeded lower upper codePoint start app];
  unfold lead; bounds;
  cbn [decodeFrom feed bytesNeeded lower upper codePoint start app andb];
  repeat match goal with
         | H : Z.land _ _ = _ |- _ => rewrite H
         end.

Ltac decode :=
  repeat (progress decode_step);
  rewrite !lor_shiftl_6 by lia; f_equal; lia.

Lemma scalar_range c :
  isScalar c = true → 0 ≤ c ≤ 0x10FFFF ∧ (c < 0xD800 ∨ 0xDFFF < c).
Proof. unfold isScalar. lia. Qed.

Lemma encodeCodePoint_bytes c :
  isScalar c = true →
  encodeCodePoint c =
    if c <=? 0x7F then [c]
    else if c <=? 0x7FF then [192 + c / 64; 128 + c mod 64]
    else if c <=? 0xFFFF then
      [224 + c / 4096; 128 + (c / 64) mod 64; 128 + c mod 64]
    else
      [240 + c / 262144; 128 + (c / 4096) mod 64; 128 + (c / 64) mod 64;
       128 + c mod 64].
Proof.
  intros [Hc _]%scalar_range. unfold encodeCodePoint.
  change 0x3F with (Z.ones 6).
  rewrite !Z.shiftr_div_pow2, !Z.land_ones by lia.
  change (2 ^ 6) with 64. change (2 ^ 12) with 4096.
  change (2 ^ 18) with 262144.
  destruct (Z.leb_spec c 0x7F); [done|].
  destruct (continuation (c mod 64)) as [-> _]; [divlia|].
  destruct (Z.leb_spec c 0x7FF).
  { destruct (lead2 (c / 64)) as [-> _]; [divlia|]. done. }
  destruct (continuation ((c / 64) mod 64)) as [-> _]; [divlia|].
  destruct (Z.leb_spec c 0xFFFF).
  { destruct (lead3 (c / 4096)) as [-> _]; [divlia|]. done. }
  destruct (continuation ((c / 4096) mod 64)) as [-> _]; [divlia|].
  destruct (lead4 (c / 262144)) as [-> _]; [divlia|]. done.
Qed.

Lemma decodeFrom_encodeCodePoint c rest :
  isScalar c = true →
  decodeFrom start (encodeCodePoint c ++ rest) = c :: decodeFrom start rest.
Proof.
  intros Hc. rewrite encodeCodePoint_bytes by done.
  apply scalar_range in Hc as [Hc Hs].
  destruct (Z.leb_spec c 0x7F).
  { by decode_step. }
  destruct (Z.leb_spec c 0x7FF).
  { set (h := c / 64). set (l := c mod 64).
    assert (c = 64 * h + l ∧ 0 ≤ h < 32 ∧ 0 ≤ l < 64) as (Hsum & Hh & Hl)
      by (subst h l; divlia).
    clearbody h l.
    pose proof (lead2 h Hh) as [_ Eh].
    pose proof (continuation l Hl) as [_ El].
    decode. }
  destruct (Z.leb_spec c 0xFFFF).
  { set (h := c / 4096). set (m := (c / 64) mod 64). set (l := c mod 64).
    assert (c = 4096 * h + 64 * m + l
            ∧ 0 ≤ h < 16 ∧ 0 ≤ m < 64 ∧ 0 ≤ l < 64)
      as (Hsum & Hh & Hm & Hl) by (subst h m l; divlia).
    clearbody h m l.
    pose proof (lead3 h Hh) as [_ Eh].
    pose proof (continuation m Hm) as [_ Em].
    pose proof (continuation l Hl) as [_ El].
    decode. }
  set (h := c / 262144). set (n := (c / 4096) mod 64).
  set (m := (c / 64) mod 64). set (l := c mod 64).
  assert (c = 262144 * h + 4096 * n + 64 * m + l
          ∧ 0 ≤ h < 8 ∧ 0 ≤ n < 64 ∧ 0 ≤ m < 64 ∧ 0 ≤ l < 64)
    as (Hsum & Hh & Hn & Hm & Hl) by (subst h n m l; divlia).
  clearbody h n m l.
  pose proof (lead4 h Hh) as [_ Eh].
  pose proof (continuation n Hn) as [_ En].
  pose proof (continuation m Hm) as [_ Em].
  pose proof (continuation l Hl) as [_ El].
  decode.
Qed.

Lemma ZOfByte_byteOfZ z : 0 ≤ z < 256 → ZOfByte (byteOfZ z) = z.
Proof.
  intros Hz. unfold ZOfByte, byteOfZ.
  destruct (Byte.of_N (Z.to_N z)) as [b|] eqn:E.
  - apply Byte.to_of_N in E. rewrite E. lia.
  - apply Byte.of_N_None_iff in E. lia.
Qed.

Lemma encodeCodePoint_range c :
  isScalar c = true → Forall (λ z, 0 ≤ z < 256) (encodeCodePoint c).
Proof.
  intros Hc. rewrite encodeCodePoint_bytes by done.
  apply scalar_range in Hc as [Hc _].
  repeat match goal with
         | |- context [(?a <=? ?b)] => destruct (Z.leb_spec a b)
         end;
    repeat constructor; divlia.
Qed.

Lemma encode_range text :
  forallb isScalar text = true →
  Forall (λ z, 0 ≤ z < 256) (text ≫= encodeCodePoint).
Proof.
  induction text as [|c text IH]; [constructor|].
  simpl. intros [Hc Htext]%andb_true_iff. csimpl.
  apply Forall_app. split; [by apply encodeCodePoint_range | by apply IH].
Qed.

Lemma decodeFrom_encode text :
  forallb isScalar text = true →
  decodeFrom start (text ≫= encodeCodePoint) = text.
Proof.
  induction text as [|c text IH]; [done|].
  simpl. intros [Hc Htext]%andb_true_iff. csimpl.
  rewrite decodeFrom_encodeCodePoint by done. f_equal. by apply IH.
Qed.

(** X6. The text conversion is the identity on well-formed UTF-8: for
    every text, given by its Unicode scalar values, [toString] of its
    UTF-8 encoding, sent as a text frame, carries the bytes of that
    encoding; so the single-target proxy hands a payload that is
    well-formed UTF-8, ASCII or not, on byte for byte. *)
Theorem toString_wellFormed (text : list Z) :
  forallb isScalar text = true →
  toString (encode text) = encode text
  ∧ ∀ r now from,
      Relay.isProxyActive r = true →
      Relay.isOpen (Relay.peerOf (Relay.other from) r) = true →
      Relay.sent (Relay.peerOf (Relay.other from)
                    (Proxy.forwardMessage now from (encode text) None r))
      = Relay.sent (Relay.peerOf (Relay.other from) r) ++ [encode text].
Proof.
  intros Htext.
  assert (toString (encode text) = encode text) as Hsame; [|split; [done|]].
  2: { intros r now from Hact Hopen.
       destruct (RelayFacts.forwardMessageWith_delivered
                   toString now from (encode text) r Hact Hopen)
         as (Hsent & _).
       unfold Proxy.forwardMessage. by rewrite Hsent, Hsame. }
  unfold toString, encode.
  rewrite <- list_fmap_compose.
  assert ((ZOfByte ∘ byteOfZ) <$> (text ≫= encodeCodePoint)
          = text ≫= encodeCodePoint) as ->.
  { rewrite <- (list_fmap_id (text ≫= encodeCodePoint)) at 2.
    apply Forall_fmap_ext. eapply Forall_impl; [by apply encode_range|].
    intros z Hz. by apply ZOfByte_byteOfZ. }
  by rewrite decodeFrom_encode.
Qed.

Lemma toString_wellFormed_witness :
  toString (encode [104; 233; 8364; 128512])
  = encode [104; 233; 8364; 128512].
Proof.
  apply (toString_wellFormed [104; 233; 8364; 128512]). reflexivity.
Defined.

End Utf8Facts.

(** ** Upgrade handshake orchestrator: outcomes of a session *)

Module UpgradeOutcomes.
Import Upgrade UpgradeFacts.

(** X7. When the first attempt of a session fails with an error that is
    neither taken for an authentication failure nor of the temporary class
    (a reset connection, for one), then, whatever [maxRetries] is and
    whatever events follow, the session has made that one attempt only, has
    scheduled no retry, has written 502 Bad Gateway and nothing else to the
    inbound socket, and has destroyed it. *)
Theorem other_error_is_fatal (this : WebSocketProxy) (e : error)
    (rest : list event) :
  isAuthenticationError e = false →
  isTemporaryError e = false →
  let st := run this (handleWebSocketUpgrade this false)
              (TargetError 0 e :: rest) in
  length (attempts st) = 1
  ∧ delays st = []
  ∧ socketWrites st = [BadGateway]
  ∧ socketDestroyed st = true
  ∧ upgrades st = 0.
Proof.
  intros Hauth Htemp st. subst st. simpl.
  unfold handleWebSocketUpgrade, onTargetError. simpl.
  rewrite Hauth, Htemp. simpl.
  match goal with |- context [run this ?s rest] => set (st1 := s) end.
  destruct (run_closed this st1 rest) as (H1 & H2 & H3 & H4 & H5).
  - done.
  - repeat constructor.
  - rewrite H1, H2, H3, H4, H5 by done. done.
Qed.

Lemma other_error_is_fatal_witness :
  socketWrites
    (run proxy (handleWebSocketUpgrade proxy false)
       [TargetError 0 hangUp; RetryTimer false; TargetOpen 0 Completes])
  = [BadGateway]
  ∧ length (attempts
      (run proxy (handleWebSocketUpgrade proxy false)
         [TargetError 0 hangUp; RetryTimer false; TargetOpen 0 Completes])) = 1.
Proof.
  destruct (other_error_is_fatal proxy hangUp
              [RetryTimer false; TargetOpen 0 Completes] eq_refl eq_refl)
    as (H1 & _ & H3 & _).
  split; [exact H3 | exact H1].
Defined.

(** *** The retry budget *)

Lemma linearBackoff_S this n :
  linearBackoff this 1 (S n)
  = linearBackoff this 1 n ++ [(retryDelay this * Z.of_nat (S n))%Z].
Proof.
  unfold linearBackoff. rewrite seq_S, fmap_app. simpl.
  by replace (1 + n) with (S n) by lia.
Qed.

#[local] Arguments linearBackoff : simpl never.

Ltac budget :=
  rewrite ?length_insert, ?length_alter, ?length_fmap, ?length_app,
    ?linearBackoff_S;
  simpl in *;
  repeat match goal with
         | H : _ && _ = true |- _ => apply andb_true_iff in H as [? ?]
         | H : (_ <? _) = true |- _ => apply Nat.ltb_lt in H
         | H : delays _ = _ |- _ => rewrite H
         | H : timers _ = _ |- _ => rewrite H
         end;
  simpl; repeat split; try done; try lia.

Lemma withinBudget_start this throws :
  withinBudget this (handleWebSocketUpgrade this throws).
Proof.
  unfold withinBudget, handleWebSocketUpgrade.
  destruct throws; crush_upgrade; budget.
Qed.

Lemma step_withinBudget this st ev :
  withinBudget this st → withinBudget this (step this st ev).
Proof.
  intros (Hle & Hdelays & Hlen). unfold withinBudget.
  destruct ev; crush_upgrade; budget.
Qed.

Lemma run_withinBudget this st tr :
  withinBudget this st → withinBudget this (run this st tr).
Proof.
  revert st. induction tr as [|ev tr IH]; intros st H; [done|].
  rewrite run_cons. by apply IH, step_withinBudget.
Qed.

(** X8. Whatever happens to an upgrade session, with no assumption on
    the order or the number of the events: it never schedules more than
    [maxRetries] retries, the retry number n is scheduled with the delay
    [retryDelay * n], and it never makes more than [maxRetries + 1]
    outbound connection attempts. *)
Theorem attempts_within_budget (this : WebSocketProxy) (throws : bool)
    (tr : list event) :
  let st := run this (handleWebSocketUpgrade this throws) tr in
  retries st ≤ maxRetries this
  ∧ delays st = linearBackoff this 1 (retries st)
  ∧ length (attempts st) ≤ maxRetries this + 1.
Proof.
  intros st.
  destruct (run_withinBudget this (handleWebSocketUpgrade this throws) tr
              (withinBudget_start this throws)) as (Hle & Hdelays & Hlen).
  fold st in Hle, Hdelays, Hlen. repeat split; try done. lia.
Qed.

(** *** One answer at most *)

Lemma dead_spent st :
  invariant st → liveCount (attempts st) = 0 → Forall spent (attempts st).
Proof.
  intros (_ & Harmed & _) Hzero. apply Forall_lookup. intros i a Hi.
  pose proof (liveCount_lookup _ _ _ Hi) as Hle.
  pose proof (Forall_lookup_1 _ _ _ _ Harmed Hi) as Harm. simpl in Harm.
  destruct (live a) eqn:Hlive; [lia|].
  split.
  - destruct (timeoutArmed a); [by specialize (Harm eq_refl) | done].
  - unfold live in Hlive.
    destruct (connectionClosed a), (targetErrored a); auto; discriminate.
Qed.

Lemma spent_dead l : Forall spent l → liveCount l = 0.
Proof.
  induction 1 as [|a l [_ Ha] _ IH]; [done|]. simpl. rewrite IH.
  unfold live. destruct Ha as [-> | ->]; [done|]. by rewrite andb_false_r.
Qed.

(** The status line written by an attempt that was pending. *)
Lemma answered_by_attempt st i a a' line :
  invariant st → attempts st !! i = Some a →
  live a = true → isUpgraded a = false → live a' = false →
  socketWrites st = [] →
  answered (setAttempt i a' (destroy (write line st))).
Proof.
  intros Hinv Hi Hlive Hnot Hdead Hnone.
  destruct (invariant_not_upgraded st i a Hinv Hi Hlive Hnot)
    as (Hup0 & Htimers & Hone).
  pose proof (liveCount_insert _ _ _ a' Hi) as Hins.
  rewrite Hlive, Hdead in Hins.
  unfold answered, setAttempt. simpl. rewrite Hnone.
  repeat split; try done. lia.
Qed.

Lemma step_answers this st ev :
  invariant st → admissible st ev = true → socketWrites st = [] →
  socketWrites (step this st ev) = [] ∨ answered (step this st ev).
Proof.
  intros Hinv Hadm Hnone. destruct ev as [i t|i e|i|i|i| |t]; simpl in *.
  - left. unfold onTargetOpen. crush_upgrade.
  - unfold onTargetError.
    destruct (attempts st !! i) as [a|] eqn:Hi; [|by left].
    simpl. destruct (connectionClosed a) eqn:Hc; simpl; [by left|].
    assert (live a = true) as Hlive by (unfold live; by rewrite Hc, Hadm).
    destruct (isAuthenticationError e); simpl.
    { destruct (isUpgraded a) eqn:Hu; simpl; [by left|]. right.
      by apply (answered_by_attempt st i a). }
    destruct (isTemporaryError e && (retries st <? maxRetries this)
              && negb (isUpgraded a)); simpl; [by left|].
    destruct (isUpgraded a) eqn:Hu; simpl.
    + left. by destruct (clientWs a) as [[]|].
    + right. by apply (answered_by_attempt st i a).
  - by left.
  - by left.
  - unfold onConnectionTimeout.
    destruct (attempts st !! i) as [a|] eqn:Hi; [|by left].
    pose proof (invariant_armed st i a Hinv Hi) as Harm.
    destruct (timeoutArmed a); simpl; [|by left].
    specialize (Harm eq_refl).
    destruct (negb (isUpgraded a) && negb (connectionClosed a)) eqn:Hgo;
      simpl; [|by left].
    apply andb_true_iff in Hgo as [Hu%negb_true_iff Hc%negb_true_iff].
    destruct (retries st <? maxRetries this); [by left|]. right.
    apply (answered_by_attempt st i a); try done.
    unfold closeTarget, live. simpl.
    by destruct (readyState_eqb (targetState a) CLOSED).
  - by left.
  - unfold onRetryTimer.
    destruct (timers st) as [|d rest] eqn:Htimers; [by left|].
    destruct Hinv as (Hcount & _ & Hle & _ & Hup).
    rewrite Htimers in Hcount. simpl in Hcount.
    assert (liveCount (attempts st) = 0 ∧ rest = []) as [Hzero ->]
      by (destruct rest; simpl in *; split; try done; lia).
    assert (upgrades st = 0) as Hup0.
    { destruct (decide (upgrades st = 1)) as [H1|]; [|lia].
      destruct (Hup H1) as [Hno _]. congruence. }
    unfold attemptConnection.
    destruct t; simpl; [|by left].
    destruct (retries st <? maxRetries this); simpl; [by left|].
    right. unfold answered. simpl. by rewrite Hnone.
Qed.

Lemma step_answered this st ev :
  invariant st → admissible st ev = true → answered st →
  answered (step this st ev)
  ∧ socketWrites (step this st ev) = socketWrites st.
Proof.
  intros Hinv Hadm (Hone & Hdestroyed & Hdead & Htimers & Hup).
  pose proof (dead_spent st Hinv Hdead) as Hspent.
  destruct (step_spent this st ev Htimers Hspent Hadm)
    as (H1 & H2 & _ & H4 & _ & H6 & H7).
  split; [|done]. unfold answered. rewrite H4, H6.
  repeat split; auto. by apply spent_dead.
Qed.

Lemma run_answers this st tr :
  invariant st → wellFormed this st tr = true →
  socketWrites st = [] ∨ answered st →
  socketWrites (run this st tr) = [] ∨ answered (run this st tr).
Proof.
  revert st. induction tr as [|ev tr IH]; intros st Hinv Hwf Hst; [done|].
  simpl in Hwf. apply andb_true_iff in Hwf as [Hadm Hwf].
  rewrite run_cons. apply IH; [by apply step_invariant | done |].
  destruct Hst as [Hnone | Hans].
  - by apply step_answers.
  - right. by apply step_answered.
Qed.

(** X9. Over any sequence of events that respects the [ws] contract, an
    upgrade session writes at most one status line to the inbound socket;
    when it has written one, the socket is destroyed, no retry is pending
    and the client has not been upgraded; and a session that has upgraded
    the client has written nothing to the socket. *)
Theorem at_most_one_response (this : WebSocketProxy) (req : request)
    (throws : bool) (tr : list event) :
  wellFormed this (onUpgrade this req throws) tr = true →
  let st := run this (onUpgrade this req throws) tr in
  length (socketWrites st) ≤ 1
  ∧ (socketWrites st ≠ [] →
       socketDestroyed st = true ∧ timers st = [] ∧ upgrades st = 0)
  ∧ (upgrades st = 1 → socketWrites st = []).
Proof.
  intros Hwf st.
  assert (invariant (onUpgrade this req throws)
          ∧ (socketWrites (onUpgrade this req throws) = []
             ∨ answered (onUpgrade this req throws))) as [Hinv Hstart].
  { unfold onUpgrade.
    destruct (negb (Js.truthyOpt (getTargetForPath this (pathname req)))).
    - split; [|right]; unfold invariant, answered; simpl;
        repeat split; try done; lia.
    - split; [apply invariant_start|].
      unfold handleWebSocketUpgrade, attemptConnection.
      destruct throws; [destruct (retries idle <? maxRetries this)|];
        [by left | right | by left].
      by unfold answered. }
  destruct (run_answers this _ tr Hinv Hwf Hstart)
    as [Hnone | (Hone & Hd & _ & Ht & Hup)].
  - fold st in Hnone. rewrite Hnone. simpl. repeat split; try done; lia.
  - fold st in Hone, Hd, Ht, Hup. repeat split; try done; try lia.
Qed.

Lemma at_most_one_response_witness :
  length (socketWrites
    (run twoRetries (onUpgrade twoRetries (requestFor "/chat") false)
       [TargetError 0 rejected401; ConnectionTimeout 0; RetryTimer true;
        SocketError])) ≤ 1.
Proof.
  apply (at_most_one_response twoRetries (requestFor "/chat") false
           [TargetError 0 rejected401; ConnectionTimeout 0; RetryTimer true;
            SocketError]).
  reflexivity.
Defined.

(** *** An error on the inbound socket *)

(** X10. In every state a session reaches by events that respect the
    [ws] contract, an error on the inbound socket makes it write nothing;
    every attempt is closed afterwards, its timer cleared, and the outbound
    socket of each attempt that was not yet closed gets one [close] call
    unless it is in the CLOSED state. The pending retry timer is not
    cancelled: when none is pending, no later event adds an attempt, a line
    or an upgrade; when one is pending, its firing starts a new attempt. *)
Theorem socket_error_aborts (this : WebSocketProxy) (throws : bool)
    (tr : list event) :
  wellFormed this (handleWebSocketUpgrade this throws) tr = true →
  let st := run this (handleWebSocketUpgrade this throws) tr in
  let st' := step this st SocketError in
  socketWrites st' = socketWrites st
  ∧ Forall closed (attempts st')
  ∧ (∀ i a, attempts st !! i = Some a → connectionClosed a = false →
       ∃ a', attempts st' !! i = Some a'
             ∧ targetCloseCalls a'
               = if readyState_eqb (targetState a) CLOSED
                 then targetCloseCalls a else S (targetCloseCalls a))
  ∧ timers st' = timers st
  ∧ (timers st = [] →
       ∀ rest,
         length (attempts (run this st' rest)) = length (attempts st)
         ∧ socketWrites (run this st' rest) = socketWrites st
         ∧ upgrades (run this st' rest) = upgrades st)
  ∧ (timers st ≠ [] →
       length (attempts (step this st' (RetryTimer false)))
       = S (length (attempts st))).
Proof.
  intros Hwf st st'.
  assert (invariant st) as (_ & Harmed & _)
    by (apply run_invariant; [apply invariant_start | done]).
  clearbody st.
  assert (Forall closed (attempts st')) as Hclosed.
  { subst st'. simpl. apply Forall_fmap, Forall_forall. intros a Ha. simpl.
    rewrite Forall_forall in Harmed. specialize (Harmed a Ha).
    unfold socketErrorListener, closeTarget, closed.
    destruct (connectionClosed a) eqn:Hc.
    - split; [|done]. destruct (timeoutArmed a); [|done].
      specialize (Harmed eq_refl). unfold live in Harmed.
      by rewrite Hc in Harmed.
    - simpl. by destruct (readyState_eqb (targetState a) CLOSED). }
  split; [done | split; [exact Hclosed | split; [|split; [done | split]]]].
  - intros i a Hi Hc. subst st'. simpl. rewrite list_lookup_fmap, Hi. simpl.
    eexists. split; [reflexivity|].
    unfold socketErrorListener, closeTarget. rewrite Hc. simpl.
    by destruct (readyState_eqb (targetState a) CLOSED).
  - intros Htimers rest.
    destruct (run_closed this st' rest) as (H1 & H2 & _ & H4 & _);
      [done | done |].
    rewrite H1, H2, H4. subst st'. simpl. by rewrite length_fmap.
  - intros Htimers. subst st'. simpl. unfold onRetryTimer. simpl.
    destruct (timers st); [done|]. simpl.
    rewrite length_app, length_fmap. simpl. lia.
Qed.

Lemma socket_error_aborts_witness :
  socketWrites
    (step twoRetries
       (run twoRetries (handleWebSocketUpgrade twoRetries false)
          [ConnectionTimeout 0])
       SocketError) = []
  ∧ length (attempts
      (step twoRetries
         (step twoRetries
            (run twoRetries (handleWebSocketUpgrade twoRetries false)
               [ConnectionTimeout 0])
            SocketError)
         (RetryTimer false))) = 2.
Proof.
  destruct (socket_error_aborts twoRetries false [ConnectionTimeout 0] eq_refl)
    as (Hnone & _ & _ & _ & _ & Hretry).
  split; [exact Hnone | apply Hretry; discriminate].
Defined.

(** *** Errors of the target after the upgrade *)

(** X11. When the outbound socket of an attempt that has upgraded the
    client, and is not closed, reports an error: nothing is written to the
    inbound socket, which is not destroyed, and no retry is scheduled,
    whatever the error and however many retries are left. An error whose
    message carries 401 or 403 leaves the client socket without a close
    call; for any other error the listener calls [close] on the client
    socket, if it is open, with 1006 when the error code is ECONNREFUSED
    and 1011 otherwise, and the reason 'Target server connection error'.
    [ws] accepts 1011, and the client starts closing; it refuses 1006, so
    for ECONNREFUSED the call raises instead of closing the client socket.
    Either way the attempt is closed, and a further error of that socket
    writes nothing, schedules nothing and calls nothing. *)
Theorem upgraded_target_error (this : WebSocketProxy) (st : session)
    (i : nat) (a : attempt) (e : error) :
  attempts st !! i = Some a →
  isUpgraded a = true → connectionClosed a = false →
  let st' := step this st (TargetError i e) in
  let closeCode := if codeIs e "ECONNREFUSED" then 1006%Z else 1011%Z in
  let called :=
    negb (isAuthenticationError e)
    && match clientWs a with Some OPEN => true | _ => false end in
  socketWrites st' = socketWrites st
  ∧ socketDestroyed st' = socketDestroyed st
  ∧ timers st' = timers st
  ∧ retries st' = retries st
  ∧ clientCloses st'
    = (if called
       then clientCloses st ++ [(closeCode, "Target server connection error")]
       else clientCloses st)
  ∧ Ws.closeRaises closeCode "Target server connection error"
    = codeIs e "ECONNREFUSED"
  ∧ (∃ a', attempts st' !! i = Some a' ∧ connectionClosed a' = true
           ∧ (called = false → clientWs a' = clientWs a)
           ∧ (called = true → codeIs e "ECONNREFUSED" = false →
              clientWs a' = Some CLOSING))
  ∧ ∀ e', step this st' (TargetError i e')
          = setAttempts (attempts (step this st' (TargetError i e'))) st'
          ∧ clientCloses (step this st' (TargetError i e')) = clientCloses st'.
Proof.
  intros Hi Hu Hc st' closeCode called.
  pose proof (lookup_lt_Some _ _ _ Hi) as Hlt.
  assert (Ws.closeRaises closeCode "Target server connection error"
          = codeIs e "ECONNREFUSED") as Hraises
    by (subst closeCode; by destruct (codeIs e "ECONNREFUSED")).
  assert (∃ a', attempts st' !! i = Some a' ∧ connectionClosed a' = true
                ∧ clientWs a'
                  = if called && negb (codeIs e "ECONNREFUSED")
                    then Some CLOSING else clientWs a)
    as (a' & Hi' & Hc' & Hws').
  { subst st' called closeCode. simpl. unfold onTargetError. rewrite Hi. simpl.
    rewrite Hc, Hu, andb_false_r. simpl.
    destruct (isAuthenticationError e); [|destruct (clientWs a) as [[]|] eqn:Hws];
      simpl; rewrite list_lookup_insert_eq by done; eexists;
      (split; [reflexivity|]); unfold clientClose; rewrite ?Hraises;
      destruct (codeIs e "ECONNREFUSED"); by split. }
  split; [|split; [|split; [|split; [|split; [|split; [exact Hraises|split]]]]]].
  1-5: subst st' called; simpl; unfold onTargetError; rewrite Hi; simpl;
    rewrite Hc, Hu, andb_false_r; simpl;
    destruct (isAuthenticationError e); [|destruct (clientWs a) as [[]|]];
    reflexivity.
  - exists a'. repeat split; [done|done|..].
    + intros Hcalled. by rewrite Hws', Hcalled.
    + intros Hcalled Hcode. by rewrite Hws', Hcalled, Hcode.
  - intros e'. clearbody st'. simpl. unfold onTargetError. rewrite Hi'. simpl.
    by rewrite Hc'.
Qed.

Lemma upgraded_target_error_witness :
  clientCloses
    (step proxy
       (run proxy (handleWebSocketUpgrade proxy false) [TargetOpen 0 Completes])
       (TargetError 0 hangUp))
  = [(1011%Z, "Target server connection error")]
  ∧ clientCloses
    (step proxy
       (run proxy (handleWebSocketUpgrade proxy false) [TargetOpen 0 Completes])
       (TargetError 0 refused))
  = [(1006%Z, "Target server connection error")]
  ∧ Ws.closeRaises 1006 "Target server connection error" = true
  ∧ socketWrites
    (step proxy
       (run proxy (handleWebSocketUpgrade proxy false) [TargetOpen 0 Completes])
       (TargetError 0 hangUp)) = [].
Proof.
  destruct (upgraded_target_error proxy
              (run proxy (handleWebSocketUpgrade proxy false)
                 [TargetOpen 0 Completes])
              0 (upgraded (clearTimeout (targetReports OPEN false newAttempt)))
              hangUp eq_refl eq_refl eq_refl)
    as (Hwrites & _ & _ & _ & Hcloses & _).
  destruct (upgraded_target_error proxy
              (run proxy (handleWebSocketUpgrade proxy false)
                 [TargetOpen 0 Completes])
              0 (upgraded (clearTimeout (targetReports OPEN false newAttempt)))
              refused eq_refl eq_refl eq_refl)
    as (_ & _ & _ & _ & Hcloses' & Hraises & _).
  split; [exact Hcloses | split; [exact Hcloses' | split; [exact Hraises|]]].
  exact Hwrites.
Defined.

(** *** What the constructor makes of the retry options *)

(** X12. The constructor reads [maxRetries], [retryDelay] and
    [connectionTimeout] with [||], so an option that is 0 or not given
    takes its default: the retry delay and the connect timeout of a proxy
    object are never 0, and a configured [maxRetries] of 0 becomes 3. A
    positive number is kept. With a [maxRetries] that is not negative, a
    first attempt that fails with a retryable error is therefore never
    answered at once: nothing is written and one retry is scheduled after
    [retryDelay]. A negative [maxRetries] allows as many retries as 0
    would, none at all: that failure is answered at once with 502 Bad
    Gateway and the socket destroyed. *)
Theorem constructor_retry_options (config : Config) (e : error) :
  retryable e →
  let this := new_WebSocketProxy config in
  let st := step this (handleWebSocketUpgrade this false) (TargetError 0 e) in
  retryDelay this ≠ 0%Z
  ∧ connectionTimeout this ≠ 0%Z
  ∧ (config_maxRetries config = Some 0%Z ∨ config_maxRetries config = None →
       maxRetries this = 3)
  ∧ (∀ n, config_maxRetries config = Some n → (0 < n)%Z →
          Z.of_nat (maxRetries this) = n)
  ∧ ((∀ n, config_maxRetries config = Some n → (0 ≤ n)%Z) →
       socketWrites st = [] ∧ timers st = [(retryDelay this * 1)%Z])
  ∧ (∀ n, config_maxRetries config = Some n → (n < 0)%Z →
          maxRetries this = 0
          ∧ socketWrites st = [BadGateway] ∧ socketDestroyed st = true
          ∧ timers st = []).
Proof.
  intros [Hauth Htemp] this st.
  assert (∀ n d, d ≠ 0%Z → orZ n d ≠ 0%Z) as Hor.
  { intros [v|] d Hd; simpl; [|done]. by destruct (Z.eqb_spec v 0). }
  assert (st = if (0 <? maxRetries this)
               then scheduleRetry this
                      (setAttempt 0
                         (clearTimeout (targetReports CLOSING true newAttempt))
                         (handleWebSocketUpgrade this false))
               else setAttempt 0
                      (close (clearTimeout (targetReports CLOSING true newAttempt)))
                      (destroy (write BadGateway
                                  (handleWebSocketUpgrade this false)))) as Hst.
  { subst st. clearbody this. simpl.
    unfold handleWebSocketUpgrade, onTargetError. simpl.
    rewrite Hauth, Htemp. simpl. by destruct (0 <? maxRetries this). }
  split; [subst this; simpl; by apply Hor|].
  split; [subst this; simpl; by apply Hor|].
  split; [intros [H0|H0]; subst this; simpl; by rewrite H0|].
  split.
  { intros n Hn Hpos. subst this. simpl. rewrite Hn. simpl.
    destruct (Z.eqb_spec n 0); lia. }
  split.
  - intros Hnonneg.
    assert ((0 <? maxRetries this) = true) as Hlt.
    { apply Nat.ltb_lt. subst this. simpl.
      destruct (config_maxRetries config) as [n|] eqn:E; simpl; [|lia].
      specialize (Hnonneg n eq_refl). destruct (Z.eqb_spec n 0); lia. }
    rewrite Hst, Hlt. by split.
  - intros n Hn Hneg.
    assert (maxRetries this = 0) as Hzero.
    { subst this. simpl. rewrite Hn. simpl. destruct (Z.eqb_spec n 0); lia. }
    rewrite Hst, Hzero. by repeat split.
Qed.

Lemma constructor_retry_options_witness :
  maxRetries (new_WebSocketProxy
    {| config_routes := None; config_protocolMap := None;
       config_defaultTarget := Some "ws://127.0.0.1:8443";
       config_connectionTimeout := None; config_maxRetries := Some 0%Z;
       config_retryDelay := Some 0%Z |}) = 3
  ∧ timers
      (step (new_WebSocketProxy
               {| config_routes := None; config_protocolMap := None;
                  config_defaultTarget := Some "ws://127.0.0.1:8443";
                  config_connectionTimeout := None;
                  config_maxRetries := Some 0%Z;
                  config_retryDelay := Some 0%Z |})
         (handleWebSocketUpgrade
            (new_WebSocketProxy
               {| config_routes := None; config_protocolMap := None;
                  config_defaultTarget := Some "ws://127.0.0.1:8443";
                  config_connectionTimeout := None;
                  config_maxRetries := Some 0%Z;
                  config_retryDelay := Some 0%Z |}) false)
         (TargetError 0 refused)) = [1000%Z].
Proof.
  assert (retryable refused) as Hretry by (split; reflexivity).
  destruct (constructor_retry_options
              {| config_routes := None; config_protocolMap := None;
                 config_defaultTarget := Some "ws://127.0.0.1:8443";
                 config_connectionTimeout := None;
                 config_maxRetries := Some 0%Z;
                 config_retryDelay := Some 0%Z |} refused Hretry)
    as (_ & _ & Hmax & _ & Hretries & _).
  split; [apply Hmax; by left|].
  apply Hretries. intros n [= <-]. done.
Defined.

(** *** Connect timeouts *)

(** X13. Timeouts and errors share the retry counter: when every
    attempt of a session fails before the upgrade, by a retryable error or
    by its connect timeout, and the last one by its timeout, the session
    makes [maxRetries + 1] attempts with linear backoff, writes 504 Gateway
    Timeout and nothing else, and destroys the socket; and no later event
    the [ws] contract admits adds an attempt or a line. *)
Theorem retries_then_gateway_timeout (this : WebSocketProxy)
    (fails : nat → failure) :
  (∀ n, retryableFailure (fails n)) →
  fails (maxRetries this) = TimedOut →
  let st := run this (handleWebSocketUpgrade this false)
              (failing fails 0 (S (maxRetries this))) in
  length (attempts st) = maxRetries this + 1
  ∧ delays st = linearBackoff this 1 (maxRetries this)
  ∧ socketWrites st = [GatewayTimeout]
  ∧ socketDestroyed st = true
  ∧ ∀ rest, wellFormed this st rest = true →
      length (attempts (run this st rest)) = maxRetries this + 1
      ∧ socketWrites (run this st rest) = [GatewayTimeout].
Proof.
  intros Hfails Hlast st.
  destruct (run_failing this fails (maxRetries this) Hfails
              (handleWebSocketUpgrade this false) 0 newAttempt)
    as (H1 & H2 & H3 & H4 & H5 & H6); try done.
  { intros j b Hj. lia. }
  fold st in H1, H2, H3, H4, H5, H6. simpl in H1, H2, H3.
  rewrite Hlast in H3. simpl in H3.
  repeat split; try done; try lia.
  all: destruct (run_spent this st rest H5 H6) as (R1 & R2 & _);
    try done; rewrite ?R1, ?R2; auto; lia.
Qed.

Lemma retries_then_gateway_timeout_witness :
  socketWrites (run twoRetries (handleWebSocketUpgrade twoRetries false)
                  (failing (λ n, match n with 1 => Errored refused | _ => TimedOut end)
                     0 3)) = [GatewayTimeout]
  ∧ length (attempts
      (run twoRetries (handleWebSocketUpgrade twoRetries false)
         (failing (λ n, match n with 1 => Errored refused | _ => TimedOut end)
            0 3))) = 3.
Proof.
  assert (∀ n : nat, retryableFailure
            ((λ n, match n with 1 => Errored refused | _ => TimedOut end) n))
    as Hretry.
  { intros [|[|n]]; simpl; done. }
  destruct (retries_then_gateway_timeout twoRetries
              (λ n, match n with 1 => Errored refused | _ => TimedOut end)
              Hretry eq_refl) as (H1 & _ & H3 & _).
  split; [exact H3 | exact H1].
Defined.

(** An attempt that is closed stays closed, and no event makes the
    session call [close] on its outbound socket. *)
Lemma step_keeps_closed this st ev i a :
  attempts st !! i = Some a → closed a →
  ∃ a', attempts (step this st ev) !! i = Some a' ∧ closed a'
        ∧ targetCloseCalls a' = targetCloseCalls a.
Proof.
  intros Hi [Ht Hc].
  pose proof (lookup_lt_Some _ _ _ Hi) as Hlt.
  destruct ev as [j t|j e|j|j|j| |t]; simpl.
  - unfold onTargetOpen. destruct (decide (j = i)) as [->|Hne].
    + rewrite Hi. simpl. rewrite Hc. unfold setAttempt. simpl.
      rewrite list_lookup_insert_eq by done. eexists. by repeat split.
    + crush_upgrade; rewrite ?list_lookup_insert_ne by done;
        exists a; by repeat split.
  - unfold onTargetError. destruct (decide (j = i)) as [->|Hne].
    + rewrite Hi. simpl. rewrite Hc. unfold setAttempt. simpl.
      rewrite list_lookup_insert_eq by done. eexists. by repeat split.
    + crush_upgrade; rewrite ?list_lookup_insert_ne by done;
        exists a; by repeat split.
  - destruct (decide (j = i)) as [->|Hne].
    + rewrite list_lookup_alter_eq, Hi. simpl. eexists. by repeat split.
    + rewrite list_lookup_alter_ne by done. exists a. by repeat split.
  - destruct (decide (j = i)) as [->|Hne].
    + rewrite list_lookup_alter_eq, Hi. simpl. eexists. by repeat split.
    + rewrite list_lookup_alter_ne by done. exists a. by repeat split.
  - unfold onConnectionTimeout. destruct (decide (j = i)) as [->|Hne].
    + rewrite Hi, Ht. simpl. exists a. by repeat split.
    + crush_upgrade; rewrite ?list_lookup_insert_ne by done;
        exists a; by repeat split.
  - rewrite list_lookup_fmap, Hi. simpl. unfold socketErrorListener.
    rewrite Hc. exists a. by repeat split.
  - unfold onRetryTimer. crush_upgrade; rewrite ?lookup_app_l by done;
      exists a; by repeat split.
Qed.

Lemma run_keeps_closed this st tr i a :
  attempts st !! i = Some a → closed a →
  ∃ a', attempts (run this st tr) !! i = Some a' ∧ closed a'
        ∧ targetCloseCalls a' = targetCloseCalls a.
Proof.
  revert st a. induction tr as [|ev tr IH]; intros st a Hi Ha.
  - exists a. auto.
  - destruct (step_keeps_closed this st ev i a Hi Ha) as (a1 & Hi1 & Ha1 & E1).
    destruct (IH _ _ Hi1 Ha1) as (a2 & Hi2 & Ha2 & E2).
    exists a2. rewrite run_cons. split; [done|]. split; [done | congruence].
Qed.

(** X14. When the connect timeout of a pending attempt fires while a
    retry is left, the session schedules the retry and leaves the outbound
    socket of that attempt alone: neither then nor on any later event,
    whichever it is, does it call [close] on it, so a socket that connects
    late stays open. When no retry is left the session closes that socket,
    unless it is in the CLOSED state, as it writes 504. *)
Theorem timed_out_attempt_is_abandoned (this : WebSocketProxy) (st : session)
    (i : nat) (a : attempt) :
  attempts st !! i = Some a →
  timeoutArmed a = true → isUpgraded a = false → connectionClosed a = false →
  (retries st < maxRetries this →
     timers (step this st (ConnectionTimeout i))
     = timers st ++ [(retryDelay this * Z.of_nat (S (retries st)))%Z]
     ∧ ∀ rest,
         ∃ a', attempts (run this (step this st (ConnectionTimeout i)) rest) !! i
               = Some a'
               ∧ connectionClosed a' = true
               ∧ targetCloseCalls a' = targetCloseCalls a)
  ∧ (maxRetries this ≤ retries st →
       socketWrites (step this st (ConnectionTimeout i))
       = socketWrites st ++ [GatewayTimeout]
       ∧ ∃ a', attempts (step this st (ConnectionTimeout i)) !! i = Some a'
               ∧ targetCloseCalls a'
                 = if readyState_eqb (targetState a) CLOSED
                   then targetCloseCalls a else S (targetCloseCalls a)).
Proof.
  intros Hi Ht Hu Hc.
  pose proof (lookup_lt_Some _ _ _ Hi) as Hlt.
  split.
  - intros Hretry%Nat.ltb_lt.
    assert (step this st (ConnectionTimeout i)
            = scheduleRetry this (setAttempt i (close (clearTimeout a)) st))
      as ->.
    { simpl. unfold onConnectionTimeout. rewrite Hi, Ht. simpl.
      by rewrite Hu, Hc, Hretry. }
    split; [done|]. intros rest.
    destruct (run_keeps_closed this
                (scheduleRetry this (setAttempt i (close (clearTimeout a)) st))
                rest i (close (clearTimeout a)))
      as (a' & Hi' & [_ Hc'] & Hcalls).
    + simpl. by apply list_lookup_insert_eq.
    + by split.
    + exists a'. by repeat split.
  - intros Hnone%Nat.ltb_ge.
    assert (step this st (ConnectionTimeout i)
            = setAttempt i (closeTarget (close (clearTimeout a)))
                (destroy (write GatewayTimeout st))) as ->.
    { simpl. unfold onConnectionTimeout. rewrite Hi, Ht. simpl.
      by rewrite Hu, Hc, Hnone. }
    split; [done|]. eexists. split.
    + simpl. by apply list_lookup_insert_eq.
    + unfold closeTarget. simpl.
      by destruct (readyState_eqb (targetState a) CLOSED).
Qed.

Lemma timed_out_attempt_is_abandoned_witness :
  ∃ a', attempts
          (run twoRetries
             (step twoRetries (handleWebSocketUpgrade twoRetries false)
                (ConnectionTimeout 0))
             [RetryTimer false; TargetOpen 0 Completes; TargetOpen 1 Completes;
              SocketError]) !! 0 = Some a'
        ∧ connectionClosed a' = true
        ∧ targetCloseCalls a' = 0.
Proof.
  destruct (timed_out_attempt_is_abandoned twoRetries
              (handleWebSocketUpgrade twoRetries false) 0 newAttempt
              eq_refl eq_refl eq_refl eq_refl) as [Hretry _].
  assert (retries (handleWebSocketUpgrade twoRetries false)
          < maxRetries twoRetries) as Hlt by (simpl; lia).
  destruct (Hretry Hlt) as [_ Hrest].
  apply (Hrest [RetryTimer false; TargetOpen 0 Completes; TargetOpen 1 Completes;
                SocketError]).
Defined.

End UpgradeOutcomes.

(** ** Route and protocol resolution: what always resolves *)

Lemma firstPrefix_Some_elem_of entries s v :
  Js.firstPrefix entries s = Some v → ∃ k, (k, v) ∈ entries.
Proof.
  induction entries as [|[k0 v0] rest IH]; simpl; [done|].
  destruct (Js.startsWith s k0).
  - intros [= ->]. exists k0. left.
  - intros H. destruct (IH H) as [k Hk]. exists k. by right.
Qed.

(** X15. The subprotocol resolver: on a protocol map with distinct keys
    the protocol of the longest key that is a literal prefix of the
    pathname is returned, the empty string included when that is what the
    map holds there; when no key is a prefix, a pathname that contains
    'graphql' or 'subscription' gets 'graphql-transport-ws' and any other
    pathname none; and when no protocol of the map is the empty string, a
    pathname that contains 'graphql' or 'subscription' always gets a
    protocol that the callers, which test it for truth, use. *)
Theorem getProtocolForPath_resolution (this : WebSocketProxy)
    (pathname : string) :
  NoDup (protocolMap this).*1 →
  (∀ route protocol,
     (route, protocol) ∈ protocolMap this →
     Js.startsWith pathname route = true →
     (∀ route' protocol', (route', protocol') ∈ protocolMap this →
        Js.startsWith pathname route' = true →
        (String.length route' ≤ String.length route)%nat) →
     getProtocolForPath this pathname = Some protocol)
  ∧ ((∀ route protocol, (route, protocol) ∈ protocolMap this →
        Js.startsWith pathname route = false) →
     getProtocolForPath this pathname =
       if Js.includes pathname "graphql" || Js.includes pathname "subscription"
       then Some "graphql-transport-ws" else None)
  ∧ (Forall (λ entry, Js.truthy entry.2 = true) (protocolMap this) →
     Js.includes pathname "graphql" || Js.includes pathname "subscription"
     = true →
     Js.truthyOpt (getProtocolForPath this pathname) = true).
Proof.
  intros Hnd.
  destruct (getProtocolForPath_longest_prefix this pathname Hnd)
    as [Hlongest Hnone].
  split; [exact Hlongest | split; [exact Hnone|]].
  intros Hprotocols Hgraphql. unfold getProtocolForPath.
  destruct (Js.truthyOpt (Js.get (protocolMap this) pathname)) eqn:E;
    [exact E|].
  simpl. destruct (Js.firstPrefix _ pathname) as [v|] eqn:F.
  - apply firstPrefix_Some_elem_of in F as [k Hk].
    rewrite sortByLengthDesc_perm in Hk.
    rewrite Forall_forall in Hprotocols. apply (Hprotocols _ Hk).
  - by rewrite Hgraphql.
Qed.

Lemma getProtocolForPath_resolution_witness :
  getProtocolForPath proxy "/api/graphql/ws/1" = Some "graphql-transport-ws"
  ∧ Js.truthyOpt (getProtocolForPath twoRoutes "/v2/subscriptions") = true.
Proof.
  assert (NoDup (protocolMap proxy).*1) as Hnd.
  { apply (bool_decide_unpack _). vm_compute. reflexivity. }
  assert (NoDup (protocolMap twoRoutes).*1) as Hnd' by constructor.
  destruct (getProtocolForPath_resolution proxy "/api/graphql/ws/1" Hnd)
    as (Hlongest & _ & _).
  destruct (getProtocolForPath_resolution twoRoutes "/v2/subscriptions" Hnd')
    as (_ & _ & Hsome).
  split.
  - apply (Hlongest "/api/graphql/ws" "graphql-transport-ws").
    + apply (bool_decide_unpack _). vm_compute. reflexivity.
    + reflexivity.
    + intros route' protocol' Hin Hpre.
      simpl in Hin. rewrite !elem_of_cons in Hin.
      destruct Hin as [[= -> ->]|[[= -> ->]|[[= -> ->]|[[= -> ->]|Hin]]]];
        simpl in *; try lia; try discriminate.
      by apply elem_of_nil in Hin.
  - apply Hsome; [constructor | reflexivity].
Defined.

(** X16. With a default target that is not empty and route targets
    none of which is the empty string, every pathname resolves to a target,
    so no upgrade request is answered with 404 Not Found, whatever events
    follow: the lines written are among 502, 504 and 401. *)
Theorem default_target_resolves (this : WebSocketProxy) (req : request)
    (throws : bool) (tr : list Upgrade.event) :
  Js.truthyOpt (defaultTarget this) = true →
  Forall (λ route, Js.truthy route.2 = true) (routes this) →
  Js.truthyOpt (getTargetForPath this (pathname req)) = true
  ∧ (NotFound ∉ Upgrade.socketWrites
                  (Upgrade.run this (Upgrade.onUpgrade this req throws) tr))
  ∧ Forall (λ line, line ∈ [BadGateway; GatewayTimeout; Unauthorized])
      (Upgrade.socketWrites
         (Upgrade.run this (Upgrade.onUpgrade this req throws) tr)).
Proof.
  intros Hdefault Hroutes.
  assert (Js.truthyOpt (getTargetForPath this (pathname req)) = true) as Hres.
  { unfold getTargetForPath.
    destruct (Js.truthyOpt (Js.get (routes this) (pathname req))) eqn:E;
      [exact E|].
    simpl. destruct (Js.firstPrefix _ (pathname req)) as [v|] eqn:F;
      [|exact Hdefault].
    apply firstPrefix_Some_elem_of in F as [k Hk].
    rewrite sortByLengthDesc_perm in Hk.
    rewrite Forall_forall in Hroutes. apply (Hroutes _ Hk). }
  assert (Forall (λ line, line ∈ [BadGateway; GatewayTimeout; Unauthorized])
      (Upgrade.socketWrites
         (Upgrade.run this (Upgrade.onUpgrade this req throws) tr))) as Hlines.
  { unfold Upgrade.onUpgrade. rewrite Hres. simpl.
    destruct (UpgradeFacts.run_writes this
                (Upgrade.handleWebSocketUpgrade this throws) tr)
      as (extra & -> & Hextra).
    apply Forall_app. split.
    - unfold Upgrade.handleWebSocketUpgrade, Upgrade.attemptConnection.
      destruct throws; [destruct (_ <? _)|]; simpl;
        repeat constructor; set_solver.
    - apply Forall_forall. intros x Hx. by apply Hextra. }
  split; [exact Hres | split; [|exact Hlines]].
  intros Hin. rewrite Forall_forall in Hlines. specialize (Hlines _ Hin).
  apply (bool_decide_pack _) in Hlines. vm_compute in Hlines. done.
Qed.

Lemma default_target_resolves_witness :
  Js.truthyOpt (getTargetForPath proxy "/nowhere") = true.
Proof.
  apply (default_target_resolves proxy (Upgrade.requestFor "/nowhere") false []).
  - reflexivity.
  - repeat constructor.
Defined.

(** ** Configuration loader *)

Module ConfigLoaderFacts.
Import ConfigLoader.

Lemma buildTargetUrls_lookup_other c k :
  k ∉ targetKeys → buildTargetUrls c !! k = c !! k.
Proof.
  unfold targetKeys. intros Hk.
  assert (k ≠ "httpTarget" ∧ k ≠ "wsTarget") as [H1 H2] by set_solver.
  unfold buildTargetUrls.
  destruct (negb (truthyAt c "domain")); simpl;
    by rewrite !lookup_insert_ne by done.
Qed.

Lemma defaults_lookup k :
  defaults !! k =
    if bool_decide (k = "port") then Some (Num 8080)
    else if bool_decide (k = "domain") then Some Null
    else if bool_decide (k = "secure") then Some (Bool true)
    else if bool_decide (k = "connectionTimeout") then Some (Num 15000)
    else None.
Proof.
  unfold defaults. repeat case_bool_decide; subst; by simplify_map_eq.
Qed.

Lemma truthyAt_domain document :
  truthyAt (document ∪ defaults) "domain" = truthyAt document "domain".
Proof.
  unfold truthyAt. destruct (document !! "domain") as [v|] eqn:E.
  - by rewrite (lookup_union_Some_l _ _ _ _ E).
  - by rewrite lookup_union_r, defaults_lookup by done.
Qed.

Lemma truthyAt_secure document :
  truthyAt (document ∪ defaults) "secure"
  = match document !! "secure" with Some v => truthy v | None => true end.
Proof.
  unfold truthyAt. destruct (document !! "secure") as [v|] eqn:E.
  - by rewrite (lookup_union_Some_l _ _ _ _ E).
  - by rewrite lookup_union_r, defaults_lookup by done.
Qed.

Lemma loadConfig_no_domain document :
  truthyAt document "domain" = false →
  loadConfig (Loaded document) !! "httpTarget" = Some Null
  ∧ loadConfig (Loaded document) !! "wsTarget" = Some Null.
Proof.
  intros Hno. simpl. unfold buildTargetUrls.
  rewrite truthyAt_domain, Hno. simpl.
  by rewrite lookup_insert_eq, lookup_insert_ne, lookup_insert_eq.
Qed.

Lemma loadConfig_domain document d :
  document !! "domain" = Some (Str d) → d ≠ "" →
  let secure :=
    match document !! "secure" with
    | Some v => truthy v
    | None => true
    end in
  loadConfig (Loaded document) !! "httpTarget"
  = Some (Str ((if secure then "https" else "http") +:+ "://" +:+ d))
  ∧ loadConfig (Loaded document) !! "wsTarget"
    = Some (Str ((if secure then "wss" else "ws") +:+ "://" +:+ d)).
Proof.
  intros Hd Hne secure. simpl. unfold buildTargetUrls.
  rewrite truthyAt_domain, truthyAt_secure. fold secure.
  assert (truthyAt document "domain" = true) as ->.
  { unfold truthyAt. rewrite Hd. simpl. by destruct d. }
  assert (showAt (document ∪ defaults) "domain" = d) as ->.
  { unfold showAt. by rewrite (lookup_union_Some_l _ _ _ _ Hd). }
  simpl.
  by rewrite lookup_insert_eq, lookup_insert_ne, lookup_insert_eq.
Qed.

Lemma loadConfig_lookup_default document k :
  k ∉ targetKeys → document !! k = None →
  loadConfig (Loaded document) !! k = defaults !! k.
Proof.
  intros Hk Hnone. simpl. rewrite buildTargetUrls_lookup_other by done.
  by rewrite lookup_union_r.
Qed.

Lemma loadConfig_lookup_document document k v :
  k ∉ targetKeys → document !! k = Some v →
  loadConfig (Loaded document) !! k = Some v.
Proof.
  intros Hk Hv. simpl. rewrite buildTargetUrls_lookup_other by done.
  by apply lookup_union_Some_l.
Qed.

(** X17. What [loadConfig] returns. Without a domain in the document,
    or with one that is falsy, httpTarget and wsTarget are null. With a
    domain that is a non-empty string they are that domain behind https://
    and wss:// when the document gives no secure flag or a truthy one, and
    behind http:// and ws:// when it gives a falsy one; an httpTarget or
    wsTarget of the document's own is replaced either way. Every other
    property of the document is returned with the document's value, and
    every property the document lacks with its default: port 8080, domain
    null, secure true, connectionTimeout 15000, and nothing else. A
    missing or unreadable file gives what an empty document gives. *)
Theorem loadConfig_targets (document : gmap string value) :
  (truthyAt document "domain" = false →
     loadConfig (Loaded document) !! "httpTarget" = Some Null
     ∧ loadConfig (Loaded document) !! "wsTarget" = Some Null)
  ∧ (∀ d, document !! "domain" = Some (Str d) → d ≠ "" →
       let secure :=
         match document !! "secure" with
         | Some v => truthy v
         | None => true
         end in
       loadConfig (Loaded document) !! "httpTarget"
       = Some (Str ((if secure then "https" else "http") +:+ "://" +:+ d))
       ∧ loadConfig (Loaded document) !! "wsTarget"
         = Some (Str ((if secure then "wss" else "ws") +:+ "://" +:+ d)))
  ∧ (∀ k v, k ∉ targetKeys → document !! k = Some v →
            loadConfig (Loaded document) !! k = Some v)
  ∧ (∀ k, k ∉ targetKeys → document !! k = None →
          loadConfig (Loaded document) !! k =
            if bool_decide (k = "port") then Some (Num 8080)
            else if bool_decide (k = "domain") then Some Null
            else if bool_decide (k = "secure") then Some (Bool true)
            else if bool_decide (k = "connectionTimeout") then Some (Num 15000)
            else None)
  ∧ loadConfig Missing = loadConfig (Loaded ∅)
  ∧ loadConfig Unreadable = loadConfig (Loaded ∅).
Proof.
  split; [apply loadConfig_no_domain|].
  split; [apply loadConfig_domain|].
  split; [apply loadConfig_lookup_document|].
  split; [|by split].
  intros k Hk Hnone. rewrite loadConfig_lookup_default by done.
  apply defaults_lookup.
Qed.

Lemma loadConfig_targets_witness :
  loadConfig (Loaded aionDomain) !! "wsTarget" = Some (Str "wss://api.aion.to")
  ∧ loadConfig (Loaded aionDomain) !! "httpTarget"
    = Some (Str "https://api.aion.to").
Proof.
  destruct (loadConfig_targets aionDomain) as (_ & Hdomain & _).
  destruct (Hdomain "api.aion.to") as [Hhttp Hws].
  - vm_compute. reflexivity.
  - discriminate.
  - split; [exact Hws | exact Hhttp].
Defined.

End ConfigLoaderFacts.

(** ** The single-target [Proxy] class *)

Module ProxyFacts.
Import Upgrade.

Lemma Proxy_refuses this throws tr :
  Js.truthyOpt (Proxy.wsTarget this) = false →
  socketWrites (run (Proxy.engine this) (Proxy.onUpgrade this throws) tr)
  = [BadGateway]
  ∧ socketDestroyed (run (Proxy.engine this) (Proxy.onUpgrade this throws) tr)
    = true
  ∧ attempts (run (Proxy.engine this) (Proxy.onUpgrade this throws) tr) = [].
Proof.
  intros Hno. unfold Proxy.onUpgrade. rewrite Hno. simpl.
  destruct (UpgradeFacts.run_closed (Proxy.engine this)
              (destroy (write BadGateway idle)) tr)
    as (H1 & H2 & _ & _ & H5); [done | constructor |].
  rewrite H2, H5 by done. repeat split; try done.
  by apply length_zero_iff_nil.
Qed.

(** X18. Whatever happens to an upgrade session of the single-target
    proxy, every status line written to the inbound socket is one of 502,
    504 and 401; and when the proxy has no WebSocket target (null or the
    empty string) the request is answered with 502 Bad Gateway and the
    socket destroyed, with no outbound attempt then or later. *)
Theorem single_target_status_lines (this : Proxy.t) (throws : bool)
    (tr : list event) :
  let st := run (Proxy.engine this) (Proxy.onUpgrade this throws) tr in
  Forall (λ line, line ∈ [BadGateway; GatewayTimeout; Unauthorized])
    (socketWrites st)
  ∧ (Js.truthyOpt (Proxy.wsTarget this) = false →
       socketWrites st = [BadGateway] ∧ socketDestroyed st = true
       ∧ attempts st = []).
Proof.
  intros st. split; [|apply Proxy_refuses].
  destruct (Js.truthyOpt (Proxy.wsTarget this)) eqn:E.
  - subst st. unfold Proxy.onUpgrade. rewrite E. simpl.
    destruct (UpgradeFacts.run_writes (Proxy.engine this)
                (handleWebSocketUpgrade (Proxy.engine this) throws) tr)
      as (extra & -> & Hextra).
    apply Forall_app. split.
    + unfold handleWebSocketUpgrade, attemptConnection.
      destruct throws; [destruct (_ <? _)|]; simpl;
        repeat constructor; set_solver.
    + apply Forall_forall. intros x Hx. by apply Hextra.
  - destruct (Proxy_refuses this throws tr E) as (H & _).
    subst st. rewrite H. repeat constructor.
Qed.

Lemma single_target_status_lines_witness :
  socketWrites
    (run (Proxy.engine
            {| Proxy.wsTarget := None; Proxy.connectionTimeout := 15000;
               Proxy.maxRetries := 3; Proxy.retryDelay := 1000 |})
       (Proxy.onUpgrade
          {| Proxy.wsTarget := None; Proxy.connectionTimeout := 15000;
             Proxy.maxRetries := 3; Proxy.retryDelay := 1000 |} false)
       [RetryTimer false; SocketError]) = [BadGateway].
Proof.
  apply (single_target_status_lines
           {| Proxy.wsTarget := None; Proxy.connectionTimeout := 15000;
              Proxy.maxRetries := 3; Proxy.retryDelay := 1000 |} false
           [RetryTimer false; SocketError]).
  reflexivity.
Defined.

Lemma Proxy_getProxyHeaders_lookup req k :
  Proxy.getProxyHeaders req !! k =
    if bool_decide (k = "upgrade") then Some "websocket"
    else if bool_decide (k = "connection") then Some "Upgrade"
    else if bool_decide (k = "sec-websocket-version") then Some "13"
    else if bool_decide (k ∈ headersToForward) then forwarded req k
    else None.
Proof.
  unfold Proxy.getProxyHeaders.
  case_bool_decide as E1; [subst; by rewrite lookup_insert_eq|].
  rewrite lookup_insert_ne by done.
  case_bool_decide as E2; [subst; by rewrite lookup_insert_eq|].
  rewrite lookup_insert_ne by done.
  case_bool_decide as E3; [subst; by rewrite lookup_insert_eq|].
  rewrite lookup_insert_ne by done.
  rewrite forwardHeader_foldl_lookup, lookup_empty.
  unfold forwarded. case_bool_decide; simpl; [|done].
  by destruct (Js.truthyOpt (headers req !! k)).
Qed.

(** X19. The header object the single-target proxy hands to the
    outbound handshake holds each of authorization, cookie, user-agent,
    sec-websocket-protocol, sec-websocket-extensions and origin exactly
    when the request carries it with a non-empty value, copied verbatim;
    sec-websocket-version, connection and upgrade set to '13', 'Upgrade'
    and 'websocket'; and no other key. The subprotocol offered to the
    target is the client's own: none is injected or substituted. *)
Theorem single_target_headers (req : request) :
  let out := Proxy.getProxyHeaders req in
  Forall (λ name, out !! name = forwarded req name) headersToForward
  ∧ out !! "sec-websocket-version" = Some "13"
  ∧ out !! "connection" = Some "Upgrade"
  ∧ out !! "upgrade" = Some "websocket"
  ∧ dom out ⊆ list_to_set
      (headersToForward ++ ["sec-websocket-version"; "connection"; "upgrade"])
  ∧ Proxy.clientProtocol req = out !! "sec-websocket-protocol".
Proof.
  intros out. subst out. repeat split.
  - repeat constructor; rewrite Proxy_getProxyHeaders_lookup; reflexivity.
  - rewrite Proxy_getProxyHeaders_lookup; reflexivity.
  - rewrite Proxy_getProxyHeaders_lookup; reflexivity.
  - rewrite Proxy_getProxyHeaders_lookup; reflexivity.
  - intros k [v Hk]%elem_of_dom. rewrite Proxy_getProxyHeaders_lookup in Hk.
    rewrite elem_of_list_to_set, elem_of_app.
    repeat case_bool_decide; subst; try done;
      first [ left; assumption
            | right; apply (bool_decide_unpack _); reflexivity ].
  - rewrite Proxy_getProxyHeaders_lookup. reflexivity.
Qed.

(** *** The proxy built from the loaded configuration *)

Lemma new_Proxy_fields c this :
  Proxy.new_Proxy c = Some this →
  Proxy.targetOf (c !! "wsTarget") = Some (Proxy.wsTarget this)
  ∧ Proxy.numberOr (c !! "connectionTimeout") 15000
    = Some (Proxy.connectionTimeout this)
  ∧ (∃ n, Proxy.numberOr (c !! "maxRetries") 3 = Some n
          ∧ Proxy.maxRetries this = Z.to_nat n)
  ∧ Proxy.numberOr (c !! "retryDelay") 1000 = Some (Proxy.retryDelay this).
Proof.
  unfold Proxy.new_Proxy.
  destruct (Proxy.targetOf _) as [target|]; [|done]. simpl.
  destruct (Proxy.numberOr (c !! "connectionTimeout") _) as [timeout|];
    [|done]. simpl.
  destruct (Proxy.numberOr (c !! "maxRetries") _) as [retries|]; [|done].
  simpl.
  destruct (Proxy.numberOr (c !! "retryDelay") _) as [delay|]; [|done].
  simpl. intros [= <-]. simpl. repeat split. by exists retries.
Qed.

(** X20. The proxy started on a configuration file that names a domain
    (a non-empty string): its WebSocket target is wss:// followed by the
    domain, or ws:// when the file sets secure to a falsy value; every
    upgrade request is connected to that target followed by the pathname
    and the query string of the request; no request is refused for want of
    a target; and a file that sets neither maxRetries nor
    connectionTimeout gives 3 retries and a timeout of 15000. *)
Theorem configured_proxy_connects (document : gmap string ConfigLoader.value)
    (this : Proxy.t) (d : string) :
  Proxy.new_Proxy (ConfigLoader.loadConfig (ConfigLoader.Loaded document))
  = Some this →
  document !! "domain" = Some (ConfigLoader.Str d) → d ≠ "" →
  let scheme :=
    if match document !! "secure" with
       | Some v => ConfigLoader.truthy v
       | None => true
       end
    then "wss" else "ws" in
  Proxy.wsTarget this = Some (scheme +:+ "://" +:+ d)
  ∧ (∀ req, Proxy.targetWsUrl this req
            = (scheme +:+ "://" +:+ d) +:+ pathname req
              +:+ Js.show (Js.or (search req) (Some "")))
  ∧ (∀ throws, Proxy.onUpgrade this throws
               = handleWebSocketUpgrade (Proxy.engine this) throws)
  ∧ (document !! "maxRetries" = None → Proxy.maxRetries this = 3)
  ∧ (document !! "connectionTimeout" = None →
       Proxy.connectionTimeout this = 15000%Z).
Proof.
  intros Hnew Hd Hne scheme.
  destruct (new_Proxy_fields _ _ Hnew)
    as (Htarget & Htimeout & (n & Hretries & Hn) & _).
  destruct (ConfigLoaderFacts.loadConfig_domain document d Hd Hne)
    as [_ Hws].
  simpl in Hws. fold scheme in Hws.
  assert (Proxy.wsTarget this = Some (scheme +:+ "://" +:+ d)) as Hthis.
  { simpl in Htarget. rewrite Hws in Htarget. simpl in Htarget. congruence. }
  split; [exact Hthis|].
  split; [intros req; unfold Proxy.targetWsUrl, Proxy.buildTargetWebSocketUrl;
          by rewrite Hthis|].
  split.
  { intros throws. unfold Proxy.onUpgrade. rewrite Hthis.
    by destruct (match document !! "secure" with
                 | Some v => ConfigLoader.truthy v | None => true end). }
  split.
  - intros Hnone.
    rewrite (ConfigLoaderFacts.loadConfig_lookup_default document "maxRetries")
      in Hretries; [|set_solver | done].
    rewrite ConfigLoaderFacts.defaults_lookup in Hretries. simpl in Hretries.
    injection Hretries as <-. by rewrite Hn.
  - intros Hnone.
    rewrite (ConfigLoaderFacts.loadConfig_lookup_default document
               "connectionTimeout") in Htimeout; [|set_solver | done].
    rewrite ConfigLoaderFacts.defaults_lookup in Htimeout. simpl in Htimeout.
    congruence.
Qed.

Lemma configured_proxy_connects_witness :
  Proxy.targetWsUrl
    {| Proxy.wsTarget := Some "wss://api.aion.to";
       Proxy.connectionTimeout := 15000; Proxy.maxRetries := 3;
       Proxy.retryDelay := 1000 |} Proxy.tokenRequest
  = "wss://api.aion.to/ws/graphql?token=t".
Proof.
  destruct (configured_proxy_connects ConfigLoader.aionDomain
              {| Proxy.wsTarget := Some "wss://api.aion.to";
                 Proxy.connectionTimeout := 15000; Proxy.maxRetries := 3;
                 Proxy.retryDelay := 1000 |} "api.aion.to")
    as (_ & Hurl & _).
  - vm_compute. reflexivity.
  - vm_compute. reflexivity.
  - discriminate.
  - apply (Hurl Proxy.tokenRequest).
Defined.

(** X21. The proxy started without a configuration file, on one that
    cannot be read, or on one that names no domain has no WebSocket
    target: every upgrade request is answered with 502 Bad Gateway and
    nothing else, the socket is destroyed, and no outbound connection is
    attempted, whatever events follow. *)
Theorem unconfigured_proxy_refuses (f : ConfigLoader.file) (this : Proxy.t) :
  Proxy.new_Proxy (ConfigLoader.loadConfig f) = Some this →
  match f with
  | ConfigLoader.Loaded document =>
      ConfigLoader.truthyAt document "domain" = false
  | _ => True
  end →
  Proxy.wsTarget this = None
  ∧ ∀ throws tr,
      socketWrites (run (Proxy.engine this) (Proxy.onUpgrade this throws) tr)
      = [BadGateway]
      ∧ socketDestroyed
          (run (Proxy.engine this) (Proxy.onUpgrade this throws) tr) = true
      ∧ attempts (run (Proxy.engine this) (Proxy.onUpgrade this throws) tr)
        = [].
Proof.
  intros Hnew Hf.
  destruct (new_Proxy_fields _ _ Hnew) as (Htarget & _).
  assert (ConfigLoader.loadConfig f !! "wsTarget" = Some ConfigLoader.Null)
    as Hws.
  { destruct f as [| |document]; [reflexivity | reflexivity |].
    by apply ConfigLoaderFacts.loadConfig_no_domain. }
  rewrite Hws in Htarget. simpl in Htarget. injection Htarget as Hnone.
  split; [done|]. intros throws tr. apply Proxy_refuses.
  by rewrite <- Hnone.
Qed.

Lemma unconfigured_proxy_refuses_witness :
  socketWrites
    (run (Proxy.engine
            {| Proxy.wsTarget := None; Proxy.connectionTimeout := 15000;
               Proxy.maxRetries := 3; Proxy.retryDelay := 1000 |})
       (Proxy.onUpgrade
          {| Proxy.wsTarget := None; Proxy.connectionTimeout := 15000;
             Proxy.maxRetries := 3; Proxy.retryDelay := 1000 |} false)
       [TargetOpen 0 Completes]) = [BadGateway].
Proof.
  destruct (unconfigured_proxy_refuses ConfigLoader.Missing
              {| Proxy.wsTarget := None; Proxy.connectionTimeout := 15000;
                 Proxy.maxRetries := 3; Proxy.retryDelay := 1000 |})
    as [_ Hrefused].
  - vm_compute. reflexivity.
  - exact I.
  - apply (Hrefused false [TargetOpen 0 Completes]).
Defined.

End ProxyFacts.

(** ** The proxy class without retries *)

Module BasicProxyFacts.
Import BasicProxy.

Ltac crush_basic :=
  unfold step, onTargetOpen, onTargetError, onTimeout, onSocketError,
    answer, clearTimeout, targetReports in *;
  simpl in *;
  repeat (first
    [ match goal with
      | H : ?x = true |- context [?x] => rewrite H
      | H : ?x = false |- context [?x] => rewrite H
      end
    | match goal with
      | |- context [match ?x with _ => _ end] => destruct x eqn:?
      end ]; simpl in *);
  try done.

Lemma handshake_step_invariant h ev : invariant h → invariant (step h ev).
Proof.
  unfold invariant. intros [Hlen Hdone].
  destruct (socketWrites h) as [|line rest] eqn:Hwrites.
  - destruct ev; crush_basic; rewrite ?Hwrites; repeat split; try done;
      simpl; lia.
  - destruct Hdone as [Hd Ht]; [done|].
    destruct ev; crush_basic; rewrite ?Hwrites; repeat split; try done.
Qed.

Lemma step_lines h ev :
  Forall (λ line, line ∈ [BadGateway; GatewayTimeout; Unauthorized])
    (socketWrites h) →
  Forall (λ line, line ∈ [BadGateway; GatewayTimeout; Unauthorized])
    (socketWrites (step h ev)).
Proof.
  intros H. destruct ev; crush_basic;
    rewrite ?Forall_app; repeat split; try done;
    repeat constructor; set_solver.
Qed.

Lemma handshake_run_refused tr : run refused tr = refused.
Proof. induction tr as [|ev tr IH]; [done|]. exact IH. Qed.

(** X22. Whatever happens to an upgrade request of the proxy without
    retries, with no assumption on the events: at most one status line is
    written to the inbound socket, it is one of 502, 504 and 401, and the
    socket is destroyed once a line is written; and a proxy with no
    WebSocket target answers 502 Bad Gateway without connecting. *)
Theorem basic_proxy_one_answer (this : t) (throws : bool) (tr : list event) :
  let h := run (onUpgrade this throws) tr in
  length (socketWrites h) ≤ 1
  ∧ Forall (λ line, line ∈ [BadGateway; GatewayTimeout; Unauthorized])
      (socketWrites h)
  ∧ (socketWrites h ≠ [] → socketDestroyed h = true)
  ∧ (Js.truthyOpt (wsTarget this) = false → h = refused).
Proof.
  intros h.
  assert (invariant (onUpgrade this throws)
          ∧ Forall (λ line, line ∈ [BadGateway; GatewayTimeout; Unauthorized])
              (socketWrites (onUpgrade this throws))) as [Hinv Hlines].
  { unfold onUpgrade, handleWebSocketUpgrade, invariant.
    destruct (negb (Js.truthyOpt (wsTarget this))); [|destruct throws];
      simpl; repeat split; try done; try lia;
      repeat constructor; set_solver. }
  assert (invariant h
          ∧ Forall (λ line, line ∈ [BadGateway; GatewayTimeout; Unauthorized])
              (socketWrites h)) as [[Hlen Hdone] Hall].
  { subst h. revert Hinv Hlines. generalize (onUpgrade this throws).
    induction tr as [|ev tr IH]; intros h0 Hinv Hlines; [done|].
    apply IH; [by apply handshake_step_invariant | by apply step_lines]. }
  repeat split; try done.
  - intros Hne. by destruct (Hdone Hne).
  - intros Hno. subst h. unfold onUpgrade. rewrite Hno. apply handshake_run_refused.
Qed.

Lemma run_quiet tr :
  quiet tr = true →
  listening (run (handleWebSocketUpgrade false) tr) = true
  ∧ socketWrites (run (handleWebSocketUpgrade false) tr) = []
  ∧ socketDestroyed (run (handleWebSocketUpgrade false) tr) = false
  ∧ proxies (run (handleWebSocketUpgrade false) tr) = opens tr.
Proof.
  assert (∀ h, quiet tr = true →
            listening h = true → socketWrites h = [] →
            socketDestroyed h = false →
            listening (run h tr) = true
            ∧ socketWrites (run h tr) = []
            ∧ socketDestroyed (run h tr) = false
            ∧ proxies (run h tr) = proxies h + opens tr) as Hgen.
  { induction tr as [|ev tr IH]; intros h Hq Hl Hw Hd.
    - simpl. repeat split; try done; lia.
    - simpl in Hq. apply andb_true_iff in Hq as [Hev Hq].
      destruct ev; try discriminate; simpl.
      + destruct (IH (step h TargetOpen) Hq) as (I1 & I2 & I3 & I4);
          [crush_basic..|].
        repeat split; try done. rewrite I4. crush_basic; lia.
      + destruct (IH (step h TargetClosed) Hq) as (I1 & I2 & I3 & I4);
          [crush_basic..|].
        repeat split; try done. rewrite I4. crush_basic; lia. }
  intros Hq. by apply Hgen.
Qed.

(** X23. The 'error' listener of the outbound socket does not look
    whether the client has been upgraded, only whether the inbound socket
    is destroyed: in a session in which the outbound socket has only opened
    or closed so far, and nothing but this handler's own calls destroys the
    inbound socket, its first error writes 401 Unauthorized, when the
    message carries 401 or 403, and 502 Bad Gateway otherwise, to the
    inbound socket and destroys it, also when that socket carries the
    upgraded connection of a relay. *)
Theorem basic_proxy_error_after_upgrade (tr : list event) (e : error) :
  quiet tr = true →
  let h := run (handleWebSocketUpgrade false) (tr ++ [TargetError e]) in
  socketWrites h
  = [if Js.includes (message e) "401" || Js.includes (message e) "403"
     then Unauthorized else BadGateway]
  ∧ socketDestroyed h = true
  ∧ proxies h = opens tr.
Proof.
  intros Hq h. subst h. unfold run. rewrite foldl_app. simpl.
  destruct (run_quiet tr Hq) as (Hl & Hw & Hd & Hp).
  unfold run in Hl, Hw, Hd, Hp.
  crush_basic; rewrite Hw; by repeat split.
Qed.

Lemma basic_proxy_error_after_upgrade_witness :
  socketWrites (run (handleWebSocketUpgrade false)
                  ([TargetOpen] ++ [TargetError Upgrade.hangUp]))
  = [BadGateway]
  ∧ proxies (run (handleWebSocketUpgrade false)
               ([TargetOpen] ++ [TargetError Upgrade.hangUp])) = 1.
Proof.
  destruct (basic_proxy_error_after_upgrade [TargetOpen] Upgrade.hangUp eq_refl)
    as (Hw & _ & Hp).
  split; [exact Hw | exact Hp].
Defined.

(** X24. The header object the proxy without retries hands to the
    outbound handshake holds each of authorization, cookie, user-agent,
    sec-websocket-protocol and origin exactly when the request carries it
    with a non-empty value, copied verbatim, and no other key: the
    request's sec-websocket-extensions is not passed on, and
    sec-websocket-version, connection and upgrade are left to the [ws]
    library. The URL connected to is the WebSocket target followed by the
    pathname and the query string of the request. *)
Theorem basic_proxy_headers (this : t) (req : request) :
  let out := getProxyHeaders req in
  Forall (λ name, out !! name = forwarded req name) forwardHeaders
  ∧ dom out ⊆ list_to_set forwardHeaders
  ∧ Forall (λ name, out !! name = None)
      ["sec-websocket-extensions"; "sec-websocket-version"; "connection";
       "upgrade"]
  ∧ targetWsUrl this req
    = Js.show (wsTarget this) +:+ pathname req
      +:+ Js.show (Js.or (search req) (Some "")).
Proof.
  intros out.
  assert (∀ k, out !! k = if bool_decide (k ∈ forwardHeaders)
                          then forwarded req k else None) as Hout.
  { intros k. subst out. unfold getProxyHeaders.
    rewrite forwardHeader_foldl_lookup, lookup_empty.
    unfold forwarded. case_bool_decide; simpl; [|done].
    by destruct (Js.truthyOpt (headers req !! k)). }
  split; [|split; [|split]].
  - repeat constructor; rewrite Hout; reflexivity.
  - intros k [v Hk]%elem_of_dom. rewrite Hout in Hk.
    rewrite elem_of_list_to_set. by case_bool_decide.
  - repeat constructor; rewrite Hout; reflexivity.
  - unfold targetWsUrl. f_equal. f_equal.
    unfold Js.or. simpl. by destruct (pathname req).
Qed.

(** *** The relay *)

Ltac crush_link :=
  repeat match goal with s : Relay.side |- _ => destruct s end;
  unfold relayStep, onMessage, onClose, onError, onKeepAlive, pingIfOpen,
    closeIfOpen, cleanup, closing, isOpen in *;
  simpl in *;
  repeat (first
    [ match goal with
      | H : ?x = true |- context [?x] => rewrite H
      | H : ?x = false |- context [?x] => rewrite H
      end
    | match goal with
      | |- context [match ?x with _ => _ end] => destruct x eqn:?
      end ]; simpl in *;
    repeat match goal with
           | H : negb _ = true |- _ => apply negb_true_iff in H
           | H : negb _ = false |- _ => apply negb_false_iff in H
           end;
    try congruence);
  try done.

Lemma relayStep_invariant l ev : linkInvariant l → linkInvariant (relayStep l ev).
Proof.
  unfold linkInvariant.
  intros (Hcount & Hlog & Hentries).
  assert (isActive l = true → closedLog l = []) as Hempty.
  { intros Hact. rewrite Hact in Hlog. by apply length_zero_iff_nil. }
  destruct ev; crush_link;
    repeat match goal with
           | H : isActive _ = _, H' : context [isActive _] |- _ =>
               rewrite H in H'
           end;
    repeat match goal with
           | H : ?P → _, H' : ?P |- _ => specialize (H H')
           | H : ?a = ?a → _ |- _ => specialize (H eq_refl)
           | H : closedLog _ = [] |- _ => rewrite H in *
           end;
    rewrite ?length_app; simpl in *;
    repeat split; intros; try done; try lia; auto;
    repeat match goal with
           | H : _ ∈ [] |- _ => by apply elem_of_nil in H
           | H : _ ∈ [_] |- _ => apply list_elem_of_singleton in H
           | H : _ ∈ _ ++ _ |- _ => apply elem_of_app in H as [?|?]
           end;
    try done; auto.
Qed.

Lemma relayRun_invariant tr : linkInvariant (relayRun establishProxy tr).
Proof.
  assert (linkInvariant establishProxy) as Hstart.
  { unfold linkInvariant. simpl. repeat split; try done; try lia.
    intros n Hn. by apply elem_of_nil in Hn. }
  revert Hstart. generalize establishProxy.
  induction tr as [|ev tr IH]; intros l Hl; [done|].
  simpl. by apply IH, relayStep_invariant.
Qed.

(** What one event does to one socket: it leaves the [close] calls as
    they are and does not open the socket, or it is one [close] call on
    the socket, which was open. *)
Lemma relayStep_peer l ev s :
  (closeCalls (peerOf s (relayStep l ev)) = closeCalls (peerOf s l)
   ∧ (isOpen (peerOf s (relayStep l ev)) = true → isOpen (peerOf s l) = true))
  ∨ (isOpen (peerOf s l) = true
     ∧ ∃ call, peerOf s (relayStep l ev) = closeWith call (peerOf s l)).
Proof.
  destruct ev; destruct s; crush_link;
    first [ by left | right; split; [done|]; by eexists | idtac ].
  all: try (left; split; [done|]; simpl; by destruct (state _)).
Qed.

Lemma raised_filter l :
  Forall (λ call, raises call = true) l →
  filter (λ call, raises call = false) l = [].
Proof.
  induction 1 as [|x l Hx _ IH]; [done|].
  rewrite filter_cons_False by congruence. exact IH.
Qed.

Lemma link_closeWith_closedOnce call p :
  closedOnce p → isOpen p = true → closedOnce (closeWith call p).
Proof.
  intros [Hone Hopen] Hp. specialize (Hopen Hp).
  unfold closedOnce, closeWith, isOpen. simpl.
  rewrite filter_app, length_app, (raised_filter _ Hopen), Forall_app.
  destruct (raises call) eqn:E.
  - rewrite filter_cons_False by congruence.
    split; [simpl; lia|]. intros _. split; [done|]. by repeat constructor.
  - rewrite filter_cons_True by done. split; [simpl; lia | done].
Qed.

Lemma relayRun_closedOnce tr s :
  closedOnce (peerOf s (relayRun establishProxy tr)).
Proof.
  assert (closedOnce (peerOf s establishProxy)) as Hstart
    by (destruct s; split; simpl; by try constructor).
  revert Hstart. generalize establishProxy.
  induction tr as [|ev tr IH]; intros l Hl; [done|].
  simpl. apply IH.
  destruct (relayStep_peer l ev s) as [[Hcalls Hopen]|(Hopen & call & ->)].
  - destruct Hl as [Hone Hnone]. unfold closedOnce. rewrite Hcalls.
    split; [done|]. intros H. apply Hnone, Hopen, H.
  - by apply link_closeWith_closedOnce.
Qed.

(** X25. In every state of a link of the proxy without retries: the
    message counter is the number of payloads handed to [send] on both
    sides together; [cleanup] has logged at most once, and what it logged
    is the final count; and on each side at most one [close] call of the
    link has been accepted, a call that raised not being one, and none
    while that side is still open. *)
Theorem basic_relay_accounting (tr : list relayEvent) :
  let l := relayRun establishProxy tr in
  messageCount l = length (sent (client l)) + length (sent (target l))
  ∧ closedLog l = (if isActive l then [] else [messageCount l])
  ∧ ∀ s,
      length (filter (λ call, raises call = false) (closeCalls (peerOf s l))) ≤ 1
      ∧ (isOpen (peerOf s l) = true →
           Forall (λ call, raises call = true) (closeCalls (peerOf s l))).
Proof.
  intros l.
  destruct (relayRun_invariant tr) as (Hcount & Hlog & Hentries).
  fold l in Hcount, Hlog, Hentries.
  split; [done | split].
  - destruct (isActive l).
    + by apply length_zero_iff_nil.
    + destruct (closedLog l) as [|n [|m rest]] eqn:E; simpl in Hlog; try lia.
      f_equal. apply Hentries. left.
  - intros s. apply (relayRun_closedOnce tr s).
Qed.

(** X26. In every state of a link of the proxy without retries, when
    one side closes with a code and a reason, the 'close' listener calls
    [close] on the other side, if it is open, with that code and that
    reason as they came; when [ws] accepts them the other side starts
    closing, and when it refuses them, as it does 1005 and 1006, the codes
    of a 'close' without a status code and of a dropped connection, the
    call raises instead of closing the other side; a valid code with a
    reason of at most 123 bytes is accepted. When one side reports an
    error the other side, if it is open, is closed without a code, which
    never raises. A side that is not open and the side of the event get
    no call, nothing is sent, and the link is inactive afterwards. *)
Theorem basic_relay_teardown (tr : list relayEvent) (s : Relay.side) :
  let l := relayRun establishProxy tr in
  (∀ c reason,
     let l' := relayStep l (Close s c reason) in
     let refused := Ws.closeRaises c (reasonBytes reason) in
     closeCalls (peerOf (Relay.other s) l')
       = (if isOpen (peerOf (Relay.other s) l)
          then closeCalls (peerOf (Relay.other s) l) ++ [closeArgs c reason]
          else closeCalls (peerOf (Relay.other s) l))
     ∧ (isOpen (peerOf (Relay.other s) l) && refused = false →
          state (peerOf (Relay.other s) l')
          = (if isOpen (peerOf (Relay.other s) l) then CLOSING
             else state (peerOf (Relay.other s) l)))
     ∧ (c = 1005%Z ∨ c = 1006%Z → refused = true)
     ∧ (Ws.isValidStatusCode c = true →
        (String.length (reasonBytes reason) ≤ 123)%nat → refused = false)
     ∧ closeCalls (peerOf s l') = closeCalls (peerOf s l)
     ∧ sent (client l') = sent (client l)
     ∧ sent (target l') = sent (target l)
     ∧ isActive l' = false)
  ∧ (let l' := relayStep l (Error s) in
     closeCalls (peerOf (Relay.other s) l')
       = (if isOpen (peerOf (Relay.other s) l)
          then closeCalls (peerOf (Relay.other s) l) ++ [closeNoArgs]
          else closeCalls (peerOf (Relay.other s) l))
     ∧ state (peerOf (Relay.other s) l')
       = (if isOpen (peerOf (Relay.other s) l)
          then CLOSING else state (peerOf (Relay.other s) l))
     ∧ closeCalls (peerOf s l') = closeCalls (peerOf s l)
     ∧ sent (client l') = sent (client l)
     ∧ sent (target l') = sent (target l)
     ∧ isActive l' = false).
Proof.
  intros l. clearbody l. split.
  - intros c reason l' refused.
    assert (c = 1005%Z ∨ c = 1006%Z → refused = true) as Hinvalid
      by (intros [->| ->]; reflexivity).
    assert (Ws.isValidStatusCode c = true →
            (String.length (reasonBytes reason) ≤ 123)%nat → refused = false)
      as Hvalid.
    { intros Hc Hlen. subst refused. unfold Ws.closeRaises. rewrite Hc. simpl.
      by apply Nat.ltb_ge. }
    subst l' refused. destruct s; crush_link; by repeat split.
  - intros l'. subst l'. destruct s; crush_link; by repeat split.
Qed.

End BasicProxyFacts.

(** ** The token-gated relay *)

Module SimpleWsProxyFacts.
Import SimpleWsProxy.

Lemma run_without_target c tr :
  target c = None →
  target (run c tr) = None
  ∧ clientSent (run c tr) = clientSent c
  ∧ clientCloseCalls (run c tr) = clientCloseCalls c.
Proof.
  revert c. induction tr as [|ev tr IH]; intros c Hc; [done|]. simpl.
  assert (target (step c ev) = None
          ∧ clientSent (step c ev) = clientSent c
          ∧ clientCloseCalls (step c ev) = clientCloseCalls c)
    as (H1 & H2 & H3)
    by (unfold step; rewrite Hc; by destruct ev).
  destruct (IH _ H1) as (I1 & I2 & I3).
  by rewrite I1, I2, I3, H2, H3.
Qed.

(** X27. A connection that carries no token, or an empty one, is
    closed with the code 4001 and the reason 'No token provided'; no
    socket to the target is made for it, and whatever happens afterwards
    nothing is sent to the client and no further close call is made. *)
Theorem no_token_is_refused (token : queryValue) (tr : list event) :
  truthy token = false →
  let c := run (onConnection token) tr in
  target c = None
  ∧ clientSent c = []
  ∧ clientCloseCalls c = [Some (4001%Z, "No token provided")].
Proof.
  intros Hno c. subst c. unfold onConnection. rewrite Hno. simpl.
  match goal with |- context [run ?c0 tr] =>
    destruct (run_without_target c0 tr eq_refl) as (H1 & H2 & H3)
  end.
  by rewrite H1, H2, H3.
Qed.

Lemma no_token_is_refused_witness :
  clientCloseCalls (run (onConnection (single "")) [TargetOpen; ClientClose])
  = [Some (4001%Z, "No token provided")].
Proof.
  apply (no_token_is_refused (single "") [TargetOpen; ClientClose]).
  reflexivity.
Defined.

(** The target socket of a connection keeps its URL and subprotocol, and
    what it is sent starts with the connection_init message. *)
Lemma step_initFirst c ev t :
  target c = Some t → initFirst c →
  ∃ t', target (step c ev) = Some t'
        ∧ url t' = url t ∧ protocol t' = protocol t
        ∧ initFirst (step c ev).
Proof.
  unfold initFirst. intros Ht. rewrite Ht. intros [Hinit Hfresh].
  unfold step. rewrite Ht.
  destruct ev; simpl;
    repeat match goal with
           | |- context [if ?x then _ else _] => destruct x eqn:?
           end;
    simpl; rewrite ?Ht; eexists; (split; [reflexivity|]);
    (split; [reflexivity|]); (split; [reflexivity|]); simpl;
    try (split; [exact Hinit | exact Hfresh]).
  - split; [|done]. intros _.
    destruct (targetSent t) as [|f rest] eqn:E; [by eexists|].
    destruct Hinit as [rest' Hrest]; [by right|].
    injection Hrest as -> ->. by eexists.
  - split.
    + intros _. destruct Hinit as [rest Hrest].
      { left. by destruct (targetState t). }
      rewrite Hrest. by eexists.
    + intros Hc. destruct (targetState t); done.
  - split; [|done]. intros [?|Hne]; [done|]. apply Hinit. by right.
  - split; [|done]. intros [?|Hne]; [done|]. apply Hinit. by right.
  - split; [|done]. intros [?|Hne]; [done|]. apply Hinit. by right.
  - split.
    + intros [Ho|Hne]; apply Hinit; [|by right].
      unfold closingState in Ho.
      by destruct (readyState_eqb (targetState t) CLOSED).
    + unfold closingState.
      by destruct (readyState_eqb (targetState t) CLOSED) eqn:E;
        [destruct (targetState t)|].
  - split.
    + intros [Ho|Hne]; apply Hinit; [|by right].
      unfold closingState in Ho.
      by destruct (readyState_eqb (targetState t) CLOSED).
    + unfold closingState.
      by destruct (readyState_eqb (targetState t) CLOSED) eqn:E;
        [destruct (targetState t)|].
Qed.

Lemma run_initFirst c tr t :
  target c = Some t → initFirst c →
  ∃ t', target (run c tr) = Some t'
        ∧ url t' = url t ∧ protocol t' = protocol t
        ∧ initFirst (run c tr).
Proof.
  revert c t. induction tr as [|ev tr IH]; intros c t Ht Hc.
  - exists t. by repeat split.
  - destruct (step_initFirst c ev t Ht Hc) as (t1 & Ht1 & Hu1 & Hp1 & Hc1).
    destruct (IH _ _ Ht1 Hc1) as (t2 & Ht2 & Hu2 & Hp2 & Hc2).
    exists t2. simpl. repeat split; try done; congruence.
Qed.

(** Messages of the client that arrive while the target socket is still
    connecting change nothing. *)
Lemma run_before_open c tr t :
  target c = Some t → targetState t = CONNECTING →
  onlyClientMessages tr = true → run c tr = c.
Proof.
  intros Ht Hs. induction tr as [|ev tr IH]; [done|].
  intros Honly. simpl in Honly. apply andb_true_iff in Honly as [Hev Htr].
  destruct ev; try done.
  change (run (step c (ClientMessage data)) tr = c).
  replace (step c (ClientMessage data)) with c; [by apply IH|].
  unfold step. by rewrite Ht, Hs.
Qed.

(** Messages of the client that arrive while the target socket is open
    are handed on in order. *)
Lemma run_after_open c tr t :
  target c = Some t → targetState t = OPEN →
  onlyClientMessages tr = true →
  ∃ t', target (run c tr) = Some t'
        ∧ targetSent t' = targetSent t ++ fromClient tr.
Proof.
  revert c t. induction tr as [|ev tr IH]; intros c t Ht Hs.
  - intros _. exists t. by rewrite app_nil_r.
  - intros Honly. simpl in Honly. apply andb_true_iff in Honly as [Hev Htr].
    destruct ev; try done.
    destruct (IH (step c (ClientMessage data))
                (targetSend (Data data) t)) as (t' & Ht' & Hsent); try done.
    { unfold step. by rewrite Ht, Hs. }
    exists t'. split; [done|]. rewrite Hsent. simpl.
    by rewrite <- app_assoc.
Qed.

(** X28. A connection that carries a token gets one socket to
    wss://api.aion.to/ws/graphql?token= followed by the token, with the
    subprotocol graphql-transport-ws, whatever happens afterwards. What is
    sent to the target is nothing or starts with the connection_init
    message; messages of the client that arrive before the target socket
    has opened are dropped, not queued; and once the socket has opened the
    messages of the client are handed on as they came, in order. *)
Theorem token_connection (token : queryValue) (tr : list event) :
  truthy token = true →
  ∃ t, target (run (onConnection token) tr) = Some t
       ∧ url t = "wss://api.aion.to/ws/graphql?token=" +:+ show token
       ∧ protocol t = "graphql-transport-ws"
       ∧ (targetSent t = []
          ∨ ∃ rest, targetSent t = Text connectionInit :: rest)
       ∧ (onlyClientMessages tr = true → targetSent t = [])
       ∧ (targetState t = OPEN →
          ∀ later, onlyClientMessages later = true →
            ∃ t', target (run (run (onConnection token) tr) later) = Some t'
                  ∧ targetSent t' = targetSent t ++ fromClient later).
Proof.
  intros Hyes. unfold onConnection. rewrite Hyes. simpl.
  match goal with |- context [run ?c0 tr] => set (c := c0) end.
  match goal with _ := context [Some ?t0] |- _ => set (t0' := t0) in * end.
  destruct (run_initFirst c tr t0') as (t & Ht & Hu & Hp & Hinit);
    [done | unfold initFirst; simpl; split; [by intros [?|?] | done] |].
  exists t. split; [done|]. split; [done|]. split; [done|].
  unfold initFirst in Hinit. rewrite Ht in Hinit. destruct Hinit as [Hinit _].
  split; [|split].
  - destruct (targetSent t) as [|f rest] eqn:E; [by left|].
    right. apply Hinit. by right.
  - intros Honly.
    rewrite (run_before_open c tr t0') in Ht by done.
    by injection Ht as <-.
  - intros Hopen later Hlater. by apply run_after_open.
Qed.

Lemma token_connection_witness :
  ∃ t, target (run (onConnection (single "abc"))
                 [ClientMessage Relay.m1; TargetOpen; ClientMessage Relay.m2])
       = Some t
       ∧ url t = "wss://api.aion.to/ws/graphql?token=abc".
Proof.
  destruct (token_connection (single "abc")
              [ClientMessage Relay.m1; TargetOpen; ClientMessage Relay.m2]
              eq_refl) as (t & Ht & Hu & _).
  exists t. split; [exact Ht | exact Hu].
Defined.

End SimpleWsProxyFacts.

(** ** An upgraded session: which listener closes the client *)

(** The [close] calls the orchestrator's listener adds on the client
    socket of an upgraded attempt: none for an error taken for an
    authentication failure or a client that is not open, one otherwise. *)
Lemma upgraded_error_client_closes this i e st r a :
  Upgrade.attempts st !! i = Some a →
  Upgrade.isUpgraded a = true →
  Upgrade.connectionClosed a = false →
  Upgrade.clientWs a = Some (Relay.state (Relay.client r)) →
  drop (length (Upgrade.clientCloses st))
    (Upgrade.clientCloses (Upgrade.onTargetError this i e st))
  = (if negb (Upgrade.isAuthenticationError e) && Relay.isOpen (Relay.client r)
     then [(if codeIs e "ECONNREFUSED" then 1006%Z else 1011%Z,
            "Target server connection error")]
     else [])
  ∧ Upgrade.socketWrites (Upgrade.onTargetError this i e st)
    = Upgrade.socketWrites st
  ∧ Upgrade.timers (Upgrade.onTargetError this i e st) = Upgrade.timers st.
Proof.
  intros Hi Hu Hc Hclient. unfold Upgrade.onTargetError. rewrite Hi. simpl.
  rewrite Hc, Hu, andb_false_r. simpl.
  destruct (Upgrade.isAuthenticationError e); simpl.
  - by rewrite drop_all.
  - rewrite Hclient. unfold Relay.isOpen.
    destruct (Relay.state (Relay.client r)); simpl;
      by rewrite ?drop_all, ?drop_app_length.
Qed.

(** X29. When the outbound socket of an upgraded attempt reports an
    error, the listener of the orchestrator runs before that of the relay
    session. On an open client socket [close] is called exactly once: for
    an error whose message carries neither 401 nor 403 by the
    orchestrator, with 1006 when the error code is ECONNREFUSED and 1011
    otherwise (so also for ECONNRESET and ETIMEDOUT) and the reason
    'Target server connection error'; only for a message that carries 401
    or 403 by the relay, with 1006 for ECONNRESET, 1001 for ETIMEDOUT, 1011
    otherwise and the reason 'Target error: ' followed by the message.
    [ws] refuses 1006 and a reason longer than 123 bytes: then the call
    raises; otherwise the client starts closing. When
    the call of the orchestrator raises, the listener of the relay does
    not run and the relay session stays as active as it was; in every
    other case it is inactive afterwards. A client socket that is not
    open gets no call. Nothing is written to the inbound socket. *)
Theorem established_target_error (this : WebSocketProxy) (now : Z) (i : nat)
    (e : error) (st : Upgrade.session) (r : Relay.relay)
    (a : Upgrade.attempt) :
  Upgrade.attempts st !! i = Some a →
  Upgrade.isUpgraded a = true →
  Upgrade.connectionClosed a = false →
  Upgrade.clientWs a = Some (Relay.state (Relay.client r)) →
  let out := Established.onTargetError this now i e st r in
  let call :=
    if Upgrade.isAuthenticationError e then
      (if codeIs e "ECONNRESET" then 1006%Z
       else if codeIs e "ETIMEDOUT" then 1001%Z else 1011%Z,
       "Target error: " +:+ message e)
    else
      (if codeIs e "ECONNREFUSED" then 1006%Z else 1011%Z,
       "Target server connection error") in
  let refused :=
    if Upgrade.isAuthenticationError e
    then codeIs e "ECONNRESET" || (123 <? String.length call.2)%nat
    else codeIs e "ECONNREFUSED" in
  Ws.closeRaises call.1 call.2 = refused
  ∧ Relay.closeCalls (Relay.client out.2)
    = (if Relay.isOpen (Relay.client r)
       then Relay.closeCalls (Relay.client r) ++ [call]
       else Relay.closeCalls (Relay.client r))
  ∧ (Relay.isOpen (Relay.client r) && refused = false →
       Relay.state (Relay.client out.2)
       = (if Relay.isOpen (Relay.client r) then CLOSING
          else Relay.state (Relay.client r)))
  ∧ Relay.isProxyActive out.2
    = (if negb (Upgrade.isAuthenticationError e)
          && Relay.isOpen (Relay.client r) && refused
       then Relay.isProxyActive r else false)
  ∧ Upgrade.socketWrites out.1 = Upgrade.socketWrites st
  ∧ Upgrade.timers out.1 = Upgrade.timers st.
Proof.
  intros Hi Hu Hc Hclient out call refused.
  assert (Ws.closeRaises call.1 call.2 = refused) as Hrefused.
  { subst call refused. destruct (Upgrade.isAuthenticationError e); simpl.
    - unfold Ws.closeRaises. destruct (codeIs e "ECONNRESET"); [done|].
      by destruct (codeIs e "ETIMEDOUT").
    - by destruct (codeIs e "ECONNREFUSED"). }
  split; [exact Hrefused|].
  destruct (upgraded_error_client_closes this i e st r a Hi Hu Hc Hclient)
    as (Hcalls & Hwrites & Htimers).
  pose proof (RelayFacts.onError_inactive now Relay.Target e) as Hinactive.
  subst out. unfold Established.onTargetError. cbv zeta. rewrite Hcalls.
  assert (∀ r0, Relay.client (Relay.onError now Relay.Target e r0)
                = if Relay.isOpen (Relay.client r0)
                  then Relay.closeWith
                         (if codeIs e "ECONNRESET" then 1006%Z
                          else if codeIs e "ETIMEDOUT" then 1001%Z else 1011%Z)
                         ("Target error: " +:+ message e) (Relay.client r0)
                  else Relay.client r0) as Hrelay
    by (intros r0; apply (RelayFacts.onError_peers now Relay.Target e r0)).
  set (r0 := Relay.setPeer Relay.Target (Relay.closing (Relay.target r)) r).
  assert (Relay.client r0 = Relay.client r) as Hr0 by reflexivity.
  destruct (Upgrade.isAuthenticationError e) eqn:Hauth;
    cbn [negb andb forallb foldl fst snd].
  - rewrite Hrelay, Hinactive, Hr0. subst call. simpl in Hrefused.
    destruct (Relay.isOpen (Relay.client r)); simpl; [|done].
    rewrite Hrefused. by destruct refused.
  - subst call. simpl in Hrefused. subst refused.
    destruct (Relay.isOpen (Relay.client r)) eqn:Hopen;
      cbn [negb andb forallb foldl fst snd].
    + unfold Relay.accepted. cbn [fst snd]. rewrite Hrefused.
      unfold Established.clientClosed. cbn [fst snd].
      destruct (codeIs e "ECONNREFUSED"); cbn [negb andb fst snd].
      * simpl. rewrite ?Hrefused. by repeat split.
      * rewrite Hrelay, Hinactive. simpl. rewrite ?Hrefused. simpl.
        by repeat split.
    + rewrite Hrelay, Hinactive, Hr0, Hopen. by repeat split.
Qed.

Lemma established_target_error_witness :
  Relay.closeCalls (Relay.client
    (Established.onTargetError proxy 10 0 Relay.connectionReset
       (Upgrade.run proxy (Upgrade.handleWebSocketUpgrade proxy false)
          [Upgrade.TargetOpen 0 Upgrade.Completes])
       Relay.established).2)
  = [(1011%Z, "Target server connection error")]
  ∧ Relay.isProxyActive
      (Established.onTargetError proxy 10 0 Upgrade.refused
         (Upgrade.run proxy (Upgrade.handleWebSocketUpgrade proxy false)
            [Upgrade.TargetOpen 0 Upgrade.Completes])
         Relay.established).2
    = true.
Proof.
  destruct (established_target_error proxy 10%Z 0 Relay.connectionReset
              (Upgrade.run proxy (Upgrade.handleWebSocketUpgrade proxy false)
                 [Upgrade.TargetOpen 0 Upgrade.Completes])
              Relay.established
              (Upgrade.upgraded
                 (Upgrade.clearTimeout
                    (Upgrade.targetReports OPEN false Upgrade.newAttempt)))
              eq_refl eq_refl eq_refl eq_refl) as (_ & Hcalls & _).
  destruct (established_target_error proxy 10%Z 0 Upgrade.refused
              (Upgrade.run proxy (Upgrade.handleWebSocketUpgrade proxy false)
                 [Upgrade.TargetOpen 0 Upgrade.Completes])
              Relay.established
              (Upgrade.upgraded
                 (Upgrade.clearTimeout
                    (Upgrade.targetReports OPEN false Upgrade.newAttempt)))
              eq_refl eq_refl eq_refl eq_refl) as (_ & _ & _ & Hactive & _).
  split; [exact Hcalls | exact Hactive].
Defined.
